(** * sos report plugins: dqlite collection planning and output redaction

    A shallow embedding of the [dqlite] plugin ([sos/report/plugins/dqlite.py])
    and of the redaction rules of the [dqlite], [microk8s], [docker] and
    [ceph_common] plugins, with the [setup] methods of the last three.

    Text is modelled as [string] (characters are code points below 256).
    Python's [re] module is modelled by a backtracking matcher over the
    fragment of the pattern language the plugins use; the plugin framework
    ([add_cmd_output], [add_copy_spec], [do_file_sub], ...) is modelled as
    actions recorded in a trace and as operations on the collected archive. *)

From Stdlib Require Import String Ascii List Bool Arith Lia.
Import ListNotations.
Open Scope list_scope.
Open Scope string_scope.

(** ** Characters and strings *)

Definition nl : ascii := ascii_of_nat 10.
Definition dquote : ascii := ascii_of_nat 34.
Definition backslash : ascii := ascii_of_nat 92.

(** A one-character string, and the double quote as a string. *)
Definition str1 (c : ascii) : string := String c EmptyString.
Definition dq : string := str1 dquote.
Definition newline : string := str1 nl.

Definition ascii_in (lo hi : nat) (c : ascii) : bool :=
  (lo <=? nat_of_ascii c)%nat && (nat_of_ascii c <=? hi)%nat.

(** [str.isdigit]-style decimal digits below code point 256: [0-9]. *)
Definition is_digit (c : ascii) : bool := ascii_in 48 57 c.

(** Python whitespace below code point 256: TAB..CR, FS..US, space, NEL
    and the no-break space. *)
Definition is_space (c : ascii) : bool :=
  ascii_in 9 13 c || ascii_in 28 32 c
  || (nat_of_ascii c =? 133)%nat || (nat_of_ascii c =? 160)%nat.

(** Lower-casing below code point 256 (ASCII and Latin-1 capitals). *)
Definition to_lower (c : ascii) : ascii :=
  let n := nat_of_ascii c in
  if ascii_in 65 90 c then ascii_of_nat (n + 32)
  else if ascii_in 192 222 c && negb (n =? 215)%nat then ascii_of_nat (n + 32)
  else c.

Fixpoint last_char (s : string) (d : option ascii) : option ascii :=
  match s with
  | EmptyString => d
  | String c s' => last_char s' (Some c)
  end.

Fixpoint str_forallb (p : ascii -> bool) (s : string) : bool :=
  match s with
  | EmptyString => true
  | String c s' => p c && str_forallb p s'
  end.

Fixpoint join (sep : string) (l : list string) : string :=
  match l with
  | [] => EmptyString
  | [x] => x
  | x :: l' => x ++ sep ++ join sep l'
  end.

(** ** Python's [re]: the fragment used by the plugins *)

Module Re.

(** [re.IGNORECASE] and [re.MULTILINE]. *)
Record flags := { ignorecase : bool; multiline : bool }.

Definition no_flags : flags := {| ignorecase := false; multiline := false |}.
Definition all_flag_settings : list flags :=
  [ {| ignorecase := false; multiline := false |};
    {| ignorecase := false; multiline := true |};
    {| ignorecase := true; multiline := false |};
    {| ignorecase := true; multiline := true |} ].

(** Character classes: [.] (no DOTALL: any character but a newline),
    [\s], [\S] and [\d]. *)
Inductive cset := CDot | CSpace | CNotSpace | CDigit.

Definition in_cset (cs : cset) (c : ascii) : bool :=
  match cs with
  | CDot => negb (Ascii.eqb c nl)
  | CSpace => is_space c
  | CNotSpace => negb (is_space c)
  | CDigit => is_digit c
  end.

(** Patterns.  Repetition is over one-character classes only, which is
    all the plugins' patterns use; [x+] is [x] followed by [x*] and [x?]
    is the alternation of [x] and the empty pattern (same backtracking
    order as in [re]). *)
Inductive regex :=
| REps
| RLit (lit : string)
| RSet (cs : cset)
| RStar (greedy : bool) (cs : cset)
| RSeq (r1 r2 : regex)
| RAlt (r1 r2 : regex)
| RGroup (n : nat) (r : regex)
| RBol.

Definition RPlus (cs : cset) : regex := RSeq (RSet cs) (RStar true cs).
Definition ROpt (r : regex) : regex := RAlt r REps.

Fixpoint RSeqs (rs : list regex) : regex :=
  match rs with
  | [] => REps
  | [r] => r
  | r :: rs' => RSeq r (RSeqs rs')
  end.

(** [a|b|c] for literal alternatives. *)
Fixpoint RAlts (lits : list string) : regex :=
  match lits with
  | [] => REps
  | [l] => RLit l
  | l :: lits' => RAlt (RLit l) (RAlts lits')
  end.

(** Matcher state: the character before the current position (for [^]),
    the text still to be read and the groups captured so far (the most
    recent binding of a group first). *)
Record mstate := {
  st_prev : option ascii;
  st_rest : string;
  st_caps : list (nat * string)
}.

Definition move (st : mstate) (prev : option ascii) (rest : string) : mstate :=
  {| st_prev := prev; st_rest := rest; st_caps := st_caps st |}.

Definition chr_eq (fl : flags) (a c : ascii) : bool :=
  Ascii.eqb a c || (ignorecase fl && Ascii.eqb (to_lower a) (to_lower c)).

Definition at_bol (fl : flags) (prev : option ascii) : bool :=
  match prev with
  | None => true
  | Some c => multiline fl && Ascii.eqb c nl
  end.

Fixpoint match_lit (fl : flags) (lit : string) (prev : option ascii) (s : string)
  : option (option ascii * string) :=
  match lit with
  | EmptyString => Some (prev, s)
  | String a lit' =>
      match s with
      | String c s' => if chr_eq fl a c then match_lit fl lit' (Some c) s' else None
      | EmptyString => None
      end
  end.

(** Greedy [x*]: the longest run first, then shorter ones. *)
Fixpoint star_greedy {A : Type} (p : ascii -> bool)
    (k : option ascii -> string -> option A) (prev : option ascii) (s : string)
  : option A :=
  match s with
  | String c s' =>
      if p c then
        match star_greedy p k (Some c) s' with
        | Some r => Some r
        | None => k prev s
        end
      else k prev s
  | EmptyString => k prev s
  end.

(** Lazy [x*?]: the shortest run first. *)
Fixpoint star_lazy {A : Type} (p : ascii -> bool)
    (k : option ascii -> string -> option A) (prev : option ascii) (s : string)
  : option A :=
  match k prev s with
  | Some r => Some r
  | None =>
      match s with
      | String c s' => if p c then star_lazy p k (Some c) s' else None
      | EmptyString => None
      end
  end.

(** The text read between two positions of the same subject. *)
Definition consumed (from to : string) : string :=
  substring 0 (String.length from - String.length to) from.

(** Backtracking matcher in continuation-passing style: [rmatch fl r k st]
    matches [r] at [st] and calls [k] on each candidate end state, in the
    order [re] tries them, until [k] accepts one. *)
Fixpoint rmatch (fl : flags) (r : regex) (k : mstate -> option mstate) (st : mstate)
  : option mstate :=
  match r with
  | REps => k st
  | RLit lit =>
      match match_lit fl lit (st_prev st) (st_rest st) with
      | Some (p, s) => k (move st p s)
      | None => None
      end
  | RSet cs =>
      match st_rest st with
      | String c s' => if in_cset cs c then k (move st (Some c) s') else None
      | EmptyString => None
      end
  | RStar greedy cs =>
      (if greedy then star_greedy else star_lazy)
        (in_cset cs) (fun p s => k (move st p s)) (st_prev st) (st_rest st)
  | RSeq r1 r2 => rmatch fl r1 (rmatch fl r2 k) st
  | RAlt r1 r2 =>
      match rmatch fl r1 k st with
      | Some x => Some x
      | None => rmatch fl r2 k st
      end
  | RGroup n r' =>
      rmatch fl r'
        (fun st' =>
           k {| st_prev := st_prev st';
                st_rest := st_rest st';
                st_caps := (n, consumed (st_rest st) (st_rest st')) :: st_caps st' |})
        st
  | RBol => if at_bol fl (st_prev st) then k st else None
  end.

(** One match attempt at the current position.  With [must_advance] an
    empty match is refused (the matcher backtracks into a longer one). *)
Definition match_here (fl : flags) (r : regex) (prev : option ascii)
    (must_advance : bool) (s : string) : option mstate :=
  rmatch fl r
    (fun st' =>
       if must_advance && (String.length (st_rest st') =? String.length s)%nat then None else Some st')
    {| st_prev := prev; st_rest := s; st_caps := [] |}.

Fixpoint group (n : nat) (caps : list (nat * string)) : string :=
  match caps with
  | [] => EmptyString
  | (m, s) :: caps' => if (n =? m)%nat then s else group n caps'
  end.

(** Replacement templates: literal text and group references ([\1],
    [\g<name>]); a group that took no part in the match expands to the
    empty string. *)
Inductive titem := TLit (s : string) | TGroup (n : nat).

Fixpoint expand (tpl : list titem) (caps : list (nat * string)) : string :=
  match tpl with
  | [] => EmptyString
  | TLit s :: tpl' => s ++ expand tpl' caps
  | TGroup n :: tpl' => group n caps ++ expand tpl' caps
  end.

(** [re.sub]: scan left to right; at each position try a match; copy the
    character and move on when there is none.  [skip] counts the
    characters of the current match still to be passed over.  After an
    empty match the next attempt at the same position must advance. *)
Fixpoint sub_from (fl : flags) (r : regex) (tpl : list titem)
    (prev : option ascii) (skip : nat) (s : string) {struct s} : string :=
  match skip with
  | S n =>
      match s with
      | String c s' => sub_from fl r tpl (Some c) n s'
      | EmptyString => EmptyString
      end
  | 0 =>
      match s with
      | EmptyString =>
          match match_here fl r prev false s with
          | Some st1 => expand tpl (st_caps st1)
          | None => EmptyString
          end
      | String c s' =>
          match match_here fl r prev false s with
          | None => String c (sub_from fl r tpl (Some c) 0 s')
          | Some st1 =>
              expand tpl (st_caps st1) ++
              match String.length s - String.length (st_rest st1) with
              | S n => sub_from fl r tpl (Some c) n s'
              | 0 =>
                  match match_here fl r prev true s with
                  | Some st2 =>
                      expand tpl (st_caps st2) ++
                      sub_from fl r tpl (Some c)
                        (String.length s - String.length (st_rest st2) - 1) s'
                  | None => String c (sub_from fl r tpl (Some c) 0 s')
                  end
              end
          end
      end
  end.

Definition sub (fl : flags) (r : regex) (tpl : list titem) (s : string) : string :=
  sub_from fl r tpl None 0 s.

(** [re.findall] for a pattern with exactly one group: the list of the
    texts of group 1, one per match, in order. *)
Fixpoint findall_from (fl : flags) (r : regex)
    (prev : option ascii) (skip : nat) (s : string) {struct s} : list string :=
  match skip with
  | S n =>
      match s with
      | String c s' => findall_from fl r (Some c) n s'
      | EmptyString => []
      end
  | 0 =>
      match s with
      | EmptyString =>
          match match_here fl r prev false s with
          | Some st1 => [group 1 (st_caps st1)]
          | None => []
          end
      | String c s' =>
          match match_here fl r prev false s with
          | None => findall_from fl r (Some c) 0 s'
          | Some st1 =>
              group 1 (st_caps st1) ::
              match String.length s - String.length (st_rest st1) with
              | S n => findall_from fl r (Some c) n s'
              | 0 =>
                  match match_here fl r prev true s with
                  | Some st2 =>
                      group 1 (st_caps st2) ::
                      findall_from fl r (Some c)
                        (String.length s - String.length (st_rest st2) - 1) s'
                  | None => findall_from fl r (Some c) 0 s'
                  end
              end
          end
      end
  end.

Definition findall (fl : flags) (r : regex) (s : string) : list string :=
  findall_from fl r None 0 s.

End Re.

Import Re.

(** The peer-address pattern of the microk8s hook,
    [Address:\s*(\d+\.\d+\.\d+\.\d+:\d+)]. *)
Definition address_re : regex :=
  RSeqs [ RLit "Address:"; RStar true CSpace;
          RGroup 1 (RSeqs [ RPlus CDigit; RLit "."; RPlus CDigit; RLit ".";
                            RPlus CDigit; RLit "."; RPlus CDigit; RLit ":";
                            RPlus CDigit ]) ].


(** ** Python strings and [json.dumps] *)

Fixpoint spaces (n : nat) : string :=
  match n with
  | 0 => EmptyString
  | S n' => String " " (spaces n')
  end.

(** Truth value of an optional string ([None] and the empty string are false). *)
Definition truthy (o : option string) : bool :=
  match o with
  | Some s => negb (s =? EmptyString)
  | None => false
  end.

(** An optional string formatted inside an f-string. *)
Definition py_str (o : option string) : string :=
  match o with
  | Some s => s
  | None => "None"
  end.

(** [x in (a, b, ...)] on strings. *)
Definition str_in (x : string) (l : list string) : bool := existsb (String.eqb x) l.

Definition hex_digit (n : nat) : ascii :=
  if (n <? 10)%nat then ascii_of_nat (48 + n) else ascii_of_nat (87 + n).

(** One character of a JSON string as [json.dumps] writes it
    ([ensure_ascii=True]): short escapes, [\u00xx] for the other characters
    outside the printable ASCII range. *)
Definition json_escape_char (c : ascii) : string :=
  let n := nat_of_ascii c in
  if Ascii.eqb c dquote then String backslash dq
  else if Ascii.eqb c backslash then String backslash (str1 backslash)
  else if (n =? 10)%nat then String backslash "n"
  else if (n =? 13)%nat then String backslash "r"
  else if (n =? 9)%nat then String backslash "t"
  else if (n =? 8)%nat then String backslash "b"
  else if (n =? 12)%nat then String backslash "f"
  else if ascii_in 32 126 c then str1 c
  else String backslash
         ("u00" ++ String (hex_digit (n / 16)) (str1 (hex_digit (n mod 16)))).

Fixpoint json_escape (s : string) : string :=
  match s with
  | EmptyString => EmptyString
  | String c s' => json_escape_char c ++ json_escape s'
  end.

Definition json_string (s : string) : string := dq ++ json_escape s ++ dq.

(** JSON values as far as the plugin builds them: strings and objects
    (a Python dict: keys in insertion order). *)
#[warnings="-register-all"]
Inductive json :=
| JStr (s : string)
| JObj (members : list (string * json)).

Fixpoint json_dumps (j : json) : string :=
  match j with
  | JStr s => json_string s
  | JObj members =>
      "{" ++
      (fix dumps_members (l : list (string * json)) : string :=
         match l with
         | [] => EmptyString
         | [(k, v)] => json_string k ++ ": " ++ json_dumps v
         | (k, v) :: l' => json_string k ++ ": " ++ json_dumps v ++ ", " ++ dumps_members l'
         end) members ++ "}"
  end.

Definition json_keys (j : json) : list string :=
  match j with
  | JStr _ => []
  | JObj members => map fst members
  end.

(** ** The plugin framework boundary *)

(** What a plugin asks of the framework, in the order it asks. *)
Inductive action :=
| DirListing (path suggest_filename subdir : string)
| CopySpec (paths : list string)
| CmdOutput (cmd suggest_filename subdir : string)
| Alert (msg : string).

(** Plugin code either returns or raises; what it asked of the framework
    before raising stays asked. *)
Inductive result (A : Type) :=
| Ok (a : A)
| Raised (e : string).
Arguments Ok {A} a.
Arguments Raised {A} e.

Definition M (A : Type) : Type := result A * list action.

Definition ret {A : Type} (a : A) : M A := (Ok a, []).

Definition bind {A B : Type} (m : M A) (f : A -> M B) : M B :=
  match m with
  | (Ok a, w) => let '(r, w') := f a in (r, w ++ w')%list
  | (Raised e, w) => (Raised e, w)
  end.

Definition raise {A : Type} (e : string) : M A := (Raised e, []).

(** [try: body  except Exception as e: handler e]. *)
Definition try_except {A : Type} (body : M A) (handler : string -> M A) : M A :=
  match body with
  | (Ok a, w) => (Ok a, w)
  | (Raised e, w) => let '(r, w') := handler e in (r, w ++ w')%list
  end.

Definition emit (a : action) : M unit := (Ok tt, [a]).

Notation "x <- c ;; k" := (bind c (fun x => k))
  (at level 61, c at next level, right associativity).
Notation "c ;; k" := (bind c (fun _ => k))
  (at level 61, right associativity).

Fixpoint for_each {A : Type} (l : list A) (body : A -> M unit) : M unit :=
  match l with
  | [] => ret tt
  | x :: l' => body x ;; for_each l' body
  end.

Definition trace {A : Type} (m : M A) : list action := snd m.

(** The host the report runs on: which packages are installed, and what
    reading a text file gives (its content, or the exception's message). *)
Inductive read_result :=
| ReadOk (content : string)
| ReadErr (e : string).

Record host := {
  is_installed : string -> bool;
  read_text : string -> read_result
}.

Definition add_dir_listing (path suggest_filename subdir : string) : M unit :=
  emit (DirListing path suggest_filename subdir).
Definition add_copy_spec (paths : list string) : M unit := emit (CopySpec paths).
Definition add_cmd_output (cmd suggest_filename subdir : string) : M unit :=
  emit (CmdOutput cmd suggest_filename subdir).
Definition add_alert (msg : string) : M unit := emit (Alert msg).

(** [with open(path, 'r', encoding='utf-8') as f: f.read()]. *)
Definition open_read (h : host) (path : string) : M string :=
  match read_text h path with
  | ReadOk content => ret content
  | ReadErr e => raise e
  end.

(** A collected command result. *)
Record CollectionResult := {
  res_cmd : string;
  res_filename : string;
  res_subdir : string;
  res_status : nat;
  res_output : string
}.

(** Modelled from the spec: the framework's command execution and output
    sink are not among the sources.  The spec gives them as
    [run(command_string) -> {exit_status, stdout_text}] and
    [emit(artifact, subdir, suggested_filename)], with a failure recorded per
    query and not propagated: each requested command is run and its result
    is kept, whatever its status. *)
Definition collect (run : string -> nat * string) (tr : list action)
  : list CollectionResult :=
  flat_map (fun a =>
              match a with
              | CmdOutput cmd name subdir =>
                  [ {| res_cmd := cmd; res_filename := name; res_subdir := subdir;
                       res_status := fst (run cmd); res_output := snd (run cmd) |} ]
              | _ => []
              end) tr.


(** ** The dqlite plugin *)

Inductive hook :=
| microceph_hook | microovn_hook | microcloud_hook | microk8s_hook | lxd_hook.

Record BackendConfig := {
  db_path : string;
  socket : string;
  sql_cmd : option string;
  socket_endpoint : string;
  collection : hook
}.

Definition header : string := "Content-Type: application/json".

Definition curl_cmd (cfg : BackendConfig) : string :=
  newline ++ spaces 12 ++ "curl -s --unix-socket " ++ socket cfg ++
  spaces 17 ++ "-X POST " ++ socket_endpoint cfg ++
  spaces 17 ++ "-H " ++ dq ++ header ++ dq ++
  spaces 17 ++ "-d" ++ newline ++ spaces 12.

(** The dict handed to [json.dumps] for the socket transport. *)
Definition query_payload (pkg query : string) : json :=
  if pkg =? "lxd"
  then JObj [("query", JStr query); ("database", JStr "local")]
  else JObj [("query", JStr query)].

Definition run_batch_dqlite_queries (pkg : string) (cfg : BackendConfig)
    (queries tables : list string) : M unit :=
  let sql_cmd := sql_cmd cfg in
  for_each (combine queries tables)
    (fun '(query, table) =>
       let query_json := json_dumps (query_payload pkg query) in
       let socket_cmd := curl_cmd cfg ++ " '" ++ query_json ++ "'" in
       add_cmd_output socket_cmd (pkg ++ "_dqlite_" ++ table) pkg ;;
       if truthy sql_cmd
       then add_cmd_output (py_str sql_cmd ++ " " ++ json_dumps (JStr query))
                           (py_str sql_cmd ++ "_" ++ table) pkg
       else ret tt).

Definition schema_query : string :=
  "SELECT * FROM sqlite_master WHERE type=" ++ dq ++ "table" ++ dq ++ ";".
Definition token_records_query : string :=
  "SELECT id, name, expiry_date FROM core_token_records;".
Definition cluster_members_query : string :=
  "SELECT id, name, address, schema_internal, " ++ spaces 20 ++
  "schema_external, heartbeat, role, api_extensions " ++ spaces 20 ++
  "FROM core_cluster_members;".
Definition config_query : string :=
  "SELECT * FROM config WHERE NOT ( " ++ spaces 20 ++
  "key LIKE " ++ dq ++ "%keyring%" ++ dq ++ " OR " ++ spaces 20 ++
  "key LIKE " ++ dq ++ "%ca_cert%" ++ dq ++ " OR " ++ spaces 20 ++
  "key LIKE " ++ dq ++ "%ca_key%" ++ dq ++ " " ++ spaces 16 ++ ");".
Definition services_query : string := "SELECT * FROM services;".

(** The queries and table names [base_collection] builds once it is past
    its early return. *)
Definition base_plan (pkg : string) : list string * list string :=
  let queries := [schema_query] in
  let tables := ["schema"] in
  let '(queries, tables) :=
    if negb (str_in pkg ["lxd"])
    then ((queries ++ [token_records_query; cluster_members_query])%list,
          (tables ++ ["token_records"; "core_cluster_members"])%list)
    else (queries, tables) in
  let '(queries, tables) :=
    if negb (str_in pkg ["microcloud"])
    then ((queries ++ [config_query])%list, (tables ++ ["config"])%list)
    else (queries, tables) in
  let '(queries, tables) :=
    if str_in pkg ["microceph"; "microovn"]
    then ((queries ++ [services_query])%list, (tables ++ ["services"])%list)
    else (queries, tables) in
  (queries, tables).

Definition base_collection (pkg : string) (cfg : BackendConfig) : M unit :=
  let db_path := db_path cfg in
  add_dir_listing db_path ("ls_" ++ pkg ++ "_dqlite_dir") pkg ;;
  add_copy_spec [ db_path ++ "/info.yaml";
                  db_path ++ "/cluster.yaml";
                  db_path ++ "/../daemon.yaml" ] ;;
  if pkg =? "microk8s" then ret tt
  else
    let '(queries, tables) := base_plan pkg in
    run_batch_dqlite_queries pkg cfg queries tables.

Definition microceph_collection (pkg : string) (cfg : BackendConfig) : M unit :=
  let queries := [ "SELECT * FROM disks;";
                   "SELECT * FROM client_config;";
                   "SELECT * FROM remote;" ] in
  let tables := ["disks"; "client_config"; "remote"] in
  run_batch_dqlite_queries pkg cfg queries tables.

Definition microovn_collection (pkg : string) (cfg : BackendConfig) : M unit := ret tt.
Definition microcloud_collection (pkg : string) (cfg : BackendConfig) : M unit := ret tt.
Definition lxd_collection (pkg : string) (cfg : BackendConfig) : M unit := ret tt.

Definition client_config_path : string :=
  "/var/snap/microk8s/current/credentials/client.config".

Definition fixed_queries : list string :=
  [ dq ++ ".cluster" ++ dq;
    dq ++ ".cluster" ++ dq ++ " -f json";
    dq ++ ".leader" ++ dq ].

Definition servers_path (cfg : BackendConfig) : string := db_path cfg ++ "/cluster.yaml".

Definition dqlite_cmd (cfg : BackendConfig) : string :=
  let db_path := db_path cfg in
  let dqlite_bin := "/snap/microk8s/current/bin/dqlite" in
  let cert := db_path ++ "/cluster.crt" in
  let key := db_path ++ "/cluster.key" in
  let servers := servers_path cfg in
  dqlite_bin ++ " -c " ++ cert ++ " -k " ++ key ++ " -s file://" ++ servers ++ " k8s".

Definition describe_query (node : string) : string :=
  dq ++ ".describe " ++ node ++ dq ++ " -f json".
Definition describe_name (pkg node : string) : string :=
  pkg ++ "_dqlite_.describe_" ++ node.

Definition microk8s_collection (h : host) (pkg : string) (cfg : BackendConfig) : M unit :=
  let db_path := db_path cfg in
  add_copy_spec [ client_config_path; db_path ++ "/failure-domain" ] ;;
  let servers := servers_path cfg in
  let queries := fixed_queries in
  let suggested_names := map (fun query => pkg ++ "_dqlite_" ++ query) queries in
  lists <-
    try_except
      (cluster <- open_read h servers ;;
       let nodes := findall no_flags address_re cluster in
       ret ((queries ++ map describe_query nodes)%list,
            (suggested_names ++ map (describe_name pkg) nodes)%list))
      (fun e =>
         add_alert ("Failed to parse " ++ servers ++ ": " ++ e) ;;
         ret (queries, suggested_names)) ;;
  for_each (combine (fst lists) (snd lists))
    (fun '(query, suggested_name) =>
       add_cmd_output (dqlite_cmd cfg ++ " " ++ query) suggested_name pkg).

Definition run_hook (h : host) (k : hook) (pkg : string) (cfg : BackendConfig) : M unit :=
  match k with
  | microceph_hook => microceph_collection pkg cfg
  | microovn_hook => microovn_collection pkg cfg
  | microcloud_hook => microcloud_collection pkg cfg
  | microk8s_hook => microk8s_collection h pkg cfg
  | lxd_hook => lxd_collection pkg cfg
  end.

(** The registry built by [setup], in insertion order. *)
Definition packages : list (string * BackendConfig) :=
  [ ("microceph",
     {| db_path := "/var/snap/microceph/common/state/database";
        socket := "/var/snap/microceph/common/state/control.socket";
        sql_cmd := Some "microceph cluster sql";
        socket_endpoint := "microceph/core/internal/sql";
        collection := microceph_hook |});
    ("microovn",
     {| db_path := "/var/snap/microovn/common/state/database";
        socket := "/var/snap/microovn/common/state/control.socket";
        sql_cmd := Some "microovn cluster sql";
        socket_endpoint := "microovn/core/internal/sql";
        collection := microovn_hook |});
    ("microcloud",
     {| db_path := "/var/snap/microcloud/common/state/database";
        socket := "/var/snap/microcloud/common/state/control.socket";
        sql_cmd := Some "microcloud sql";
        socket_endpoint := "microcloud/core/internal/sql";
        collection := microcloud_hook |});
    ("microk8s",
     {| db_path := "/var/snap/microk8s/current/var/kubernetes/backend";
        socket := "/var/snap/microk8s/current/var/kubernetes/backend/" ++
                  "kine.sock:12379";
        sql_cmd := None;
        socket_endpoint := "microk8s/core/internal/sql";
        collection := microk8s_hook |});
    ("lxd",
     {| db_path := "/var/snap/lxd/common/lxd/database/global";
        socket := "/var/snap/lxd/common/lxd/unix.socket";
        sql_cmd := Some "lxd sql local";
        socket_endpoint := "lxd/internal/sql";
        collection := lxd_hook |}) ].

(** What [setup] does for one installed backend. *)
Definition collect_backend (h : host) (pkg : string) (cfg : BackendConfig) : M unit :=
  base_collection pkg cfg ;;
  run_hook h (collection cfg) pkg cfg.

Definition setup (h : host) : M unit :=
  for_each packages
    (fun '(pkg, config) =>
       if is_installed h pkg then collect_backend h pkg config else ret tt).


(** ** The collected archive and the redaction helpers *)

(** A collected artifact: the copy of a file, or the output of a command. *)
Inductive origin :=
| FromFile (srcpath : string)
| FromCmd (cmd : string).

Record artifact := {
  art_origin : origin;
  art_content : string
}.

Definition archive := list artifact.

Definition redact (fl : flags) (regexp : regex) (subst : list titem) (a : artifact)
  : artifact :=
  {| art_origin := art_origin a;
     art_content := Re.sub fl regexp subst (art_content a) |}.

(** [fnmatch.fnmatch] for patterns made of literal characters, [*] and [?]. *)
Fixpoint fnmatch (name pat : string) : bool :=
  match pat with
  | EmptyString => match name with EmptyString => true | _ => false end
  | String p pat' =>
      if Ascii.eqb p "*" then
        (fix any_suffix (n : string) : bool :=
           fnmatch n pat' ||
           match n with
           | EmptyString => false
           | String _ n' => any_suffix n'
           end) name
      else
        match name with
        | EmptyString => false
        | String c name' =>
            (Ascii.eqb p "?" || Ascii.eqb p c) && fnmatch name' pat'
        end
  end.

(** Suggested output file names asked for in a trace, in order. *)
Definition suggested_filenames (tr : list action) : list string :=
  flat_map (fun a =>
              match a with
              | DirListing _ f _ => [f]
              | CmdOutput _ f _ => [f]
              | _ => []
              end) tr.

(** The commands a trace asks to run and to collect the output of. *)
Definition cmd_requests (tr : list action) : list action :=
  filter (fun a => match a with CmdOutput _ _ _ => true | _ => false end) tr.

(** Peer addresses found in the topology file ([[]] when it cannot be read). *)
Definition peer_addresses (h : host) (cfg : BackendConfig) : list string :=
  match read_text h (servers_path cfg) with
  | ReadOk cluster => findall no_flags address_re cluster
  | ReadErr _ => []
  end.

Fixpoint nodupb (l : list string) : bool :=
  match l with
  | [] => true
  | x :: l' => negb (str_in x l') && nodupb l'
  end.

Definition two_peers : string :=
  "Address: 10.0.0.1:7000" ++ newline ++ "Address: 10.0.0.2:7000" ++ newline.

(** ** Redaction helpers of the plugin framework *)

(** Modelled from the spec: [Plugin.do_file_sub] is not among the sources.
    The spec gives redaction as [redact(artifact, rule)] with a rule made of
    a target selector, a pattern and a replacement template, applied to the
    text of the selected artifact; here the selector is the path the file
    was copied from.  The flags the helper hands to [re.subn] are not
    visible in the plugins and are the parameter [fl]. *)
Definition do_file_sub (fl : flags) (srcpath : string) (regexp : regex)
    (subst : list titem) (ar : archive) : archive :=
  map (fun a =>
         match art_origin a with
         | FromFile p => if p =? srcpath then redact fl regexp subst a else a
         | FromCmd _ => a
         end) ar.

(** A path written as a pattern: every character stands for itself except
    the dot, which stands for any character. *)
Fixpoint pathexp (path : string) : regex :=
  match path with
  | EmptyString => REps
  | String c path' =>
      RSeq (if Ascii.eqb c "." then RSet CDot else RLit (str1 c)) (pathexp path')
  end.

Definition re_match (r : regex) (s : string) : bool :=
  match match_here no_flags r None false s with
  | Some _ => true
  | None => false
  end.

(** Modelled from the spec: [Plugin.do_path_regex_sub] is not among the
    sources.  Its selector is a pattern matched ([re.match]) against the
    paths of the copied files; command output is never selected. *)
Definition do_path_regex_sub (fl : flags) (pathexp : regex) (regexp : regex)
    (subst : list titem) (ar : archive) : archive :=
  map (fun a =>
         match art_origin a with
         | FromFile p => if re_match pathexp p then redact fl regexp subst a else a
         | FromCmd _ => a
         end) ar.

(** Modelled from the spec: [Plugin.do_cmd_output_sub] is not among the
    sources.  Its selector is the glob [*cmd*] matched against the command
    lines whose output was collected; copied files are never selected. *)
Definition do_cmd_output_sub (fl : flags) (cmd : string) (regexp : regex)
    (subst : list titem) (ar : archive) : archive :=
  let globstr := "*" ++ cmd ++ "*" in
  map (fun a =>
         match art_origin a with
         | FromCmd called => if fnmatch called globstr then redact fl regexp subst a else a
         | FromFile _ => a
         end) ar.

(** ** Further requests to the framework *)

(** The first argument of [add_cmd_output]: one command, or a list. *)
Inductive cmds_arg :=
| OneCmd (cmd : string)
| CmdList (cmds : list string).

(** The keyword arguments the plugins give to [add_cmd_output]; [None]
    where a call gives none. *)
Record cmd_kwargs := {
  kw_suggest_filename : option string;
  kw_subdir : option string;
  kw_tags : option string;
  kw_priority : option nat
}.

Definition no_kwargs : cmd_kwargs :=
  {| kw_suggest_filename := None; kw_subdir := None; kw_tags := None;
     kw_priority := None |}.

(** The calls of the [setup] methods into the framework, with their
    arguments as written. *)
Inductive call :=
| AddJournal (units : string)
| AddEnvVar (names : list string)
| AddDirListingOf (path : string) (recursive : bool)
| SetCmdPredicate (services : list string)
| AddFileTags (tags : list (string * string))
| AddCopySpec (paths : list string)
| AddForbiddenPath (paths : list string)
| AddCmdOutput (cmds : cmds_arg) (kwargs : cmd_kwargs)
| CollectCmdOutput (cmd : string).

(** What a [setup] did: whether it returned or raised, and the calls it
    made, in order. *)
Definition outcome : Type := result unit * list call.

(** The commands a call asks the output of. *)
Definition cmds_of (c : call) : list string :=
  match c with
  | AddCmdOutput (OneCmd cmd) _ => [cmd]
  | AddCmdOutput (CmdList cmds) _ => cmds
  | _ => []
  end.

(** ** More of Python's strings *)

(** [needle in hay]. *)
Fixpoint contains (needle hay : string) : bool :=
  String.prefix needle hay ||
  match hay with
  | EmptyString => false
  | String _ hay' => contains needle hay'
  end.

(** [str.split()] without argument: the maximal runs of characters that
    are not whitespace.  [word] is the run being read, if any. *)
Fixpoint split_from (word : option string) (s : string) : list string :=
  match s with
  | EmptyString =>
      match word with
      | Some w => [w]
      | None => []
      end
  | String c s' =>
      if is_space c then
        match word with
        | Some w => w :: split_from None s'
        | None => split_from None s'
        end
      else
        split_from (Some (match word with
                          | Some w => w ++ str1 c
                          | None => str1 c
                          end)) s'
  end.

Definition split (s : string) : list string := split_from None s.

(** Line boundaries of [str.splitlines] below code point 256: LF, VT, FF,
    CR, FS, GS, RS and NEL (CR LF counts as one). *)
Definition is_linebreak (c : ascii) : bool :=
  ascii_in 10 13 c || ascii_in 28 30 c || (nat_of_ascii c =? 133)%nat.

Definition cr : ascii := ascii_of_nat 13.

(** [str.splitlines()]: the lines without their boundaries; no empty last
    line after a final boundary.  [line] is the line being read. *)
Fixpoint splitlines_from (line : string) (s : string) : list string :=
  match s with
  | EmptyString => if line =? EmptyString then [] else [line]
  | String c s' =>
      if Ascii.eqb c cr then
        match s' with
        | String c' s'' =>
            if Ascii.eqb c' nl then line :: splitlines_from EmptyString s''
            else line :: splitlines_from EmptyString s'
        | EmptyString => [line]
        end
      else if is_linebreak c then line :: splitlines_from EmptyString s'
      else splitlines_from (line ++ str1 c) s'
  end.

Definition splitlines (s : string) : list string := splitlines_from EmptyString s.

(** ** Redaction rules of the plugins *)

Module dqlite.

Definition protect_keys : list string :=
  [ "certificate-authority-data"; "client-certificate-data"; "client-key-data" ].

(** The pattern [^\s*(#?\s*(k1|k2|k3):\s* )(\S.* )] over the protected keys
    (the blanks before the closing parentheses are not part of it). *)
Definition regexp : regex :=
  RSeqs [ RBol; RStar true CSpace;
          RGroup 1 (RSeqs [ ROpt (RLit "#"); RStar true CSpace;
                            RGroup 2 (RAlts protect_keys); RLit ":";
                            RStar true CSpace ]);
          RGroup 3 (RSeq (RSet CNotSpace) (RStar true CDot)) ].

(** The template [\1 ******]. *)
Definition subst : list titem := [TGroup 1; TLit " ******"].

Definition postproc (fl : flags) (ar : archive) : archive :=
  do_file_sub fl client_config_path regexp subst ar.

End dqlite.

Module Microk8s.

Definition microk8s_cmd : string := "microk8s".

(** The pattern [(certificate-authority-data:|token:)\s.*]. *)
Definition rsub : regex :=
  RSeqs [ RGroup 1 (RAlts ["certificate-authority-data:"; "token:"]);
          RSet CSpace; RStar true CDot ].

Definition protect_keys : list string :=
  [ "certificate-authority-data"; "client-certificate-data"; "client-key-data";
    "token" ].

(** The pattern [(^\s*(k1|k2|k3|k4)\s*:\s* )(.* )] over the protected keys
    (the blanks before the closing parentheses are not part of it). *)
Definition key_regex : regex :=
  RSeqs [ RGroup 1 (RSeqs [ RBol; RStar true CSpace; RGroup 2 (RAlts protect_keys);
                            RStar true CSpace; RLit ":"; RStar true CSpace ]);
          RGroup 3 (RStar true CDot) ].

Definition postproc (fl : flags) (ar : archive) : archive :=
  let ar := do_cmd_output_sub fl microk8s_cmd rsub
              [TGroup 1; TLit (" " ++ dq ++ "**********" ++ dq)] ar in
  do_path_regex_sub fl (pathexp client_config_path) key_regex
    [TGroup 1; TLit "*********"] ar.

Definition dqlite_bin : string := "/snap/microk8s/current/bin/dqlite".
Definition microk8s_data_dir : string :=
  "/var/snap/microk8s/current/var/kubernetes/backend".
Definition cert : string := microk8s_data_dir ++ "/cluster.crt".
Definition key : string := microk8s_data_dir ++ "/cluster.key".
Definition servers : string := microk8s_data_dir ++ "/cluster.yaml".
Definition dqlite_cmd : string :=
  dqlite_bin ++ " -c " ++ cert ++ " -k " ++ key ++ " -s file://" ++ servers ++ " k8s".

(** The class body reads the topology file when the class is created; an
    exception is swallowed ([except Exception: pass]), and then the class
    has no attribute [nodes]. *)
Definition nodes (h : host) : option (list string) :=
  match read_text h servers with
  | ReadOk cluster => Some (findall no_flags address_re cluster)
  | ReadErr _ => None
  end.

Definition microk8s_subcmds : list string :=
  [ "addons repo list"; "config"; "ctr plugins ls"; "ctr plugins ls -d"; "status";
    "version" ].

(** [setup]; reading [self.nodes] raises [AttributeError] when the class
    body did not bind it. *)
Definition setup (h : host) : outcome :=
  let calls :=
    [ AddJournal "snap.microk8s.*";
      AddCmdOutput
        (CmdList (map (fun subcmd => (microk8s_cmd ++ " " ++ subcmd)%string)
                      microk8s_subcmds))
        no_kwargs ] in
  match nodes h with
  | None => (Raised "'Microk8s' object has no attribute 'nodes'", calls)
  | Some nodes =>
      let dqlite_subcmds :=
        (map (fun node => (dq ++ ".describe " ++ node ++ dq ++ " -f json")%string) nodes
         ++ [ (dq ++ ".cluster" ++ dq)%string; (dq ++ ".cluster" ++ dq ++ " -f json")%string;
              (dq ++ ".leader" ++ dq)%string ])%list in
      (Ok tt,
       (calls
        ++ [ AddCopySpec
               [ "/var/snap/microk8s/current/credentials/client.config";
                 "/var/snap/microk8s/current/var/kubernetes/backend/info.yaml";
                 "/var/snap/microk8s/current/var/kubernetes/backend/cluster.yaml";
                 "/var/snap/microk8s/current/var/kubernetes/backend/failure-domain" ] ]
        ++ map (fun subcmd =>
                  AddCmdOutput (OneCmd (dqlite_cmd ++ " " ++ subcmd)%string)
                    {| kw_suggest_filename := Some ("dqlite_" ++ subcmd)%string;
                       kw_subdir := None; kw_tags := None; kw_priority := None |})
               dqlite_subcmds
        ++ [ AddCmdOutput (CmdList [("ls -al " ++ microk8s_data_dir)%string]) no_kwargs ])%list)
  end.

End Microk8s.

Module Docker.

(** The pattern [(?P<var>(pass|key|secret|PASS|KEY|SECRET).*?)=(?P<value>.*?)]
    followed by a double quote; [var] is group 1 and [value] is group 3. *)
Definition keywords : list string := ["pass"; "key"; "secret"; "PASS"; "KEY"; "SECRET"].

Definition env_regexp : regex :=
  RSeqs [ RGroup 1 (RSeq (RGroup 2 (RAlts keywords)) (RStar false CDot));
          RLit "=";
          RGroup 3 (RStar false CDot);
          RLit dq ].

(** The template [\g<var>=********] followed by a double quote. *)
Definition subst : list titem := [TGroup 1; TLit ("=********" ++ dq)].

Definition postproc (fl : flags) (ar : archive) : archive :=
  do_cmd_output_sub fl "*inspect*" env_regexp subst ar.

(** The plugin's options. *)
Record options := {
  opt_all : bool;
  opt_logs : bool;
  opt_size : bool
}.

(** What [collect_cmd_output] returns, as far as [setup] reads it. *)
Record cmd_result := {
  status : nat;
  output : string
}.

(** [[n.split()[1] for n in rows]]: the second field of every row; a row
    with fewer than two fields raises [IndexError]. *)
Fixpoint second_fields (rows : list string) : result (list string) :=
  match rows with
  | [] => Ok []
  | n :: rows' =>
      match nth_error (split n) 1 with
      | None => Raised "list index out of range"
      | Some net =>
          match second_fields rows' with
          | Ok nets => Ok (net :: nets)
          | Raised e => Raised e
          end
      end
  end.

Definition subcmds : list string :=
  [ "events --since 24h --until 1s"; "ps"; "stats --no-stream"; "version"; "volume ls" ].

Definition with_subdir (subdir : string) : cmd_kwargs :=
  {| kw_suggest_filename := None; kw_subdir := Some subdir; kw_tags := None;
     kw_priority := None |}.
Definition with_tags (tags : string) : cmd_kwargs :=
  {| kw_suggest_filename := None; kw_subdir := None; kw_tags := Some tags;
     kw_priority := None |}.
Definition with_priority (priority : nat) : cmd_kwargs :=
  {| kw_suggest_filename := None; kw_subdir := None; kw_tags := None;
     kw_priority := Some priority |}.

(** The calls of [setup] up to the listing of the networks. *)
Definition first_calls (o : options) : list call :=
  ([ AddCopySpec [ "/etc/docker/daemon.json"; "/var/lib/docker/repositories-*" ];
     AddEnvVar [ "DOCKER_BUILD_PROXY"; "DOCKER_RUN_PROXY" ];
     AddJournal "docker";
     AddDirListingOf "/etc/docker" true;
     SetCmdPredicate ["docker"] ]
   ++ map (fun subcmd => AddCmdOutput (OneCmd ("docker " ++ subcmd)%string) no_kwargs)
          subcmds
   ++ [ AddCmdOutput (OneCmd "docker info") (with_tags "docker_info");
        AddCmdOutput (OneCmd "docker images") (with_tags "docker_images");
        AddCmdOutput (OneCmd "docker ps -a") (with_tags "docker_list_containers") ]
   ++ (if opt_size o
       then [ AddCmdOutput (OneCmd "docker ps -as") (with_priority 100);
              AddCmdOutput (OneCmd "docker system df") (with_priority 100) ]
       else [])
   ++ [ CollectCmdOutput "docker network ls" ])%list.

(** The calls for the containers, the images and the volumes. *)
Definition last_calls (o : options) (containers : list string)
    (images : list (string * string)) (volumes : list string) : list call :=
  (flat_map (fun container =>
               AddCmdOutput (OneCmd ("docker inspect " ++ container)%string)
                 (with_subdir "containers")
               :: (if opt_logs o
                   then [ AddCmdOutput (OneCmd ("docker logs -t " ++ container)%string)
                            (with_subdir "containers") ]
                   else []))
            containers
   ++ flat_map (fun '(name, img_id) =>
                  let insp := if negb (contains "none" name) then name else img_id in
                  [ AddCmdOutput (OneCmd ("docker inspect " ++ insp)%string)
                      {| kw_suggest_filename := None; kw_subdir := Some "images";
                         kw_tags := Some "docker_image_inspect"; kw_priority := None |};
                    AddCmdOutput (OneCmd ("docker image history " ++ insp)%string)
                      {| kw_suggest_filename := None; kw_subdir := Some "images/history";
                         kw_tags := Some "docker_image_tree"; kw_priority := None |} ])
               images
   ++ map (fun vol =>
             AddCmdOutput (OneCmd ("docker volume inspect " ++ vol)%string)
               (with_subdir "volumes"))
          volumes)%list.

(** [setup], given the options, the result of [docker network ls], the
    first components of what [get_containers] returns (for the value of
    the option [all]), the images (name and id) and the volumes. *)
Definition setup (o : options) (nets : cmd_result) (get_containers : bool -> list string)
    (images : list (string * string)) (volumes : list string) : outcome :=
  let calls := first_calls o in
  let networks :=
    if (status nets =? 0)%nat
    then second_fields (tl (splitlines (output nets)))
    else Ok [] in
  match networks with
  | Raised e => (Raised e, calls)
  | Ok networks =>
      (Ok tt,
       (calls
        ++ map (fun net =>
                  AddCmdOutput (OneCmd ("docker network inspect " ++ net)%string) no_kwargs)
               networks
        ++ last_calls o (get_containers (opt_all o)) images volumes)%list)
  end.

End Docker.

Module RedHatDocker.

(** [super().setup()], then one more copy spec. *)
Definition setup (o : Docker.options) (nets : Docker.cmd_result)
    (get_containers : bool -> list string)
    (images : list (string * string)) (volumes : list string) : outcome :=
  match Docker.setup o nets get_containers images volumes with
  | (Ok _, calls) =>
      (Ok tt,
       (calls ++ [ AddCopySpec [ "/etc/udev/rules.d/80-docker.rules"; "/etc/containers/" ] ])%list)
  | (Raised e, calls) => (Raised e, calls)
  end.

End RedHatDocker.

Module UbuntuDocker.

Definition setup (o : Docker.options) (nets : Docker.cmd_result)
    (get_containers : bool -> list string)
    (images : list (string * string)) (volumes : list string) : outcome :=
  match Docker.setup o nets get_containers images volumes with
  | (Ok _, calls) =>
      (Ok tt,
       (calls ++ [ AddCopySpec [ "/etc/default/docker";
                                 "/run/docker/libcontainerd/containerd/events.log" ] ])%list)
  | (Raised e, calls) => (Raised e, calls)
  end.

End UbuntuDocker.

Module CephCommon.

Definition protect_keys : list string := ["rgw keystone admin password"].

(** The pattern [(^(rgw keystone admin password)\s*=\s* )(.* )] (the blanks
    before the closing parentheses are not part of it). *)
Definition regex : Re.regex :=
  RSeqs [ RGroup 1 (RSeqs [ RBol; RGroup 2 (RAlts protect_keys);
                            RStar true CSpace; RLit "="; RStar true CSpace ]);
          RGroup 3 (RStar true CDot) ].

(** The template [\1*********]. *)
Definition subst : list titem := [TGroup 1; TLit "*********"].

Definition postproc (fl : flags) (ar : archive) : archive :=
  do_path_regex_sub fl (pathexp "/etc/ceph/ceph.conf") regex subst ar.

(** The list [cmds] of [setup].  A backslash at the end of a line inside a
    string literal joins the next line, indentation included; the last two
    literals have no comma between them and make one string. *)
Definition cmds : list string :=
  [ "client config list";
    "cluster config list";
    "cluster list";
    "disk list";
    "log get-level";
    "status";
    "cluster sql 'SELECT * FROM config WHERE key NOT LIKE " ++ spaces 20 ++
      dq ++ "%keyring%" ++ dq ++ "'";
    "cluster sql 'SELECT id, name, expiry_date FROM " ++ spaces 20 ++
      "core_token_records'";
    "cluster sql 'SELECT * FROM services'";
    "cluster sql 'SELECT id, name, address, heartbeat, role FROM " ++ spaces 20 ++
      "core_cluster_members'";
    "cluster sql 'SELECT * FROM disk'" ++ "cluster sql 'SELECT * FROM client_config'" ].

(** [setup], given the option [all_logs] and whether the package manager
    knows a package microceph. *)
Definition setup (all_logs microceph_pkg : bool) : list call :=
  ((if negb microceph_pkg then
      [ AddFileTags [ (".*/ceph.conf", "ceph_conf");
                      ("/var/log/ceph(.*)?/ceph.log.*", "ceph_log") ];
        (if negb all_logs
         then AddCopySpec [ "/var/log/calamari/*.log"; "/var/log/ceph/**/ceph.log";
                            "/var/log/ceph/cephadm.log" ]
         else AddCopySpec [ "/var/log/calamari"; "/var/log/ceph/**/ceph.log*";
                            "/var/log/ceph/cephadm.log*" ]);
        AddCopySpec [ "/var/log/ceph/**/ceph.audit.log*"; "/etc/ceph/"; "/etc/calamari/";
                      "/var/lib/ceph/tmp/" ];
        AddForbiddenPath [ "/etc/ceph/*keyring*"; "/var/lib/ceph/*keyring*";
                           "/var/lib/ceph/*/*keyring*"; "/var/lib/ceph/*/*/*keyring*";
                           "/var/lib/ceph/osd"; "/var/lib/ceph/mon";
                           "/var/lib/ceph/tmp/*mnt*"; "/etc/ceph/*bindpass*" ] ]
    else
      let microceph_data_dir := "/var/snap/microceph/common/state/database" in
      [ (if negb all_logs
         then AddCopySpec [ "/var/snap/microceph/common/logs/ceph.log";
                            "/var/snap/microceph/common/logs/ceph.audit.log" ]
         else AddCopySpec [ "/var/snap/microceph/common/logs/ceph.log*";
                            "/var/snap/microceph/common/logs/ceph.audit.log*" ]);
        AddCmdOutput (OneCmd ("ls -al " ++ microceph_data_dir)%string) no_kwargs;
        AddCopySpec [ "/var/snap/microceph/common/state/daemon.yaml";
                      (microceph_data_dir ++ "/cluster.yaml")%string;
                      (microceph_data_dir ++ "/info.yaml")%string ];
        AddCmdOutput (OneCmd "snap info microceph")
          {| kw_suggest_filename := None; kw_subdir := Some "microceph";
             kw_tags := None; kw_priority := None |};
        AddCmdOutput (CmdList (map (fun cmd => ("microceph " ++ cmd)%string) cmds))
          {| kw_suggest_filename := None; kw_subdir := Some "microceph";
             kw_tags := None; kw_priority := None |} ])
   ++ [ AddCmdOutput (CmdList ["ceph -v"]) no_kwargs ])%list.

End CephCommon.

(** * Vocabulary of the statements *)

(** The command requests of the microk8s hook for a given list of peers. *)
Definition hook_requests (pkg : string) (cfg : BackendConfig) (nodes : list string)
  : list action :=
  map (fun '(query, name) => CmdOutput (dqlite_cmd cfg ++ " " ++ query) name pkg)
      (combine (fixed_queries ++ map describe_query nodes)
               (map (fun query => pkg ++ "_dqlite_" ++ query) fixed_queries
                  ++ map (describe_name pkg) nodes)).

Definition microk8s_cfg : BackendConfig :=
  {| db_path := "/var/snap/microk8s/current/var/kubernetes/backend";
     socket := "/var/snap/microk8s/current/var/kubernetes/backend/kine.sock:12379";
     sql_cmd := None;
     socket_endpoint := "microk8s/core/internal/sql";
     collection := microk8s_hook |}.

Definition microk8s_fixed_filenames : list string :=
  [ "ls_microk8s_dqlite_dir";
    "microk8s_dqlite_" ++ dq ++ ".cluster" ++ dq;
    "microk8s_dqlite_" ++ dq ++ ".cluster" ++ dq ++ " -f json";
    "microk8s_dqlite_" ++ dq ++ ".leader" ++ dq ].

Definition host_with_topology (cluster : string) : host :=
  {| is_installed := fun _ => true; read_text := fun _ => ReadOk cluster |}.

Definition repeated_peer : string :=
  "Address: 10.0.0.1:7000" ++ newline ++ "Address: 10.0.0.1:7000" ++ newline.

(** The socket request for one query. *)
Definition socket_request (pkg : string) (cfg : BackendConfig) (query table : string)
  : action :=
  CmdOutput (curl_cmd cfg ++ " '" ++ json_dumps (query_payload pkg query) ++ "'")
            (pkg ++ "_dqlite_" ++ table) pkg.

(** The CLI-wrapper request for one query. *)
Definition cli_request (pkg cli query table : string) : action :=
  CmdOutput (cli ++ " " ++ json_dumps (JStr query)) (cli ++ "_" ++ table) pkg.

Definition batch_requests (pkg : string) (cfg : BackendConfig) (qt : string * string)
  : list action :=
  socket_request pkg cfg (fst qt) (snd qt) ::
  (if truthy (sql_cmd cfg)
   then [cli_request pkg (py_str (sql_cmd cfg)) (fst qt) (snd qt)]
   else []).

Definition lxd_cfg : BackendConfig :=
  {| db_path := "/var/snap/lxd/common/lxd/database/global";
     socket := "/var/snap/lxd/common/lxd/unix.socket";
     sql_cmd := Some "lxd sql local";
     socket_endpoint := "lxd/internal/sql";
     collection := lxd_hook |}.

(** The queries of the base plan and of the microceph hook, each with the
    table name its results are filed under. *)
Definition query_tables : list (string * string) :=
  [ (schema_query, "schema");
    (token_records_query, "token_records");
    (cluster_members_query, "core_cluster_members");
    (config_query, "config");
    (services_query, "services");
    ("SELECT * FROM disks;", "disks");
    ("SELECT * FROM client_config;", "client_config");
    ("SELECT * FROM remote;", "remote") ].

(** The requests the plugin makes for query results: the command line of
    each transport, with the file name suggested for its output and the
    subdirectory. *)
Inductive query_result_form (h : host) (pkg : string) (cfg : BackendConfig)
  : action -> Prop :=
| socket_result (query table : string) :
    In (query, table) query_tables ->
    query_result_form h pkg cfg
      (CmdOutput (curl_cmd cfg ++ " '" ++ json_dumps (query_payload pkg query) ++ "'")
                 (pkg ++ "_dqlite_" ++ table) pkg)
| cli_result (query table : string) :
    truthy (sql_cmd cfg) = true ->
    In (query, table) query_tables ->
    query_result_form h pkg cfg
      (CmdOutput (py_str (sql_cmd cfg) ++ " " ++ json_dumps (JStr query))
                 (py_str (sql_cmd cfg) ++ "_" ++ table) pkg)
| hook_query_result (query : string) :
    collection cfg = microk8s_hook ->
    In query fixed_queries ->
    query_result_form h pkg cfg
      (CmdOutput (dqlite_cmd cfg ++ " " ++ query) (pkg ++ "_dqlite_" ++ query) pkg)
| hook_peer_result (node : string) :
    collection cfg = microk8s_hook ->
    In node (peer_addresses h cfg) ->
    query_result_form h pkg cfg
      (CmdOutput (dqlite_cmd cfg ++ " " ++ describe_query node)
                 (pkg ++ "_dqlite_.describe_" ++ node) pkg).

(** The form C4 claims for every suggested file name. *)
Definition claimed_labels : list string :=
  [ "schema"; "token_records"; "core_cluster_members"; "config"; "services";
    "disks"; "client_config"; "remote"; ".cluster"; ".leader" ].

Definition claimed_name_form (name : string) : Prop :=
  exists prefix label,
    name = prefix ++ "_dqlite_" ++ label /\
    (In label claimed_labels \/ exists addr, label = ".describe_" ++ addr).

Fixpoint strip_prefix (p s : string) : option string :=
  match p with
  | EmptyString => Some s
  | String a p' =>
      match s with
      | String c s' => if Ascii.eqb a c then strip_prefix p' s' else None
      | EmptyString => None
      end
  end.

(** All the ways to write [s] as [prefix ++ sep ++ rest]. *)
Fixpoint splits_at (sep s : string) : list (string * string) :=
  (match strip_prefix sep s with
   | Some rest => [(EmptyString, rest)]
   | None => []
   end ++
   match s with
   | EmptyString => []
   | String c s' => map (fun pr => (String c (fst pr), snd pr)) (splits_at sep s')
   end)%list.

Definition microceph_cfg : BackendConfig :=
  {| db_path := "/var/snap/microceph/common/state/database";
     socket := "/var/snap/microceph/common/state/control.socket";
     sql_cmd := Some "microceph cluster sql";
     socket_endpoint := "microceph/core/internal/sql";
     collection := microceph_hook |}.

Definition cluster_status_name : string := "microk8s_dqlite_" ++ dq ++ ".cluster" ++ dq.

Definition two_peers_unterminated : string :=
  "Address: 10.0.0.1:7000" ++ newline ++ "Address: 10.0.0.2:7000".

Definition hook_request (pkg : string) (cfg : BackendConfig) (query name : string)
  : action :=
  CmdOutput (dqlite_cmd cfg ++ " " ++ query) (pkg ++ "_dqlite_" ++ name) pkg.

Definition host_without_topology (e : string) : host :=
  {| is_installed := fun _ => true; read_text := fun _ => ReadErr e |}.

Definition no_such_file : string :=
  "[Errno 2] No such file or directory: " ++
  "'/var/snap/microk8s/current/var/kubernetes/backend/cluster.yaml'".

(** A topology file that can be read and is no YAML: a truncated entry
    and an unclosed bracket. *)
Definition unparsable_topology : string :=
  "- Address: 10.0.0.1:" ++ newline ++ "  ID: [" ++ newline.

(** A host on which every socket command fails with status 7 and every other
    command succeeds. *)
Definition socket_down (cmd : string) : nat * string :=
  match cmd with
  | String c _ => if Ascii.eqb c nl then (7, EmptyString) else (0, "rows")
  | EmptyString => (0, EmptyString)
  end.

(** The text does not start with a character of the class. *)
Definition stops (p : ascii -> bool) (s : string) : bool :=
  match s with
  | EmptyString => true
  | String c _ => negb (p c)
  end.




Definition blank (s : string) : bool := str_forallb is_space s.



Definition client_config (content : string) : artifact :=
  {| art_origin := FromFile client_config_path; art_content := content |}.

Definition keystone_key : string := "rgw keystone admin password".

Definition keystone_line : string := keystone_key ++ " = hunter2".

Definition keystone_masked : string := keystone_key ++ " = *********".

Definition ceph_conf (content : string) : artifact :=
  {| art_origin := FromFile "/etc/ceph/ceph.conf"; art_content := content |}.



Definition multiline_only : flags := {| ignorecase := false; multiline := true |}.

Definition ceph_conf_sample : archive :=
  [ ceph_conf (("[global]" ++ newline) ++ keystone_line ++ (newline ++ "fsid = 1" ++ newline)) ].


Definition no_char (c0 : ascii) (s : string) : bool :=
  str_forallb (fun c => negb (Ascii.eqb c0 c)) s.

Definition starts_with (c0 : ascii) (s : string) : bool :=
  match s with
  | EmptyString => false
  | String c _ => Ascii.eqb c0 c
  end.



(** A text spelled as a literal under the flags is read by that literal. *)
Definition spelled_as (fl : flags) (lit kw : string) : bool :=
  match match_lit fl lit None kw with
  | Some (_, EmptyString) => true
  | _ => false
  end.

(** The pattern's keyword, spelled in a way the alternation accepts under
    the flags: one of the six spellings it lists, or any letter case of
    them when matching ignores case. *)
Definition keyword (fl : flags) (kw : string) : bool :=
  existsb (fun lit => spelled_as fl lit kw) Docker.keywords.




Definition nl_free_lit (fl : flags) (lit : string) : bool :=
  str_forallb (fun a => negb (chr_eq fl a nl)) lit.

(** The pattern has no literal and no class that reads a newline. *)
Fixpoint line_bound (fl : flags) (r : regex) : bool :=
  match r with
  | REps | RBol => true
  | RLit lit => nl_free_lit fl lit
  | RSet cs | RStar _ cs => negb (in_cset cs nl)
  | RSeq r1 r2 | RAlt r1 r2 => line_bound fl r1 && line_bound fl r2
  | RGroup _ r' => line_bound fl r'
  end.

(** The same state with more text after a newline. *)
Definition lift (y : string) (st : mstate) : mstate :=
  {| st_prev := st_prev st; st_rest := st_rest st ++ String nl y; st_caps := st_caps st |}.


Definition one_line (s : string) : bool := str_forallb (in_cset CDot) s.

Definition cmd_output (cmd output : string) : artifact :=
  {| art_origin := FromCmd cmd; art_content := output |}.

Definition inspect_sample : string :=
  ("[" ++ newline ++
   "    " ++ dq ++ "Env" ++ dq ++ ": [" ++ newline ++
   "        " ++ dq ++ "PATH=/usr/bin" ++ dq ++ "," ++ newline) ++
  ("        " ++ dq ++ "my" ++ "pass" ++ "word") ++ "=" ++ "supersecret" ++ dq ++
  ("," ++ newline ++ "        " ++ dq ++ "container=oci" ++ dq ++ newline ++ "    ]").

Definition env_token (name value : string) : string := dq ++ name ++ "=" ++ value ++ dq.

(** A peer address as the topology file writes it: four decimal numbers
    separated by dots, then a colon and the port. *)
Record peer := {
  octet1 : string;
  octet2 : string;
  octet3 : string;
  octet4 : string;
  port : string
}.

Definition number (s : string) : bool :=
  negb (s =? EmptyString) && str_forallb is_digit s.

Definition peer_ok (a : peer) : bool :=
  number (octet1 a) && number (octet2 a) && number (octet3 a) && number (octet4 a)
  && number (port a).

Definition peer_text (a : peer) : string :=
  octet1 a ++ "." ++ octet2 a ++ "." ++ octet3 a ++ "." ++ octet4 a ++ ":" ++ port a.

(** An entry of the topology file: the key [Address:], blanks, the address,
    and the text up to the next entry (the rest of the line and the other
    fields of the peer). *)
Record entry := {
  entry_gap : string;
  entry_peer : peer;
  entry_tail : string
}.

(** The text after an address does not go on with a digit and has no
    capital A, so that no other entry starts inside it. *)
Definition entry_ok (e : entry) : bool :=
  blank (entry_gap e) && peer_ok (entry_peer e)
  && stops is_digit (entry_tail e) && no_char "A" (entry_tail e).

Fixpoint entries_text (es : list entry) : string :=
  match es with
  | [] => EmptyString
  | e :: es' =>
      "Address:" ++ entry_gap e ++ peer_text (entry_peer e) ++ entry_tail e ++
      entries_text es'
  end.

(** A topology file: some text before the first entry, then the entries. *)
Definition topology_text (lead : string) (es : list entry) : string :=
  lead ++ entries_text es.

Definition describe_request (pkg : string) (cfg : BackendConfig) (node : string) : action :=
  CmdOutput (dqlite_cmd cfg ++ " " ++ describe_query node) (describe_name pkg node) pkg.

(** A topology file of three peers as microk8s writes it. *)
Definition three_peers : list entry :=
  [ {| entry_gap := " ";
       entry_peer := {| octet1 := "10"; octet2 := "0"; octet3 := "0"; octet4 := "1";
                        port := "19001" |};
       entry_tail := newline ++ "  ID: 3297041220608546238" ++ newline ++
                     "  Role: 0" ++ newline ++ "- " |};
    {| entry_gap := " ";
       entry_peer := {| octet1 := "10"; octet2 := "0"; octet3 := "0"; octet4 := "2";
                        port := "19001" |};
       entry_tail := newline ++ "  ID: 1134642048928204623" ++ newline ++
                     "  Role: 0" ++ newline ++ "- " |};
    {| entry_gap := " ";
       entry_peer := {| octet1 := "192"; octet2 := "168"; octet3 := "1"; octet4 := "30";
                        port := "19001" |};
       entry_tail := newline ++ "  ID: 9904944171017204989" ++ newline ++
                     "  Role: 1" ++ newline |} ].



(** The subdirectory an action files its result under, when it has one. *)
Definition subdir_of (a : action) : option string :=
  match a with
  | DirListing _ _ subdir => Some subdir
  | CmdOutput _ _ subdir => Some subdir
  | CopySpec _ => None
  | Alert _ => None
  end.

(** A line of the credentials file as the microk8s plugin reads it:
    indentation, a protected key, blanks, a colon, blanks, and the value. *)
Definition key_line (indent key gap sep value : string) : string :=
  indent ++ key ++ gap ++ ":" ++ sep ++ value.

(** The template [\1*********] of the file rule of the microk8s plugin. *)
Definition key_subst : list titem := [TGroup 1; TLit "*********"].

Definition microcloud_cfg : BackendConfig :=
  {| db_path := "/var/snap/microcloud/common/state/database";
     socket := "/var/snap/microcloud/common/state/control.socket";
     sql_cmd := Some "microcloud sql";
     socket_endpoint := "microcloud/core/internal/sql";
     collection := microcloud_hook |}.

(** No literal of the list can be read at any position of the text. *)
Fixpoint lits_free (fl : flags) (lits : list string) (s : string) : bool :=
  forallb (fun lit => match match_lit fl lit None s with
                      | Some _ => false
                      | None => true
                      end) lits
  && match s with
     | EmptyString => true
     | String _ s' => lits_free fl lits s'
     end.

(** Every match of the pattern reads one of the literals. *)
Fixpoint needs (lits : list string) (r : regex) : bool :=
  match r with
  | RLit lit => str_in lit lits
  | RSeq r1 r2 => needs lits r1 || needs lits r2
  | RAlt r1 r2 => needs lits r1 && needs lits r2
  | RGroup _ r' => needs lits r'
  | REps | RSet _ | RStar _ _ | RBol => false
  end.

(** [t] is what is left of [s] after some characters. *)
Fixpoint suffix_of (t s : string) : Prop :=
  t = s \/ match s with
           | EmptyString => False
           | String _ s' => suffix_of t s'
           end.

(** The text of every artifact of the archive is free of the literals. *)
Definition archive_free (fl : flags) (lits : list string) (ar : archive) : bool :=
  forallb (fun a => lits_free fl lits (art_content a)) ar.

Definition plain_archive : archive :=
  [ client_config ("apiVersion: v1" ++ newline ++ "kind: Config" ++ newline);
    ceph_conf ("[global]" ++ newline ++ "fsid = 1" ++ newline);
    cmd_output "docker inspect web" ("[]" ++ newline);
    cmd_output "microk8s status" ("microk8s is running" ++ newline) ].

(** The pattern has no anchor. *)
Fixpoint anchor_free (r : regex) : bool :=
  match r with
  | RBol => false
  | REps | RLit _ | RSet _ | RStar _ _ => true
  | RSeq r1 r2 | RAlt r1 r2 => anchor_free r1 && anchor_free r2
  | RGroup _ r' => anchor_free r'
  end.

(** The same state after another character. *)
Definition set_prev (p : option ascii) (st : mstate) : mstate :=
  {| st_prev := p; st_rest := st_rest st; st_caps := st_caps st |}.

(** The lines of a text ([str.split] at the newlines: a text that ends
    with a newline has an empty last line). *)
Fixpoint lines (s : string) : list string :=
  match s with
  | EmptyString => [EmptyString]
  | String c s' =>
      if Ascii.eqb c nl then EmptyString :: lines s'
      else match lines s' with
           | l :: ls => String c l :: ls
           | [] => [String c EmptyString]
           end
  end.

(** The text and the groups of a state have no newline. *)
Definition on_one_line (st : mstate) : Prop :=
  one_line (st_rest st) = true /\
  Forall (fun cap => one_line (snd cap) = true) (st_caps st).

(** The literal parts of a template have no newline. *)
Fixpoint template_one_line (tpl : list titem) : bool :=
  match tpl with
  | [] => true
  | TLit s :: tpl' => one_line s && template_one_line tpl'
  | TGroup _ :: tpl' => template_one_line tpl'
  end.

(** The commands asked one by one under a suggested file name, with that
    name. *)
Definition named_cmds (calls : list call) : list (string * string) :=
  flat_map (fun c =>
              match c with
              | AddCmdOutput (OneCmd cmd) kwargs =>
                  match kw_suggest_filename kwargs with
                  | Some name => [(cmd, name)]
                  | None => []
                  end
              | _ => []
              end) calls.

(** The command line of a request of the dqlite plugin. *)
Definition cmd_line (a : action) : string :=
  match a with
  | CmdOutput cmd _ _ => cmd
  | _ => EmptyString
  end.

(** The text has no line boundary. *)
Definition inline (s : string) : bool := str_forallb (fun c => negb (is_linebreak c)) s.

(** A field: not empty, no whitespace. *)
Definition word (s : string) : bool :=
  negb (s =? EmptyString) && str_forallb (fun c => negb (is_space c)) s.

(** A row of the output of [docker network ls]: the network's id, blanks,
    its name, and the other columns. *)
Record network_row := {
  row_lead : string;
  row_id : string;
  row_gap : string;
  row_name : string;
  row_tail : string
}.

Definition row_text (r : network_row) : string :=
  row_lead r ++ row_id r ++ row_gap r ++ row_name r ++ row_tail r.

(** Blanks inside a line between the fields (at least one between the id
    and the name); the other columns start with a blank, if there are any. *)
Definition row_ok (r : network_row) : bool :=
  blank (row_lead r) && inline (row_lead r) && word (row_id r)
  && blank (row_gap r) && inline (row_gap r) && negb (row_gap r =? EmptyString)
  && word (row_name r)
  && inline (row_tail r) && stops (fun c => negb (is_space c)) (row_tail r).

Fixpoint rows_text (rows : list network_row) : string :=
  match rows with
  | [] => EmptyString
  | r :: rows' => row_text r ++ newline ++ rows_text rows'
  end.

(** The output of [docker network ls]: a header line, then the rows. *)
Definition network_ls (header : string) (rows : list network_row) : string :=
  header ++ newline ++ rows_text rows.

Definition network_request (net : string) : call :=
  AddCmdOutput (OneCmd ("docker network inspect " ++ net)) no_kwargs.

Definition sample_header : string := "NETWORK ID     NAME      DRIVER    SCOPE".
Definition sample_rows : list network_row :=
  [ {| row_lead := ""; row_id := "1f2a6b3c4d5e"; row_gap := "   "; row_name := "bridge";
       row_tail := "    bridge    local" |};
    {| row_lead := ""; row_id := "9a8b7c6d5e4f"; row_gap := "   "; row_name := "host";
       row_tail := "      host      local" |} ].
Definition sample_options : Docker.options :=
  {| Docker.opt_all := false; Docker.opt_logs := true; Docker.opt_size := false |}.

(** A credentials file whose first line is not a credentials line. *)
Definition kubeconfig_sample : string :=
  "apiVersion: v1" ++ newline ++
  "users:" ++ newline ++
  "- name: admin" ++ newline ++
  "  user:" ++ newline ++
  "    client-key-data: LS0tLS1CRUdJTg==" ++ newline.

Definition anchored_only : flags := {| ignorecase := true; multiline := false |}.

(** The keys of the command-output rule of the microk8s plugin, with
    their colon, and its template [\1 "**********"]. *)
Definition rsub_keys : list string := ["certificate-authority-data:"; "token:"].
Definition rsub_subst : list titem := [TGroup 1; TLit (" " ++ dq ++ "**********" ++ dq)].
Definition rsub_mask : string := " " ++ dq ++ "**********" ++ dq.


(** * Properties *)

(** ** Generic facts *)

Lemma str_in_In (x : string) (l : list string) : str_in x l = true <-> In x l.
Proof.
  unfold str_in. rewrite existsb_exists. split.
  - intros [y [Hy He]]. apply String.eqb_eq in He. now subst.
  - intros H. exists x. split; [assumption | apply String.eqb_refl].
Qed.

Lemma nodupb_NoDup (l : list string) : nodupb l = true <-> NoDup l.
Proof.
  induction l as [|x l IH]; simpl.
  - split; [constructor | reflexivity].
  - rewrite andb_true_iff, negb_true_iff, IH. split.
    + intros [Hx Hl]. constructor; [|assumption].
      intro Hin. apply str_in_In in Hin. congruence.
    + intros H. inversion H as [|? ? Hx Hl]; subst. split; [|assumption].
      destruct (str_in x l) eqn:E; [|reflexivity].
      apply str_in_In in E. contradiction.
Qed.

Lemma append_inj_l (a x y : string) : a ++ x = a ++ y -> x = y.
Proof.
  induction a as [|c a IH]; simpl; intros H; [assumption|].
  injection H as H. auto.
Qed.

Lemma append_assoc (a b c : string) : (a ++ b) ++ c = a ++ b ++ c.
Proof.
  induction a as [|x a IH]; simpl; [reflexivity | now rewrite IH].
Qed.

Lemma append_nil_r (a : string) : a ++ EmptyString = a.
Proof.
  induction a as [|x a IH]; simpl; [reflexivity | now rewrite IH].
Qed.

(** A loop whose body only asks one thing of the framework per element. *)
Lemma for_each_emit {A : Type} (l : list A) (g : A -> action) :
  for_each l (fun x => emit (g x)) = (Ok tt, map g l).
Proof.
  induction l as [|x l IH]; cbn [for_each]; [reflexivity|].
  rewrite IH. reflexivity.
Qed.

(** A loop whose body never raises. *)
Lemma for_each_ok {A : Type} (l : list A) (body : A -> M unit) :
  (forall x, fst (body x) = Ok tt) ->
  for_each l body = (Ok tt, flat_map (fun x => trace (body x)) l).
Proof.
  intros Hok. induction l as [|x l IH]; cbn [for_each flat_map]; [reflexivity|].
  rewrite IH. unfold bind, trace. specialize (Hok x).
  destruct (body x) as [r w]. simpl in *. subst r. reflexivity.
Qed.

(** ** The microk8s hook *)

Lemma for_each_ext {A : Type} (l : list A) (f g : A -> M unit) :
  (forall x, f x = g x) -> for_each l f = for_each l g.
Proof.
  intros E. induction l as [|x l IH]; cbn [for_each]; [reflexivity|].
  now rewrite E, IH.
Qed.

Lemma hook_loop (pkg : string) (cfg : BackendConfig) (l : list (string * string)) :
  for_each l
    (fun '(query, suggested_name) =>
       add_cmd_output (dqlite_cmd cfg ++ " " ++ query) suggested_name pkg) =
  (Ok tt, map (fun '(query, name) => CmdOutput (dqlite_cmd cfg ++ " " ++ query) name pkg) l).
Proof.
  rewrite <- for_each_emit. apply for_each_ext. intros [q n]. reflexivity.
Qed.

Lemma microk8s_collection_read (h : host) (pkg : string) (cfg : BackendConfig)
    (cluster : string) :
  read_text h (servers_path cfg) = ReadOk cluster ->
  microk8s_collection h pkg cfg =
  (Ok tt,
   CopySpec [client_config_path; db_path cfg ++ "/failure-domain"]
     :: hook_requests pkg cfg (findall no_flags address_re cluster)).
Proof.
  intros Hread. unfold microk8s_collection, open_read. rewrite Hread.
  cbn [try_except bind ret fst snd add_copy_spec emit app].
  rewrite hook_loop. reflexivity.
Qed.

Lemma microk8s_collection_unreadable (h : host) (pkg : string) (cfg : BackendConfig)
    (e : string) :
  read_text h (servers_path cfg) = ReadErr e ->
  microk8s_collection h pkg cfg =
  (Ok tt,
   CopySpec [client_config_path; db_path cfg ++ "/failure-domain"]
     :: Alert ("Failed to parse " ++ servers_path cfg ++ ": " ++ e)
     :: hook_requests pkg cfg []).
Proof.
  intros Hread. unfold microk8s_collection, open_read. rewrite Hread.
  cbn [try_except bind ret raise fst snd add_copy_spec add_alert emit app].
  rewrite hook_loop. reflexivity.
Qed.

Lemma hook_requests_split (pkg : string) (cfg : BackendConfig) (nodes : list string) :
  hook_requests pkg cfg nodes =
  (hook_requests pkg cfg [] ++
   map (fun node => CmdOutput (dqlite_cmd cfg ++ " " ++ describe_query node)
                              (describe_name pkg node) pkg) nodes)%list.
Proof.
  unfold hook_requests. cbn [fixed_queries map app combine].
  do 3 f_equal. induction nodes as [|n nodes IH]; cbn [map combine]; [reflexivity|].
  now rewrite IH.
Qed.

Lemma suggested_filenames_app (a b : list action) :
  suggested_filenames (a ++ b) = (suggested_filenames a ++ suggested_filenames b)%list.
Proof. unfold suggested_filenames. apply flat_map_app. Qed.

Lemma suggested_filenames_describe (pkg : string) (cfg : BackendConfig) (nodes : list string) :
  suggested_filenames
    (map (fun node => CmdOutput (dqlite_cmd cfg ++ " " ++ describe_query node)
                                (describe_name pkg node) pkg) nodes)
  = map (describe_name pkg) nodes.
Proof.
  unfold suggested_filenames.
  induction nodes as [|n nodes IH]; cbn [map flat_map app]; [reflexivity | now rewrite IH].
Qed.

Lemma describe_name_inj (pkg a b : string) : describe_name pkg a = describe_name pkg b -> a = b.
Proof.
  unfold describe_name. intros H. apply append_inj_l in H.
  now apply (append_inj_l "_dqlite_.describe_") in H.
Qed.

Lemma microk8s_registered : In ("microk8s", microk8s_cfg) packages.
Proof. simpl. right. right. right. left. reflexivity. Qed.

Lemma base_collection_microk8s (cfg : BackendConfig) :
  base_collection "microk8s" cfg =
  (Ok tt,
   [ DirListing (db_path cfg) "ls_microk8s_dqlite_dir" "microk8s";
     CopySpec [ db_path cfg ++ "/info.yaml"; db_path cfg ++ "/cluster.yaml";
                db_path cfg ++ "/../daemon.yaml" ] ]).
Proof. reflexivity. Qed.

(** The file names asked for in one run of the microk8s backend. *)
Lemma microk8s_filenames (h : host) :
  suggested_filenames (trace (collect_backend h "microk8s" microk8s_cfg)) =
  (microk8s_fixed_filenames
   ++ map (describe_name "microk8s") (peer_addresses h microk8s_cfg))%list.
Proof.
  unfold collect_backend, peer_addresses. rewrite base_collection_microk8s.
  cbn [collection microk8s_cfg run_hook].
  destruct (read_text h (servers_path _)) as [cluster|e] eqn:Hread.
  - rewrite (microk8s_collection_read h "microk8s" _ cluster Hread).
    rewrite hook_requests_split.
    cbn [bind trace snd app]. rewrite !app_comm_cons.
    rewrite suggested_filenames_app, suggested_filenames_describe.
    f_equal.
  - rewrite (microk8s_collection_unreadable h "microk8s" _ e Hread).
    cbn [map]. rewrite app_nil_r. reflexivity.
Qed.

Lemma describe_name_not_fixed (node : string) :
  ~ In (describe_name "microk8s" node) microk8s_fixed_filenames.
Proof.
  unfold describe_name, microk8s_fixed_filenames. simpl.
  intros [H | [H | [H | [H | []]]]]; discriminate H.
Qed.

Lemma NoDup_map_inj {A B : Type} (f : A -> B) (l : list A) :
  (forall a b, f a = f b -> a = b) -> NoDup l -> NoDup (map f l).
Proof.
  intros Hinj Hl. induction Hl as [|x l Hx Hl IH]; simpl; constructor; [|assumption].
  intros Hin. apply in_map_iff in Hin. destruct Hin as [y [E Hy]].
  apply Hinj in E. now subst.
Qed.

(** ** C1: uniqueness of the suggested file names of one backend's run *)

(** C1 (as amended).  For every backend of the registry and every host, the
    suggested file names asked for in one run of that backend (directory
    listing, socket and CLI queries of the base plan, and the queries of the
    extension hook) are pairwise distinct, provided that, for microk8s, the
    peer addresses found in the topology file are pairwise distinct. *)
Theorem filenames_unique_when_peers_distinct (h : host) (pkg : string) (cfg : BackendConfig) :
  In (pkg, cfg) packages ->
  (pkg = "microk8s" -> NoDup (peer_addresses h cfg)) ->
  NoDup (suggested_filenames (trace (collect_backend h pkg cfg))).
Proof.
  intros Hin Hpeers. simpl in Hin.
  destruct Hin as [E | [E | [E | [E | [E | []]]]]]; injection E as <- <-;
    try (apply nodupb_NoDup; vm_compute; reflexivity).
  fold microk8s_cfg in *. rewrite microk8s_filenames.
  specialize (Hpeers eq_refl).
  apply NoDup_app. repeat split.
  - apply nodupb_NoDup. reflexivity.
  - apply NoDup_map_inj; [|assumption].
    intros a b. apply describe_name_inj.
  - intros x Hfixed Hdesc. apply in_map_iff in Hdesc. destruct Hdesc as [n [<- _]].
    now apply describe_name_not_fixed in Hfixed.
Qed.

(** Witness: microk8s with the two distinct peers of [two_peers]. *)
Lemma filenames_unique_witness :
  NoDup (suggested_filenames
           (trace (collect_backend (host_with_topology two_peers) "microk8s" microk8s_cfg))).
Proof.
  apply (filenames_unique_when_peers_distinct (host_with_topology two_peers)
           "microk8s" microk8s_cfg).
  - apply microk8s_registered.
  - intros _. apply nodupb_NoDup. vm_compute. reflexivity.
Defined.

(** C1 as stated fails: a topology file that lists the same peer twice makes
    the microk8s hook ask for the same [.describe_] file name twice. *)
Lemma filenames_collide_on_repeated_peer :
  In ("microk8s", microk8s_cfg) packages /\
  ~ NoDup (suggested_filenames
             (trace (collect_backend (host_with_topology repeated_peer)
                       "microk8s" microk8s_cfg))).
Proof.
  split; [apply microk8s_registered|].
  intros H. apply nodupb_NoDup in H. vm_compute in H. discriminate H.
Qed.

(** Conversely, distinct file names in a microk8s run force distinct peers. *)
Lemma peers_distinct_when_filenames_unique (h : host) :
  NoDup (suggested_filenames (trace (collect_backend h "microk8s" microk8s_cfg))) ->
  NoDup (peer_addresses h microk8s_cfg).
Proof.
  rewrite microk8s_filenames. intros H.
  apply NoDup_app_remove_l in H. now apply NoDup_map_inv in H.
Qed.

(** ** The batch of queries *)

Lemma run_batch_trace (pkg : string) (cfg : BackendConfig) (queries tables : list string) :
  run_batch_dqlite_queries pkg cfg queries tables =
  (Ok tt, flat_map (batch_requests pkg cfg) (combine queries tables)).
Proof.
  unfold run_batch_dqlite_queries. rewrite for_each_ok.
  - f_equal. apply flat_map_ext. intros [q t].
    unfold batch_requests. cbn [fst snd]. destruct (truthy (sql_cmd cfg)); reflexivity.
  - intros [q t]. destruct (truthy (sql_cmd cfg)); reflexivity.
Qed.

Lemma base_collection_trace (pkg : string) (cfg : BackendConfig) :
  pkg <> "microk8s" ->
  base_collection pkg cfg =
  (Ok tt,
   DirListing (db_path cfg) ("ls_" ++ pkg ++ "_dqlite_dir") pkg
   :: CopySpec [ db_path cfg ++ "/info.yaml"; db_path cfg ++ "/cluster.yaml";
                 db_path cfg ++ "/../daemon.yaml" ]
   :: flat_map (batch_requests pkg cfg)
        (combine (fst (base_plan pkg)) (snd (base_plan pkg)))).
Proof.
  intros Hne. unfold base_collection.
  apply String.eqb_neq in Hne. 
  cbn [add_dir_listing add_copy_spec emit bind]. rewrite Hne.
  destruct (base_plan pkg) as [qs ts]. rewrite run_batch_trace. reflexivity.
Qed.

Lemma lxd_registered : In ("lxd", lxd_cfg) packages.
Proof. simpl. do 4 right. left. reflexivity. Qed.

Lemma cmd_requests_batch (pkg : string) (cfg : BackendConfig) (l : list (string * string)) :
  cmd_requests (flat_map (batch_requests pkg cfg) l) = flat_map (batch_requests pkg cfg) l.
Proof.
  unfold cmd_requests. induction l as [|qt l IH]; cbn [flat_map]; [reflexivity|].
  rewrite filter_app, IH. f_equal.
  unfold batch_requests. destruct (truthy (sql_cmd cfg)); reflexivity.
Qed.

Lemma base_plan_starts_with_schema (pkg : string) :
  exists qs ts, base_plan pkg = (schema_query :: qs, "schema" :: ts).
Proof.
  unfold base_plan, str_in. cbn [existsb orb].
  destruct (pkg =? "lxd"), (pkg =? "microcloud"), (pkg =? "microceph"), (pkg =? "microovn");
    cbn [orb negb app]; eauto.
Qed.

(** ** C2: which backends get the membership queries *)

(** C2 (as amended).  For every backend other than microk8s and lxd the base
    plan asks for the [token_records] and [core_cluster_members] queries;
    the plan of lxd is [schema] and [config] only; and the base collection
    asks for no query at all exactly when the backend is microk8s. *)
Theorem membership_queries_by_backend (pkg : string) (cfg : BackendConfig) :
  (pkg <> "microk8s" -> pkg <> "lxd" ->
   In (socket_request pkg cfg token_records_query "token_records")
      (trace (base_collection pkg cfg)) /\
   In (socket_request pkg cfg cluster_members_query "core_cluster_members")
      (trace (base_collection pkg cfg)))
  /\ (pkg = "lxd" ->
      cmd_requests (trace (base_collection pkg cfg)) =
      flat_map (batch_requests pkg cfg)
        [(schema_query, "schema"); (config_query, "config")])
  /\ (cmd_requests (trace (base_collection pkg cfg)) = [] <-> pkg = "microk8s").
Proof.
  split; [|split].
  - intros Hk8s Hlxd. rewrite (base_collection_trace pkg cfg Hk8s).
    apply String.eqb_neq in Hlxd.
    unfold trace, base_plan, str_in. cbn [existsb orb negb snd]. rewrite Hlxd.
    cbn [orb negb].
    destruct (pkg =? "microcloud"), (pkg =? "microceph"), (pkg =? "microovn");
      cbn [orb negb fst snd app combine flat_map batch_requests];
      destruct (truthy (sql_cmd cfg)); cbn [app In]; split; tauto.
  - intros ->. rewrite base_collection_trace by discriminate.
    unfold trace. cbn [snd base_plan fst combine app str_in existsb String.eqb
                        Ascii.eqb Bool.eqb orb negb cmd_requests filter].
    apply cmd_requests_batch.
  - split.
    + intros Hnone. destruct (String.eqb_spec pkg "microk8s") as [|Hne]; [assumption|].
      rewrite (base_collection_trace pkg cfg Hne) in Hnone.
      destruct (base_plan_starts_with_schema pkg) as [qs [ts E]]. rewrite E in Hnone.
      discriminate Hnone.
    + intros ->. reflexivity.
Qed.

(** C2 as stated fails for lxd: it is not microk8s, yet its plan has no
    [token_records] and no [core_cluster_members] query. *)
Lemma lxd_has_no_membership_queries :
  In ("lxd", lxd_cfg) packages /\ "lxd" <> "microk8s" /\
  suggested_filenames (trace (base_collection "lxd" lxd_cfg)) =
    [ "ls_lxd_dqlite_dir"; "lxd_dqlite_schema"; "lxd sql local_schema";
      "lxd_dqlite_config"; "lxd sql local_config" ] /\
  ~ In (socket_request "lxd" lxd_cfg token_records_query "token_records")
       (trace (base_collection "lxd" lxd_cfg)) /\
  ~ In (socket_request "lxd" lxd_cfg cluster_members_query "core_cluster_members")
       (trace (base_collection "lxd" lxd_cfg)).
Proof.
  split; [apply lxd_registered|]. split; [discriminate|]. split; [reflexivity|].
  split; vm_compute; intros H; repeat (destruct H as [H|H]; [discriminate H|]); exact H.
Qed.

(** ** C3: the payload of the socket transport *)

(** What [json.dumps] writes for the payload. *)
Lemma query_payload_wire (pkg query : string) :
  json_dumps (query_payload pkg query) =
  "{" ++ json_string "query" ++ ": " ++ json_string query ++
  (if pkg =? "lxd" then ", " ++ json_string "database" ++ ": " ++ json_string "local"
   else EmptyString) ++ "}".
Proof.
  unfold query_payload. destruct (pkg =? "lxd"); cbn [json_dumps].
  - rewrite !append_assoc. reflexivity.
  - rewrite !append_assoc. reflexivity.
Qed.

(** C3.  Every request that [run_batch_dqlite_queries] sends through the
    socket transport carries a JSON object whose members are exactly
    [query] (the query text) and, for lxd only, [database] with the value
    [local]; every other request of the batch is a CLI-wrapper request; and
    every query of the batch gets its socket request. *)
Theorem socket_payload_shape (pkg : string) (cfg : BackendConfig)
    (queries tables : list string) :
  Forall
    (fun a =>
       (exists query table members,
           In (query, table) (combine queries tables)
           /\ a = CmdOutput (curl_cmd cfg ++ " '" ++ json_dumps (JObj members) ++ "'")
                            (pkg ++ "_dqlite_" ++ table) pkg
           /\ JObj members = query_payload pkg query
           /\ ((pkg = "lxd" /\
                members = [("query", JStr query); ("database", JStr "local")])
               \/ (pkg <> "lxd" /\ members = [("query", JStr query)])))
       \/ (exists query table,
              In (query, table) (combine queries tables)
              /\ a = cli_request pkg (py_str (sql_cmd cfg)) query table))
    (trace (run_batch_dqlite_queries pkg cfg queries tables))
  /\ (forall query table,
         In (query, table) (combine queries tables) ->
         In (socket_request pkg cfg query table)
            (trace (run_batch_dqlite_queries pkg cfg queries tables))).
Proof.
  rewrite run_batch_trace. unfold trace. cbn [snd]. split.
  - apply Forall_forall. intros a Ha. apply in_flat_map in Ha.
    destruct Ha as [[q t] [Hqt Ha]]. unfold batch_requests in Ha. cbn [fst snd] in Ha.
    destruct Ha as [<- | Ha].
    + left. unfold socket_request, query_payload.
      destruct (String.eqb_spec pkg "lxd") as [E|E].
      * exists q, t, [("query", JStr q); ("database", JStr "local")]. auto 6.
      * exists q, t, [("query", JStr q)]. auto 6.
    + right. destruct (truthy (sql_cmd cfg)); [|contradiction].
      destruct Ha as [<- | []]. exists q, t. auto.
  - intros q t Hqt. apply in_flat_map. exists (q, t). split; [assumption|].
    left. reflexivity.
Qed.

(** ** C4: the suggested file names and the subdirectory *)

Lemma batch_requests_form (h : host) (pkg : string) (cfg : BackendConfig)
    (queries tables : list string) :
  incl (combine queries tables) query_tables ->
  Forall (query_result_form h pkg cfg)
    (flat_map (batch_requests pkg cfg) (combine queries tables)).
Proof.
  intros Hincl. apply Forall_forall. intros a Ha. apply in_flat_map in Ha.
  destruct Ha as [[q t] [Hqt Ha]]. apply Hincl in Hqt.
  unfold batch_requests in Ha. cbn [fst snd] in Ha. destruct Ha as [<- | Ha].
  - now apply socket_result.
  - destruct (truthy (sql_cmd cfg)) eqn:Hcli; [|contradiction].
    destruct Ha as [<- | []]. now apply cli_result.
Qed.

Lemma base_plan_tables (pkg : string) :
  incl (combine (fst (base_plan pkg)) (snd (base_plan pkg))) query_tables.
Proof.
  unfold base_plan, str_in. cbn [existsb orb].
  destruct (pkg =? "lxd"), (pkg =? "microcloud"), (pkg =? "microceph"), (pkg =? "microovn");
    cbn [orb negb app fst snd combine]; intros t Ht; simpl in *; tauto.
Qed.

Lemma base_collection_form (h : host) (pkg : string) (cfg : BackendConfig) :
  Forall (query_result_form h pkg cfg) (cmd_requests (trace (base_collection pkg cfg))).
Proof.
  destruct (String.eqb_spec pkg "microk8s") as [->|Hne].
  - rewrite base_collection_microk8s. constructor.
  - rewrite (base_collection_trace pkg cfg Hne). unfold trace.
    cbn [snd cmd_requests filter]. fold (cmd_requests (flat_map (batch_requests pkg cfg)
      (combine (fst (base_plan pkg)) (snd (base_plan pkg))))).
    rewrite cmd_requests_batch. apply batch_requests_form, base_plan_tables.
Qed.

Lemma hook_requests_form (h : host) (pkg : string) (cfg : BackendConfig) (nodes : list string) :
  collection cfg = microk8s_hook ->
  incl nodes (peer_addresses h cfg) ->
  Forall (query_result_form h pkg cfg) (hook_requests pkg cfg nodes).
Proof.
  intros Hhook Hincl. rewrite hook_requests_split. apply Forall_app. split.
  - unfold hook_requests. cbn [fixed_queries map app combine].
    repeat (apply Forall_cons; [apply hook_query_result; [exact Hhook | simpl; tauto]|]).
    apply Forall_nil.
  - apply Forall_forall. intros a Ha. apply in_map_iff in Ha.
    destruct Ha as [node [<- Hnode]]. apply hook_peer_result; auto.
Qed.

Lemma cmd_requests_hook (pkg : string) (cfg : BackendConfig) (nodes : list string) :
  cmd_requests (hook_requests pkg cfg nodes) = hook_requests pkg cfg nodes.
Proof.
  unfold hook_requests, cmd_requests.
  induction (combine _ _) as [|[q n] l IH]; cbn [map filter]; [reflexivity|].
  now rewrite IH.
Qed.

Lemma run_hook_form (h : host) (pkg : string) (cfg : BackendConfig) :
  Forall (query_result_form h pkg cfg)
    (cmd_requests (trace (run_hook h (collection cfg) pkg cfg))).
Proof.
  destruct (collection cfg) eqn:Hhook; cbn [run_hook]; try (constructor; fail).
  - unfold microceph_collection. rewrite run_batch_trace. unfold trace. cbn [snd].
    rewrite cmd_requests_batch. apply batch_requests_form.
    intros t Ht. simpl in *. tauto.
  - destruct (read_text h (servers_path cfg)) as [cluster|e] eqn:Hread.
    + rewrite (microk8s_collection_read h pkg cfg cluster Hread). unfold trace.
      cbn [snd cmd_requests filter]. fold (cmd_requests (hook_requests pkg cfg
        (findall no_flags address_re cluster))). rewrite cmd_requests_hook.
      apply hook_requests_form; [assumption|].
      unfold peer_addresses. rewrite Hread. apply incl_refl.
    + rewrite (microk8s_collection_unreadable h pkg cfg e Hread). unfold trace.
      cbn [snd cmd_requests filter]. fold (cmd_requests (hook_requests pkg cfg [])).
      rewrite cmd_requests_hook.
      apply hook_requests_form; [assumption|]. intros x [].
Qed.

Lemma collect_backend_trace (h : host) (pkg : string) (cfg : BackendConfig) :
  fst (base_collection pkg cfg) = Ok tt ->
  trace (collect_backend h pkg cfg) =
  (trace (base_collection pkg cfg) ++ trace (run_hook h (collection cfg) pkg cfg))%list.
Proof.
  unfold collect_backend, bind, trace. destruct (base_collection pkg cfg) as [r w].
  cbn [fst snd]. intros ->. destruct (run_hook _ _ _ _). reflexivity.
Qed.

Lemma base_collection_returns (pkg : string) (cfg : BackendConfig) :
  fst (base_collection pkg cfg) = Ok tt.
Proof.
  destruct (String.eqb_spec pkg "microk8s") as [->|Hne].
  - reflexivity.
  - now rewrite (base_collection_trace pkg cfg Hne).
Qed.

(** C4 (as amended).  Every query result asked for in one run of a backend
    goes to the subdirectory named after the backend, and its suggested
    file name goes with its transport: a socket request (the [curl] command
    with the JSON payload of a query) is named [<backend>_dqlite_<table>],
    a CLI request (the wrapper with the quoted query) is named
    [<sql_cmd>_<table>] (no [_dqlite_] part), in both cases with the table
    of that query; a fixed query of the microk8s hook is named
    [<backend>_dqlite_<query text>] (the query text with its quotes and
    options), and the [.describe] query of a peer is named
    [<backend>_dqlite_.describe_<address>], with the address of that peer. *)
Theorem suggested_names_by_transport (h : host) (pkg : string) (cfg : BackendConfig) :
  Forall (query_result_form h pkg cfg)
    (cmd_requests (trace (collect_backend h pkg cfg))).
Proof.
  rewrite collect_backend_trace by apply base_collection_returns.
  unfold cmd_requests. rewrite filter_app. apply Forall_app. split.
  - apply base_collection_form.
  - apply run_hook_form.
Qed.

Lemma strip_prefix_app (p s : string) : strip_prefix p (p ++ s) = Some s.
Proof.
  induction p as [|a p IH]; simpl; [reflexivity|]. now rewrite Ascii.eqb_refl.
Qed.

Lemma splits_at_complete (sep prefix rest : string) :
  In (prefix, rest) (splits_at sep (prefix ++ sep ++ rest)).
Proof.
  induction prefix as [|c prefix IH].
  - cbn [append]. destruct (sep ++ rest) eqn:E; cbn [splits_at];
      rewrite <- E, strip_prefix_app; left; reflexivity.
  - cbn [append splits_at]. apply in_or_app. right.
    apply in_map_iff. exists (prefix, rest). split; [reflexivity | exact IH].
Qed.

Lemma microceph_registered : In ("microceph", microceph_cfg) packages.
Proof. simpl. left. reflexivity. Qed.

(** C4 as stated fails: the CLI wrapper's file names have no [_dqlite_]
    part, and the names of the fixed microk8s queries carry the query text
    with its quotes, which is none of the claimed labels. *)
Lemma suggested_names_not_as_claimed :
  (In ("microceph", microceph_cfg) packages /\
   In "microceph cluster sql_schema"
      (suggested_filenames
         (trace (collect_backend (host_with_topology two_peers) "microceph" microceph_cfg))) /\
   ~ claimed_name_form "microceph cluster sql_schema")
  /\
  (In ("microk8s", microk8s_cfg) packages /\
   In cluster_status_name
      (suggested_filenames
         (trace (collect_backend (host_with_topology two_peers) "microk8s" microk8s_cfg))) /\
   ~ claimed_name_form cluster_status_name).
Proof.
  split; (split; [first [apply microceph_registered | apply microk8s_registered]|]);
    (split; [vm_compute; tauto|]).
  - intros [prefix [label [E _]]].
    pose proof (splits_at_complete "_dqlite_" prefix label) as S.
    rewrite <- E in S. vm_compute in S. exact S.
  - intros [prefix [label [E H]]].
    pose proof (splits_at_complete "_dqlite_" prefix label) as S.
    rewrite <- E in S. vm_compute in S. destruct S as [S | []].
    injection S as <- <-. destruct H as [H | [addr H]].
    + simpl in H. repeat (destruct H as [H | H]; [discriminate H|]). exact H.
    + discriminate H.
Qed.

(** ** C8: two peers in the topology file *)

(** C8.  When the topology file consists of the two lines
    [Address: 10.0.0.1:7000] and [Address: 10.0.0.2:7000] (the last line
    terminated or not), the microk8s hook asks for exactly five commands:
    the two cluster-status queries, the leader query, and one [.describe]
    query per peer, for 10.0.0.1:7000 first and 10.0.0.2:7000 second. *)
Theorem two_peers_two_describe_queries (h : host) (pkg : string) (cfg : BackendConfig)
    (cluster : string) :
  read_text h (servers_path cfg) = ReadOk cluster ->
  cluster = two_peers \/ cluster = two_peers_unterminated ->
  cmd_requests (trace (microk8s_collection h pkg cfg)) =
  [ hook_request pkg cfg (dq ++ ".cluster" ++ dq) (dq ++ ".cluster" ++ dq);
    hook_request pkg cfg (dq ++ ".cluster" ++ dq ++ " -f json")
                         (dq ++ ".cluster" ++ dq ++ " -f json");
    hook_request pkg cfg (dq ++ ".leader" ++ dq) (dq ++ ".leader" ++ dq);
    hook_request pkg cfg (dq ++ ".describe 10.0.0.1:7000" ++ dq ++ " -f json")
                         ".describe_10.0.0.1:7000";
    hook_request pkg cfg (dq ++ ".describe 10.0.0.2:7000" ++ dq ++ " -f json")
                         ".describe_10.0.0.2:7000" ].
Proof.
  intros Hread Hcluster. rewrite (microk8s_collection_read h pkg cfg cluster Hread).
  unfold trace. cbn [snd cmd_requests filter].
  fold (cmd_requests (hook_requests pkg cfg (findall no_flags address_re cluster))).
  rewrite cmd_requests_hook.
  assert (Hnodes : findall no_flags address_re cluster = ["10.0.0.1:7000"; "10.0.0.2:7000"]).
  { destruct Hcluster as [-> | ->]; vm_compute; reflexivity. }
  rewrite Hnodes. reflexivity.
Qed.

Lemma two_peers_witness :
  cmd_requests (trace (microk8s_collection (host_with_topology two_peers)
                         "microk8s" microk8s_cfg)) =
  [ hook_request "microk8s" microk8s_cfg (dq ++ ".cluster" ++ dq) (dq ++ ".cluster" ++ dq);
    hook_request "microk8s" microk8s_cfg (dq ++ ".cluster" ++ dq ++ " -f json")
                         (dq ++ ".cluster" ++ dq ++ " -f json");
    hook_request "microk8s" microk8s_cfg (dq ++ ".leader" ++ dq) (dq ++ ".leader" ++ dq);
    hook_request "microk8s" microk8s_cfg
                 (dq ++ ".describe 10.0.0.1:7000" ++ dq ++ " -f json")
                 ".describe_10.0.0.1:7000";
    hook_request "microk8s" microk8s_cfg
                 (dq ++ ".describe 10.0.0.2:7000" ++ dq ++ " -f json")
                 ".describe_10.0.0.2:7000" ].
Proof.
  apply (two_peers_two_describe_queries (host_with_topology two_peers)
           "microk8s" microk8s_cfg two_peers).
  - reflexivity.
  - left. reflexivity.
Defined.

(** ** C9: a topology file that cannot be read, or holds no address *)

(** C9 (as amended).  When reading the topology file raises, the microk8s
    hook returns normally; it has recorded one alert that names the file
    and carries the exception's message, and asks exactly for the three
    fixed queries.  When the file is read, the hook returns normally and
    records no alert, whatever the file holds; if no peer address is found
    in it, the hook asks exactly for the three fixed queries. *)
Theorem topology_failure_degrades (h : host) (pkg : string) (cfg : BackendConfig) :
  match read_text h (servers_path cfg) with
  | ReadErr e =>
      microk8s_collection h pkg cfg =
      (Ok tt,
       [ CopySpec [client_config_path; db_path cfg ++ "/failure-domain"];
         Alert ("Failed to parse " ++ servers_path cfg ++ ": " ++ e);
         hook_request pkg cfg (dq ++ ".cluster" ++ dq) (dq ++ ".cluster" ++ dq);
         hook_request pkg cfg (dq ++ ".cluster" ++ dq ++ " -f json")
                              (dq ++ ".cluster" ++ dq ++ " -f json");
         hook_request pkg cfg (dq ++ ".leader" ++ dq) (dq ++ ".leader" ++ dq) ])
  | ReadOk cluster =>
      fst (microk8s_collection h pkg cfg) = Ok tt
      /\ (forall msg, ~ In (Alert msg) (trace (microk8s_collection h pkg cfg)))
      /\ (findall no_flags address_re cluster = [] ->
          microk8s_collection h pkg cfg =
          (Ok tt,
           [ CopySpec [client_config_path; db_path cfg ++ "/failure-domain"];
             hook_request pkg cfg (dq ++ ".cluster" ++ dq) (dq ++ ".cluster" ++ dq);
             hook_request pkg cfg (dq ++ ".cluster" ++ dq ++ " -f json")
                                  (dq ++ ".cluster" ++ dq ++ " -f json");
             hook_request pkg cfg (dq ++ ".leader" ++ dq) (dq ++ ".leader" ++ dq) ]))
  end.
Proof.
  destruct (read_text h (servers_path cfg)) as [cluster|e] eqn:Hread.
  - rewrite (microk8s_collection_read h pkg cfg cluster Hread).
    split; [reflexivity|]. split.
    + intros msg. unfold trace. cbn [snd]. intros [H | H]; [discriminate H|].
      unfold hook_requests in H. apply in_map_iff in H.
      destruct H as [[query name] [H _]]. discriminate H.
    + intros ->. reflexivity.
  - rewrite (microk8s_collection_unreadable h pkg cfg e Hread). reflexivity.
Qed.

Lemma unreadable_topology_witness :
  microk8s_collection (host_without_topology no_such_file) "microk8s" microk8s_cfg =
  (Ok tt,
   [ CopySpec [client_config_path; db_path microk8s_cfg ++ "/failure-domain"];
     Alert ("Failed to parse " ++ servers_path microk8s_cfg ++ ": " ++ no_such_file);
     hook_request "microk8s" microk8s_cfg (dq ++ ".cluster" ++ dq) (dq ++ ".cluster" ++ dq);
     hook_request "microk8s" microk8s_cfg (dq ++ ".cluster" ++ dq ++ " -f json")
                          (dq ++ ".cluster" ++ dq ++ " -f json");
     hook_request "microk8s" microk8s_cfg (dq ++ ".leader" ++ dq) (dq ++ ".leader" ++ dq) ]).
Proof.
  exact (topology_failure_degrades (host_without_topology no_such_file)
           "microk8s" microk8s_cfg).
Defined.

(** C9 as stated fails for a file that can be read and cannot be parsed:
    [re.findall] raises on no text, so nothing is caught and no alert is
    recorded; the hook asks for the three fixed queries only. *)
Lemma unparsable_topology_no_alert :
  microk8s_collection (host_with_topology unparsable_topology) "microk8s" microk8s_cfg =
  (Ok tt,
   [ CopySpec [client_config_path; db_path microk8s_cfg ++ "/failure-domain"];
     hook_request "microk8s" microk8s_cfg (dq ++ ".cluster" ++ dq) (dq ++ ".cluster" ++ dq);
     hook_request "microk8s" microk8s_cfg (dq ++ ".cluster" ++ dq ++ " -f json")
                          (dq ++ ".cluster" ++ dq ++ " -f json");
     hook_request "microk8s" microk8s_cfg (dq ++ ".leader" ++ dq) (dq ++ ".leader" ++ dq) ])
  /\ forallb (fun a => match a with Alert _ => false | _ => true end)
       (trace (microk8s_collection (host_with_topology unparsable_topology)
                 "microk8s" microk8s_cfg)) = true.
Proof. split; reflexivity. Qed.

(** The whole [setup] never raises, whatever the host. *)
Lemma setup_returns (h : host) : fst (setup h) = Ok tt.
Proof.
  unfold setup. rewrite for_each_ok; [reflexivity|].
  intros [pkg cfg]. destruct (is_installed h pkg); [|reflexivity].
  unfold collect_backend, bind.
  pose proof (base_collection_returns pkg cfg) as Hb.
  destruct (base_collection pkg cfg) as [r w]. cbn [fst] in Hb. subst r.
  destruct (collection cfg); cbn [run_hook];
    try (unfold microceph_collection; rewrite run_batch_trace); try reflexivity.
  destruct (read_text h (servers_path cfg)) as [cluster|e] eqn:Hread.
  - now rewrite (microk8s_collection_read h pkg cfg cluster Hread).
  - now rewrite (microk8s_collection_unreadable h pkg cfg e Hread).
Qed.

(** ** C10: the CLI wrapper does not depend on the socket transport *)




(** In that run the socket result has status 7 and the CLI result is there. *)
Example socket_down_run :
  map (fun r => (res_filename r, res_status r, res_output r))
      (collect socket_down
         (trace (run_batch_dqlite_queries "microceph" microceph_cfg
                   [schema_query] ["schema"]))) =
  [ ("microceph_dqlite_schema", 7, EmptyString);
    ("microceph cluster sql_schema", 0, "rows") ].
Proof. reflexivity. Qed.

(** ** Facts about strings and the matcher *)

Lemma length_append (a b : string) :
  String.length (a ++ b) = String.length a + String.length b.
Proof. induction a as [|c a IH]; simpl; [reflexivity | now rewrite IH]. Qed.

Lemma substring_prefix (a b : string) : substring 0 (String.length a) (a ++ b) = a.
Proof.
  induction a as [|c a IH]; simpl.
  - destruct b; reflexivity.
  - now rewrite IH.
Qed.

Lemma consumed_app (u s : string) : consumed (u ++ s) s = u.
Proof.
  unfold consumed. rewrite length_append.
  replace (String.length u + String.length s - String.length s) with (String.length u) by lia.
  apply substring_prefix.
Qed.

Lemma last_char_app (a b : string) (d : option ascii) :
  last_char (a ++ b) d = last_char b (last_char a d).
Proof. revert d. induction a as [|c a IH]; intros d; simpl; [reflexivity | apply IH]. Qed.

Lemma str_forallb_app (p : ascii -> bool) (a b : string) :
  str_forallb p (a ++ b) = str_forallb p a && str_forallb p b.
Proof.
  induction a as [|c a IH]; simpl; [reflexivity|]. now rewrite IH, andb_assoc.
Qed.

Lemma chr_eq_refl (fl : flags) (c : ascii) : chr_eq fl c c = true.
Proof. unfold chr_eq. now rewrite Ascii.eqb_refl. Qed.

Lemma match_lit_app (fl : flags) (lit : string) (prev : option ascii) (rest : string) :
  match_lit fl lit prev (lit ++ rest) = Some (last_char lit prev, rest).
Proof.
  revert prev. induction lit as [|a lit IH]; intros prev; simpl; [reflexivity|].
  rewrite chr_eq_refl. apply IH.
Qed.

Lemma star_greedy_run {A : Type} (p : ascii -> bool)
    (k : option ascii -> string -> option A) (prev : option ascii)
    (run rest : string) (x : A) :
  str_forallb p run = true ->
  stops p rest = true ->
  k (last_char run prev) rest = Some x ->
  star_greedy p k prev (run ++ rest) = Some x.
Proof.
  revert prev. induction run as [|c run IH]; intros prev Hrun Hstop Hk.
  - cbn [append last_char] in *. destruct rest as [|c rest]; cbn [star_greedy].
    + assumption.
    + cbn [stops] in Hstop. apply negb_true_iff in Hstop. now rewrite Hstop.
  - cbn [str_forallb] in Hrun. apply andb_true_iff in Hrun. destruct Hrun as [Hc Hrun].
    cbn [append star_greedy]. rewrite Hc. cbn [last_char] in Hk.
    now rewrite (IH (Some c) Hrun Hstop Hk).
Qed.

(** Steps of the matcher, one per construct. *)

Lemma rmatch_lit (fl : flags) (lit : string) (k : mstate -> option mstate)
    (st : mstate) (rest : string) (x : option mstate) :
  st_rest st = lit ++ rest ->
  k (move st (last_char lit (st_prev st)) rest) = x ->
  rmatch fl (RLit lit) k st = x.
Proof.
  intros Hrest Hk. cbn [rmatch]. rewrite Hrest, match_lit_app. exact Hk.
Qed.

Lemma rmatch_star_greedy (fl : flags) (cs : cset) (k : mstate -> option mstate)
    (st : mstate) (run rest : string) (x : mstate) :
  st_rest st = run ++ rest ->
  str_forallb (in_cset cs) run = true ->
  stops (in_cset cs) rest = true ->
  k (move st (last_char run (st_prev st)) rest) = Some x ->
  rmatch fl (RStar true cs) k st = Some x.
Proof.
  intros Hrest Hrun Hstop Hk. cbn [rmatch]. rewrite Hrest.
  now apply star_greedy_run.
Qed.

Lemma rmatch_alt_l (fl : flags) (r1 r2 : regex) (k : mstate -> option mstate)
    (st x : mstate) :
  rmatch fl r1 k st = Some x -> rmatch fl (RAlt r1 r2) k st = Some x.
Proof. intros H. cbn [rmatch]. now rewrite H. Qed.

Lemma rmatch_alt_r (fl : flags) (r1 r2 : regex) (k : mstate -> option mstate)
    (st : mstate) (x : option mstate) :
  rmatch fl r1 k st = None -> rmatch fl r2 k st = x -> rmatch fl (RAlt r1 r2) k st = x.
Proof. intros H1 H2. cbn [rmatch]. now rewrite H1. Qed.

(** Steps of the substitution loop. *)

Lemma sub_from_skip (fl : flags) (r : regex) (tpl : list titem)
    (m rest : string) (prev : option ascii) :
  sub_from fl r tpl prev (String.length m) (m ++ rest) =
  sub_from fl r tpl (last_char m prev) 0 rest.
Proof.
  revert prev. induction m as [|c m IH]; intros prev.
  - reflexivity.
  - cbn [String.length append last_char sub_from]. apply IH.
Qed.

Lemma sub_from_step (fl : flags) (r : regex) (tpl : list titem)
    (prev : option ascii) (c : ascii) (s' : string) :
  sub_from fl r tpl prev 0 (String c s') =
  match match_here fl r prev false (String c s') with
  | None => String c (sub_from fl r tpl (Some c) 0 s')
  | Some st1 =>
      expand tpl (st_caps st1) ++
      match String.length (String c s') - String.length (st_rest st1) with
      | S n => sub_from fl r tpl (Some c) n s'
      | 0 =>
          match match_here fl r prev true (String c s') with
          | Some st2 =>
              expand tpl (st_caps st2) ++
              sub_from fl r tpl (Some c)
                (String.length (String c s') - String.length (st_rest st2) - 1) s'
          | None => String c (sub_from fl r tpl (Some c) 0 s')
          end
      end
  end.
Proof. reflexivity. Qed.

(** A match of the non-empty text [m] at the current position is replaced
    and the scan goes on after it. *)
Lemma sub_from_match (fl : flags) (r : regex) (tpl : list titem)
    (prev : option ascii) (s m rest : string) (st1 : mstate) :
  s = m ++ rest ->
  m <> EmptyString ->
  match_here fl r prev false s = Some st1 ->
  st_rest st1 = rest ->
  sub_from fl r tpl prev 0 s =
  expand tpl (st_caps st1) ++ sub_from fl r tpl (last_char m prev) 0 rest.
Proof.
  intros -> Hm Hmatch Hrest. destruct m as [|c m]; [contradiction|].
  cbn [append]. rewrite sub_from_step. cbn [append] in Hmatch. rewrite Hmatch, Hrest.
  cbn [String.length]. rewrite length_append.
  replace (S (String.length m + String.length rest) - String.length rest)
    with (S (String.length m)) by lia.
  rewrite sub_from_skip. reflexivity.
Qed.

(** No match at the current position: the character is copied. *)
Lemma sub_from_copy (fl : flags) (r : regex) (tpl : list titem)
    (prev : option ascii) (c : ascii) (s' : string) :
  match_here fl r prev false (String c s') = None ->
  sub_from fl r tpl prev 0 (String c s') = String c (sub_from fl r tpl (Some c) 0 s').
Proof. intros H. rewrite sub_from_step. now rewrite H. Qed.

Lemma sub_from_end (fl : flags) (r : regex) (tpl : list titem) (prev : option ascii) :
  match_here fl r prev false EmptyString = None ->
  sub_from fl r tpl prev 0 EmptyString = EmptyString.
Proof. intros H. cbn [sub_from]. now rewrite H. Qed.

(** ** C5: the credentials-file rule of the dqlite plugin *)

Lemma rmatch_seq (fl : flags) (r1 r2 : regex) (k : mstate -> option mstate) (st : mstate) :
  rmatch fl (RSeq r1 r2) k st = rmatch fl r1 (rmatch fl r2 k) st.
Proof. reflexivity. Qed.

Lemma rmatch_group (fl : flags) (n : nat) (r : regex) (k : mstate -> option mstate)
    (st : mstate) :
  rmatch fl (RGroup n r) k st =
  rmatch fl r
    (fun st' => k {| st_prev := st_prev st'; st_rest := st_rest st';
                     st_caps := (n, consumed (st_rest st) (st_rest st')) :: st_caps st' |})
    st.
Proof. reflexivity. Qed.


Lemma rmatch_bol (fl : flags) (k : mstate -> option mstate) (st : mstate) :
  rmatch fl RBol k st = if at_bol fl (st_prev st) then k st else None.
Proof. reflexivity. Qed.

Lemma rmatch_set (fl : flags) (cs : cset) (k : mstate -> option mstate) (st : mstate)
    (c : ascii) (s' : string) :
  st_rest st = String c s' ->
  in_cset cs c = true ->
  rmatch fl (RSet cs) k st = k (move st (Some c) s').
Proof. intros Hrest Hc. cbn [rmatch]. now rewrite Hrest, Hc. Qed.

Lemma rmatch_lit_fails (fl : flags) (lit : string) (k : mstate -> option mstate)
    (st : mstate) :
  match_lit fl lit (st_prev st) (st_rest st) = None ->
  rmatch fl (RLit lit) k st = None.
Proof. intros H. cbn [rmatch]. now rewrite H. Qed.






Ltac mstep := cbn [move st_prev st_rest st_caps].

Lemma consumed_all (s : string) : consumed s EmptyString = s.
Proof. rewrite <- (append_nil_r s) at 1. apply consumed_app. Qed.








(** The sibling rule of the microk8s plugin (template without the blank)
    gives the same text on a second run of this file. *)
Example microk8s_rule_stable :
  Forall
    (fun fl =>
       Microk8s.postproc fl (Microk8s.postproc fl [client_config "client-key-data: abc"])
       = Microk8s.postproc fl [client_config "client-key-data: abc"]
       /\ Microk8s.postproc fl [client_config "client-key-data: abc"]
          = [client_config "client-key-data: *********"])
    all_flag_settings.
Proof. repeat constructor. Qed.

(** ** Patterns anchored at the start of the text *)

Lemma at_bol_inside (fl : flags) (c : ascii) :
  multiline fl = false -> at_bol fl (Some c) = false.
Proof. intro H. cbn [at_bol]. now rewrite H. Qed.

(** Past the first character of the text, a pattern anchored with [^]
    matches nowhere when lines are not anchors. *)
Lemma anchored_rules_inside (fl : flags) (c : ascii) (must_advance : bool) (s : string) :
  multiline fl = false ->
  match_here fl dqlite.regexp (Some c) must_advance s = None
  /\ match_here fl Microk8s.key_regex (Some c) must_advance s = None
  /\ match_here fl CephCommon.regex (Some c) must_advance s = None.
Proof.
  intro Hml. unfold match_here, dqlite.regexp, Microk8s.key_regex, CephCommon.regex.
  cbn [RSeqs]. repeat split.
  - rewrite rmatch_seq, rmatch_bol. cbn [st_prev]. now rewrite (at_bol_inside fl c Hml).
  - rewrite rmatch_seq, rmatch_group, rmatch_seq, rmatch_bol. cbn [st_prev].
    now rewrite (at_bol_inside fl c Hml).
  - rewrite rmatch_seq, rmatch_group, rmatch_seq, rmatch_bol. cbn [st_prev].
    now rewrite (at_bol_inside fl c Hml).
Qed.

Lemma sub_from_no_match_inside (fl : flags) (r : regex) (tpl : list titem) :
  (forall c must_advance s, match_here fl r (Some c) must_advance s = None) ->
  forall s c, sub_from fl r tpl (Some c) 0 s = s.
Proof.
  intro Hnone. induction s as [|c' s IH]; intro c.
  - cbn [sub_from]. now rewrite Hnone.
  - rewrite sub_from_copy by apply Hnone. now rewrite IH.
Qed.

Lemma sub_only_at_start (fl : flags) (r : regex) (tpl : list titem) (text : string) :
  (forall c must_advance s, match_here fl r (Some c) must_advance s = None) ->
  match_here fl r None false text = None ->
  Re.sub fl r tpl text = text.
Proof.
  intros Hnone Hstart. unfold Re.sub. destruct text as [|c s].
  - cbn [sub_from]. now rewrite Hstart.
  - rewrite sub_from_copy by exact Hstart.
    now rewrite (sub_from_no_match_inside fl r tpl Hnone).
Qed.

(** ** C7: the keystone password of the ceph configuration *)

Lemma match_lit_prev (fl : flags) (lit : string) (p1 p2 : option ascii) (s : string) :
  match_lit fl lit p1 s = None -> match_lit fl lit p2 s = None.
Proof.
  revert p1 p2 s. induction lit as [|a lit IH]; intros p1 p2 s; cbn [match_lit].
  - discriminate.
  - destruct s as [|c s]; [reflexivity|]. destruct (chr_eq fl a c); [apply IH | reflexivity].
Qed.










(** The sample file after redaction. *)
Example ceph_conf_sample_redacted :
  CephCommon.postproc multiline_only ceph_conf_sample =
  [ ceph_conf ("[global]" ++ newline ++ keystone_masked ++ newline ++ "fsid = 1" ++ newline) ].
Proof. reflexivity. Qed.

(** Without MULTILINE the sample file is kept as collected. *)
Example ceph_conf_sample_kept :
  CephCommon.postproc no_flags ceph_conf_sample = ceph_conf_sample
  /\ CephCommon.postproc {| ignorecase := true; multiline := false |} ceph_conf_sample
     = ceph_conf_sample.
Proof. split; reflexivity. Qed.


(** ** Tokens with a keyword in their name *)


Lemma ascii_in_spec (lo hi : nat) (c : ascii) :
  ascii_in lo hi c = true <-> lo <= nat_of_ascii c <= hi.
Proof.
  unfold ascii_in. rewrite andb_true_iff, !Nat.leb_le. reflexivity.
Qed.




Lemma no_char_app (c0 : ascii) (a b : string) :
  no_char c0 (a ++ b) = no_char c0 a && no_char c0 b.
Proof. apply str_forallb_app. Qed.



Lemma rmatch_lit_eq (fl : flags) (lit : string) (k : mstate -> option mstate) (st : mstate) :
  rmatch fl (RLit lit) k st =
  match match_lit fl lit (st_prev st) (st_rest st) with
  | Some (p, s) => k (move st p s)
  | None => None
  end.
Proof. reflexivity. Qed.






Section EnvToken.

Variable fl : flags.

Variables value post : string.

Hypothesis value_no_quote : no_char dquote value = true.

Hypothesis value_one_line : str_forallb (in_cset CDot) value = true.


End EnvToken.




Lemma env_no_match_at_end (fl : flags) (prev : option ascii) :
  match_here fl Docker.env_regexp prev false EmptyString = None.
Proof. destruct fl as [[] ml]; reflexivity. Qed.


(** ** Patterns that cannot read a newline *)

Lemma star_greedy_ext {A : Type} (p : ascii -> bool)
    (k1 k2 : option ascii -> string -> option A) (prev : option ascii) (s : string) :
  (forall q t, k1 q t = k2 q t) -> star_greedy p k1 prev s = star_greedy p k2 prev s.
Proof.
  intros E. revert prev. induction s as [|c s IH]; intros prev; cbn [star_greedy].
  - apply E.
  - rewrite IH, E. reflexivity.
Qed.

Lemma star_lazy_ext {A : Type} (p : ascii -> bool)
    (k1 k2 : option ascii -> string -> option A) (prev : option ascii) (s : string) :
  (forall q t, k1 q t = k2 q t) -> star_lazy p k1 prev s = star_lazy p k2 prev s.
Proof.
  intros E. revert prev. induction s as [|c s IH]; intros prev; cbn [star_lazy].
  - now rewrite E.
  - rewrite IH, E. reflexivity.
Qed.

(** The matcher only looks at what its continuation returns. *)
Lemma rmatch_ext (fl : flags) (r : regex) (k1 k2 : mstate -> option mstate) (st : mstate) :
  (forall st', k1 st' = k2 st') -> rmatch fl r k1 st = rmatch fl r k2 st.
Proof.
  revert k1 k2 st. induction r as [| lit | cs | greedy cs | r1 IH1 r2 IH2 | r1 IH1 r2 IH2
                                   | n r IH |]; intros k1 k2 st E; cbn [rmatch].
  - apply E.
  - destruct (match_lit fl lit (st_prev st) (st_rest st)) as [[p s]|]; [apply E | reflexivity].
  - destruct (st_rest st) as [|c s]; [reflexivity|].
    destruct (in_cset cs c); [apply E | reflexivity].
  - destruct greedy; [apply star_greedy_ext | apply star_lazy_ext]; intros q t; apply E.
  - apply IH1. intros st'. now apply IH2.
  - rewrite (IH1 k1 k2 st E), (IH2 k1 k2 st E). reflexivity.
  - apply IH. intros st'. apply E.
  - destruct (at_bol fl (st_prev st)); [apply E | reflexivity].
Qed.

Lemma star_greedy_map {A B : Type} (f : A -> B) (p : ascii -> bool)
    (k : option ascii -> string -> option A) (prev : option ascii) (s : string) :
  star_greedy p (fun q t => option_map f (k q t)) prev s =
  option_map f (star_greedy p k prev s).
Proof.
  revert prev. induction s as [|c s IH]; intros prev; cbn [star_greedy].
  - reflexivity.
  - destruct (p c); [|reflexivity]. rewrite IH.
    destruct (star_greedy p k (Some c) s); reflexivity.
Qed.

Lemma star_lazy_map {A B : Type} (f : A -> B) (p : ascii -> bool)
    (k : option ascii -> string -> option A) (prev : option ascii) (s : string) :
  star_lazy p (fun q t => option_map f (k q t)) prev s =
  option_map f (star_lazy p k prev s).
Proof.
  revert prev. induction s as [|c s IH]; intros prev; cbn [star_lazy].
  - destruct (k prev EmptyString); reflexivity.
  - destruct (k prev (String c s)); cbn [option_map]; [reflexivity|].
    destruct (p c); [apply IH | reflexivity].
Qed.

(** Mapping the accepted state afterwards or inside the continuation is the
    same. *)
Lemma rmatch_map (fl : flags) (f : mstate -> mstate) (r : regex)
    (k : mstate -> option mstate) (st : mstate) :
  rmatch fl r (fun st' => option_map f (k st')) st = option_map f (rmatch fl r k st).
Proof.
  revert k st. induction r as [| lit | cs | greedy cs | r1 IH1 r2 IH2 | r1 IH1 r2 IH2
                               | n r IH |]; intros k st; cbn [rmatch].
  - reflexivity.
  - destruct (match_lit fl lit (st_prev st) (st_rest st)) as [[p s]|]; reflexivity.
  - destruct (st_rest st) as [|c s]; [reflexivity|]. destruct (in_cset cs c); reflexivity.
  - destruct greedy; [apply star_greedy_map | apply star_lazy_map].
  - rewrite <- IH1. apply rmatch_ext. intros st'. apply IH2.
  - rewrite IH1, IH2. destruct (rmatch fl r1 k st); reflexivity.
  - apply IH.
  - destruct (at_bol fl (st_prev st)); reflexivity.
Qed.

Lemma match_lit_lift (fl : flags) (lit x y : string) (prev : option ascii) :
  nl_free_lit fl lit = true ->
  match_lit fl lit prev (x ++ String nl y) =
  option_map (fun pr => (fst pr, snd pr ++ String nl y)) (match_lit fl lit prev x).
Proof.
  revert x prev. induction lit as [|a lit IH]; intros x prev Hlit; cbn [match_lit].
  - reflexivity.
  - cbn [nl_free_lit str_forallb] in Hlit. apply andb_true_iff in Hlit.
    destruct Hlit as [Ha Hlit]. apply negb_true_iff in Ha.
    destruct x as [|c x]; cbn [append].
    + now rewrite Ha.
    + destruct (chr_eq fl a c); [now apply IH | reflexivity].
Qed.

Lemma star_greedy_lift {A : Type} (p : ascii -> bool)
    (k : option ascii -> string -> option A) (prev : option ascii) (x y : string) :
  p nl = false ->
  star_greedy p k prev (x ++ String nl y) =
  star_greedy p (fun q t => k q (t ++ String nl y)) prev x.
Proof.
  intros Hnl. revert prev. induction x as [|c x IH]; intros prev; cbn [append star_greedy].
  - now rewrite Hnl.
  - now rewrite IH.
Qed.

Lemma star_lazy_lift {A : Type} (p : ascii -> bool)
    (k : option ascii -> string -> option A) (prev : option ascii) (x y : string) :
  p nl = false ->
  star_lazy p k prev (x ++ String nl y) =
  star_lazy p (fun q t => k q (t ++ String nl y)) prev x.
Proof.
  intros Hnl. revert prev. induction x as [|c x IH]; intros prev; cbn [append star_lazy].
  - rewrite Hnl. destruct (k prev (String nl y)); reflexivity.
  - now rewrite IH.
Qed.

Lemma substring_app (n : nat) (u z : string) :
  n <= String.length u -> substring 0 n (u ++ z) = substring 0 n u.
Proof.
  revert n. induction u as [|c u IH]; intros n Hn; cbn [String.length] in Hn.
  - assert (n = 0) by lia. subst n. destruct z; reflexivity.
  - destruct n as [|n]; [reflexivity|]. cbn [append substring]. rewrite IH by lia. reflexivity.
Qed.

Lemma consumed_lift (u v z : string) : consumed (u ++ z) (v ++ z) = consumed u v.
Proof.
  unfold consumed. rewrite !length_append.
  replace (String.length u + String.length z - (String.length v + String.length z))
    with (String.length u - String.length v) by lia.
  apply substring_app. lia.
Qed.

(** Matching in a text followed by a newline and more text is matching in
    the text alone. *)
Lemma rmatch_lift (fl : flags) (y : string) (r : regex) :
  line_bound fl r = true ->
  forall k st, rmatch fl r k (lift y st) = rmatch fl r (fun st' => k (lift y st')) st.
Proof.
  induction r as [| lit | cs | greedy cs | r1 IH1 r2 IH2 | r1 IH1 r2 IH2 | n r IH |];
    cbn [line_bound]; intros Hr k st.
  - reflexivity.
  - cbn [rmatch lift st_prev st_rest]. rewrite match_lit_lift by exact Hr.
    destruct (match_lit fl lit (st_prev st) (st_rest st)) as [[p s]|]; reflexivity.
  - apply negb_true_iff in Hr. cbn [rmatch lift st_rest].
    destruct (st_rest st) as [|c s]; cbn [append].
    + now rewrite Hr.
    + destruct (in_cset cs c); reflexivity.
  - apply negb_true_iff in Hr. cbn [rmatch lift st_prev st_rest].
    destruct greedy; [rewrite star_greedy_lift | rewrite star_lazy_lift];
      try exact Hr; reflexivity.
  - apply andb_true_iff in Hr. destruct Hr as [H1 H2]. cbn [rmatch].
    rewrite (IH1 H1). apply rmatch_ext. intros st'. apply (IH2 H2).
  - apply andb_true_iff in Hr. destruct Hr as [H1 H2]. cbn [rmatch].
    now rewrite (IH1 H1), (IH2 H2).
  - cbn [rmatch]. rewrite (IH Hr). apply rmatch_ext. intros st'.
    cbn [lift st_prev st_rest st_caps]. now rewrite consumed_lift.
  - reflexivity.
Qed.

Lemma match_here_lift (fl : flags) (r : regex) (prev : option ascii) (must_advance : bool)
    (x y : string) :
  line_bound fl r = true ->
  match_here fl r prev must_advance (x ++ String nl y) =
  option_map (lift y) (match_here fl r prev must_advance x).
Proof.
  intros Hr. unfold match_here. rewrite <- rmatch_map.
  change {| st_prev := prev; st_rest := x ++ String nl y; st_caps := [] |}
    with (lift y {| st_prev := prev; st_rest := x; st_caps := [] |}).
  rewrite (rmatch_lift fl y r Hr). apply rmatch_ext. intros st'.
  cbn [lift st_rest]. rewrite !length_append.
  replace (String.length (st_rest st') + String.length (String nl y) =?
           String.length x + String.length (String nl y))%nat
    with (String.length (st_rest st') =? String.length x)%nat.
  - destruct (must_advance && _); reflexivity.
  - destruct (Nat.eqb_spec (String.length (st_rest st')) (String.length x)) as [E|E];
      symmetry; [apply Nat.eqb_eq | apply Nat.eqb_neq]; lia.
Qed.

(** Substitution with such a pattern works line by line: what follows a
    newline does not change what is done before it. *)
Lemma sub_from_lines (fl : flags) (r : regex) (tpl : list titem) :
  line_bound fl r = true ->
  (forall prev must_advance, match_here fl r prev must_advance EmptyString = None) ->
  forall (x y : string) (prev : option ascii) (skip : nat),
    skip <= String.length x ->
    sub_from fl r tpl prev skip (x ++ String nl y) =
    sub_from fl r tpl prev skip x ++ String nl (sub_from fl r tpl (Some nl) 0 y).
Proof.
  intros Hr Hend x y. induction x as [|c x IH]; intros prev skip Hskip.
  - cbn [String.length] in Hskip. assert (skip = 0) by lia. subst skip.
    cbn [append]. rewrite sub_from_step.
    change (String nl y) with (EmptyString ++ String nl y) at 1.
    rewrite match_here_lift by exact Hr. rewrite Hend. cbn [option_map].
    rewrite sub_from_end by apply Hend. reflexivity.
  - destruct skip as [|n].
    + cbn [append]. rewrite !sub_from_step.
      change (String c (x ++ String nl y)) with (String c x ++ String nl y).
      rewrite !match_here_lift by exact Hr.
      assert (Hlen : forall st, String.length (String c x ++ String nl y)
                                - String.length (st_rest (lift y st))
                                = String.length (String c x) - String.length (st_rest st)).
      { intros st. cbn [lift st_rest]. rewrite !length_append. lia. }
      destruct (match_here fl r prev false (String c x)) as [st1|]; cbn [option_map].
      * rewrite Hlen. cbn [lift st_caps]. rewrite append_assoc. f_equal.
        destruct (String.length (String c x) - String.length (st_rest st1)) as [|n] eqn:En.
        -- destruct (match_here fl r prev true (String c x)) as [st2|]; cbn [option_map].
           ++ rewrite Hlen. cbn [lift st_caps]. rewrite append_assoc. f_equal.
              apply IH. cbn [String.length]. lia.
           ++ cbn [append]. f_equal. apply IH. lia.
        -- apply IH. cbn [String.length] in En. lia.
      * cbn [append]. f_equal. apply IH. lia.
    + cbn [append sub_from]. apply IH. cbn [String.length] in Hskip. lia.
Qed.

Lemma env_line_bound (fl : flags) : line_bound fl Docker.env_regexp = true.
Proof. destruct fl as [[] ml]; reflexivity. Qed.

Lemma env_no_empty_match (fl : flags) (prev : option ascii) (must_advance : bool) :
  match_here fl Docker.env_regexp prev must_advance EmptyString = None.
Proof. destruct fl as [[] ml]; reflexivity. Qed.



(** ** The peers of a topology file *)

Lemma findall_from_skip (fl : flags) (r : regex) (m rest : string) (prev : option ascii) :
  findall_from fl r prev (String.length m) (m ++ rest) =
  findall_from fl r (last_char m prev) 0 rest.
Proof.
  revert prev. induction m as [|c m IH]; intro prev.
  - reflexivity.
  - cbn [String.length append findall_from last_char]. apply IH.
Qed.

Lemma findall_from_match (fl : flags) (r : regex)
    (prev : option ascii) (s m rest : string) (st1 : mstate) :
  s = m ++ rest ->
  m <> EmptyString ->
  match_here fl r prev false s = Some st1 ->
  st_rest st1 = rest ->
  findall_from fl r prev 0 s =
  group 1 (st_caps st1) :: findall_from fl r (last_char m prev) 0 rest.
Proof.
  intros -> Hm Hmatch Hrest.
  destruct m as [|c m]; [congruence|].
  cbn [append findall_from]. cbn [append] in Hmatch. rewrite Hmatch, Hrest.
  cbn [String.length]. rewrite length_append.
  replace (S (String.length m + String.length rest) - String.length rest)
    with (S (String.length m)) by lia.
  rewrite findall_from_skip. reflexivity.
Qed.

Lemma findall_from_copy_all (fl : flags) (r : regex)
    (pre rest : string) (prev : option ascii) :
  (forall p1 c p2, pre = p1 ++ String c p2 ->
     match_here fl r (last_char p1 prev) false (String c p2 ++ rest) = None) ->
  findall_from fl r prev 0 (pre ++ rest) = findall_from fl r (last_char pre prev) 0 rest.
Proof.
  revert prev. induction pre as [|c pre IH]; intros prev H.
  - reflexivity.
  - pose proof (H EmptyString c pre eq_refl) as H0.
    cbn [append last_char] in H0.
    cbn [append findall_from last_char]. rewrite H0.
    apply IH. intros p1 c' p2 E.
    apply (H (String c p1) c' p2). cbn [append]. now rewrite E.
Qed.

Lemma rmatch_plus (fl : flags) (cs : cset) (k : mstate -> option mstate)
    (st : mstate) (run rest : string) (x : mstate) :
  st_rest st = run ++ rest ->
  run <> EmptyString ->
  str_forallb (in_cset cs) run = true ->
  stops (in_cset cs) rest = true ->
  k (move st (last_char run (st_prev st)) rest) = Some x ->
  rmatch fl (RPlus cs) k st = Some x.
Proof.
  intros Hst Hne Hrun Hstop Hk.
  destruct run as [|c run]; [congruence|].
  cbn [str_forallb] in Hrun. apply andb_prop in Hrun as [Hc Hrun].
  unfold RPlus. rewrite rmatch_seq.
  rewrite (rmatch_set fl cs _ st c (run ++ rest) Hst Hc).
  apply rmatch_star_greedy with (run := run) (rest := rest); auto.
Qed.

Lemma number_inv (s : string) :
  number s = true -> s <> EmptyString /\ str_forallb (in_cset CDigit) s = true.
Proof.
  unfold number. intro H. apply andb_prop in H as [Hne Hd]. split; [|exact Hd].
  intro E. subst s. discriminate Hne.
Qed.

Lemma digit_not_space (c : ascii) : is_digit c = true -> is_space c = false.
Proof.
  unfold is_digit, is_space. intro H. apply ascii_in_spec in H.
  destruct (ascii_in 9 13 c) eqn:E1; [apply ascii_in_spec in E1; lia|].
  destruct (ascii_in 28 32 c) eqn:E2; [apply ascii_in_spec in E2; lia|].
  cbn [orb].
  destruct (Nat.eqb_spec (nat_of_ascii c) 133); [lia|].
  destruct (Nat.eqb_spec (nat_of_ascii c) 160); [lia|]. reflexivity.
Qed.

Lemma number_head (s rest : string) :
  number s = true -> stops is_space (s ++ rest) = true.
Proof.
  intro H. destruct (number_inv s H) as [Hne Hd].
  destruct s as [|c s]; [congruence|].
  cbn [str_forallb in_cset] in Hd. apply andb_prop in Hd as [Hc _].
  cbn [append stops]. now rewrite (digit_not_space c Hc).
Qed.

(** The pattern reads an entry up to the end of its address, whatever the
    flags, and captures the address. *)
Lemma address_match (fl : flags) (prev : option ascii) (gap : string) (a : peer)
    (rest : string) :
  blank gap = true -> peer_ok a = true -> stops is_digit rest = true ->
  exists p,
    match_here fl address_re prev false ("Address:" ++ gap ++ peer_text a ++ rest) =
    Some {| st_prev := p; st_rest := rest; st_caps := [(1, peer_text a)] |}.
Proof.
  intros Hgap Ha Hstop.
  unfold peer_ok in Ha.
  apply andb_prop in Ha as [Ha H5]. apply andb_prop in Ha as [Ha H4].
  apply andb_prop in Ha as [Ha H3]. apply andb_prop in Ha as [H1 H2].
  destruct (number_inv _ H1) as [N1 D1].
  destruct (number_inv _ H2) as [N2 D2].
  destruct (number_inv _ H3) as [N3 D3].
  destruct (number_inv _ H4) as [N4 D4].
  destruct (number_inv _ H5) as [N5 D5].
  eexists.
  unfold match_here, address_re. cbn [RSeqs].
  rewrite rmatch_seq.
  apply rmatch_lit with (rest := gap ++ peer_text a ++ rest); [reflexivity|].
  rewrite rmatch_seq.
  apply rmatch_star_greedy with (run := gap) (rest := peer_text a ++ rest);
    [reflexivity | exact Hgap | | ].
  { unfold peer_text. rewrite append_assoc. now apply number_head. }
  rewrite rmatch_group. mstep.
  unfold peer_text. rewrite !append_assoc.
  rewrite rmatch_seq.
  eapply rmatch_plus with (run := octet1 a); [reflexivity | exact N1 | exact D1 | reflexivity | ].
  mstep. rewrite rmatch_seq.
  eapply rmatch_lit with (lit := "."); [reflexivity|]. mstep.
  rewrite rmatch_seq.
  eapply rmatch_plus with (run := octet2 a); [reflexivity | exact N2 | exact D2 | reflexivity | ].
  mstep. rewrite rmatch_seq.
  eapply rmatch_lit with (lit := "."); [reflexivity|]. mstep.
  rewrite rmatch_seq.
  eapply rmatch_plus with (run := octet3 a); [reflexivity | exact N3 | exact D3 | reflexivity | ].
  mstep. rewrite rmatch_seq.
  eapply rmatch_lit with (lit := "."); [reflexivity|]. mstep.
  rewrite rmatch_seq.
  eapply rmatch_plus with (run := octet4 a); [reflexivity | exact N4 | exact D4 | reflexivity | ].
  mstep. rewrite rmatch_seq.
  eapply rmatch_lit with (lit := ":"); [reflexivity|]. mstep.
  eapply rmatch_plus with (run := port a); [reflexivity | exact N5 | exact D5 | exact Hstop | ].
  mstep. cbn [andb].
  rewrite <- !append_assoc. rewrite consumed_app. rewrite !append_assoc.
  reflexivity.
Qed.

(** Without flags the pattern matches only where the text reads a capital A. *)
Lemma address_no_match (prev : option ascii) (must_advance : bool) (s : string) :
  starts_with "A" s = false ->
  match_here no_flags address_re prev must_advance s = None.
Proof.
  intro H. unfold match_here, address_re. cbn [RSeqs]. rewrite rmatch_seq.
  apply rmatch_lit_fails. cbn [st_prev st_rest].
  destruct s as [|c s]; [reflexivity|].
  cbn [starts_with] in H. cbn [match_lit]. unfold chr_eq. cbn [ignorecase no_flags andb].
  now rewrite H.
Qed.

Lemma no_char_suffix (c0 : ascii) (p1 s : string) :
  no_char c0 (p1 ++ s) = true -> no_char c0 s = true.
Proof.
  rewrite no_char_app. intro H. now apply andb_prop in H as [_ H].
Qed.

Lemma findall_skips_tail (tail rest : string) (prev : option ascii) :
  no_char "A" tail = true ->
  findall_from no_flags address_re prev 0 (tail ++ rest) =
  findall_from no_flags address_re (last_char tail prev) 0 rest.
Proof.
  intro H. apply findall_from_copy_all. intros p1 c p2 E.
  apply address_no_match. subst tail. apply no_char_suffix in H.
  unfold no_char in H. cbn [str_forallb] in H. apply andb_prop in H as [H _].
  cbn [append starts_with]. now apply negb_true_iff in H.
Qed.

Lemma entries_text_head (es : list entry) : stops is_digit (entries_text es) = true.
Proof. destruct es; reflexivity. Qed.

Lemma stops_app (p : ascii -> bool) (a b : string) :
  stops p a = true -> stops p b = true -> stops p (a ++ b) = true.
Proof. destruct a; intros Ha Hb; [exact Hb | exact Ha]. Qed.

Lemma peer_text_nonempty (gap : string) (a : peer) :
  "Address:" ++ gap ++ peer_text a <> EmptyString.
Proof. discriminate. Qed.

Lemma findall_entries (es : list entry) (prev : option ascii) :
  forallb entry_ok es = true ->
  findall_from no_flags address_re prev 0 (entries_text es) =
  map (fun e => peer_text (entry_peer e)) es.
Proof.
  revert prev. induction es as [|e es IH]; intros prev Hes.
  - cbn [entries_text findall_from map]. now rewrite address_no_match.
  - cbn [forallb] in Hes. apply andb_prop in Hes as [He Hes].
    unfold entry_ok in He.
    apply andb_prop in He as [He HA]. apply andb_prop in He as [He Hd].
    apply andb_prop in He as [Hgap Hpeer].
    cbn [entries_text map].
    destruct (address_match no_flags prev (entry_gap e) (entry_peer e)
                (entry_tail e ++ entries_text es) Hgap Hpeer
                (stops_app _ _ _ Hd (entries_text_head es))) as [p Hm].
    rewrite (findall_from_match no_flags address_re prev _
               ("Address:" ++ entry_gap e ++ peer_text (entry_peer e))
               (entry_tail e ++ entries_text es) _
               ltac:(now rewrite !append_assoc)
               (peer_text_nonempty _ _) Hm eq_refl).
    cbn [st_caps group Nat.eqb]. f_equal.
    rewrite (findall_skips_tail _ _ _ HA). apply IH, Hes.
Qed.

(** The peers found in a topology file are those of its entries, in the
    order of the file. *)
Lemma findall_topology (lead : string) (es : list entry) :
  no_char "A" lead = true ->
  forallb entry_ok es = true ->
  findall no_flags address_re (topology_text lead es) =
  map (fun e => peer_text (entry_peer e)) es.
Proof.
  intros Hlead Hes. unfold findall, topology_text.
  rewrite (findall_skips_tail _ _ _ Hlead). now apply findall_entries.
Qed.

(** X1.  For a topology file made of entries [Address: a.b.c.d:port], the
    microk8s hook asks for the three fixed queries and then for one
    [.describe] query per entry, with the address of the entry, in the order
    of the file; nothing else is run. *)
Theorem hook_queries_follow_topology (h : host) (pkg : string) (cfg : BackendConfig)
    (lead : string) (es : list entry) :
  no_char "A" lead = true ->
  forallb entry_ok es = true ->
  read_text h (servers_path cfg) = ReadOk (topology_text lead es) ->
  cmd_requests (trace (microk8s_collection h pkg cfg)) =
  (map (fun query => hook_request pkg cfg query query) fixed_queries
   ++ map (fun e => describe_request pkg cfg (peer_text (entry_peer e))) es)%list.
Proof.
  intros Hlead Hes Hread.
  rewrite (microk8s_collection_read h pkg cfg _ Hread).
  unfold trace. cbn [snd cmd_requests filter].
  fold (cmd_requests (hook_requests pkg cfg
          (findall no_flags address_re (topology_text lead es)))).
  rewrite cmd_requests_hook, hook_requests_split, (findall_topology lead es Hlead Hes).
  rewrite map_map. reflexivity.
Qed.

Lemma hook_queries_follow_topology_witness :
  cmd_requests
    (trace (microk8s_collection (host_with_topology (topology_text "- " three_peers))
              "microk8s" microk8s_cfg)) =
  (map (fun query => hook_request "microk8s" microk8s_cfg query query) fixed_queries
   ++ map (fun e => describe_request "microk8s" microk8s_cfg (peer_text (entry_peer e)))
        three_peers)%list.
Proof.
  apply (hook_queries_follow_topology
           (host_with_topology (topology_text "- " three_peers))
           "microk8s" microk8s_cfg "- " three_peers); reflexivity.
Defined.

(** ** What a peer address is made of *)


Lemma star_greedy_reads {A : Type} (p : ascii -> bool)
    (k : option ascii -> string -> option A) (prev : option ascii) (s : string) (x : A) :
  star_greedy p k prev s = Some x ->
  exists u q rest, s = u ++ rest /\ str_forallb p u = true /\ k q rest = Some x.
Proof.
  revert prev. induction s as [|c s IH]; intros prev H; cbn [star_greedy] in H.
  - exists EmptyString, prev, EmptyString. auto.
  - destruct (p c) eqn:Hc.
    + destruct (star_greedy p k (Some c) s) eqn:E.
      * inversion H; subst. destruct (IH _ E) as (u & q & rest & -> & Hu & Hk).
        exists (String c u), q, rest. cbn [append str_forallb]. rewrite Hc. auto.
      * exists EmptyString, prev, (String c s). auto.
    + exists EmptyString, prev, (String c s). auto.
Qed.

Lemma star_lazy_reads {A : Type} (p : ascii -> bool)
    (k : option ascii -> string -> option A) (prev : option ascii) (s : string) (x : A) :
  star_lazy p k prev s = Some x ->
  exists u q rest, s = u ++ rest /\ str_forallb p u = true /\ k q rest = Some x.
Proof.
  revert prev. induction s as [|c s IH]; intros prev H; cbn [star_lazy] in H.
  - destruct (k prev EmptyString) eqn:E; [|discriminate].
    inversion H; subst. exists EmptyString, prev, EmptyString. auto.
  - destruct (k prev (String c s)) eqn:E.
    + inversion H; subst. exists EmptyString, prev, (String c s). auto.
    + destruct (p c) eqn:Hc; [|discriminate].
      destruct (IH _ H) as (u & q & rest & -> & Hu & Hk).
      exists (String c u), q, rest. cbn [append str_forallb]. rewrite Hc. auto.
Qed.

Lemma str_forallb_impl (p q : ascii -> bool) (s : string) :
  (forall c, p c = true -> q c = true) ->
  str_forallb p s = true -> str_forallb q s = true.
Proof.
  intro Hpq. induction s as [|c s IH]; cbn [str_forallb]; [auto|].
  intro H. apply andb_prop in H as [Hc Hs]. now rewrite (Hpq c Hc), IH.
Qed.






(** ** The whole [setup] *)

Lemma collect_backend_returns (h : host) (pkg : string) (cfg : BackendConfig) :
  fst (collect_backend h pkg cfg) = Ok tt.
Proof.
  unfold collect_backend, bind.
  pose proof (base_collection_returns pkg cfg) as Hb.
  destruct (base_collection pkg cfg) as [r w]. cbn [fst] in Hb. subst r.
  destruct (collection cfg); cbn [run_hook];
    try (unfold microceph_collection; rewrite run_batch_trace); try reflexivity.
  destruct (read_text h (servers_path cfg)) as [cluster|e] eqn:Hread.
  - now rewrite (microk8s_collection_read h pkg cfg cluster Hread).
  - now rewrite (microk8s_collection_unreadable h pkg cfg e Hread).
Qed.

Lemma setup_trace (h : host) :
  trace (setup h) =
  flat_map (fun '(pkg, config) =>
              if is_installed h pkg then trace (collect_backend h pkg config) else [])
           packages.
Proof.
  unfold setup. rewrite for_each_ok.
  - unfold trace at 1. cbn [snd]. apply flat_map_ext. intros [pkg cfg].
    now destruct (is_installed h pkg).
  - intros [pkg cfg]. destruct (is_installed h pkg); [|reflexivity].
    apply collect_backend_returns.
Qed.

(** X3.  On every host [setup] returns normally (a topology file that cannot
    be read included), and what it asks of the framework is what the
    collection of each installed backend asks, one backend after the other
    in the order of the registry; a backend that is not installed adds
    nothing. *)
Theorem setup_runs_installed_backends (h : host) :
  setup h =
  (Ok tt,
   flat_map (fun '(pkg, config) =>
               if is_installed h pkg then trace (collect_backend h pkg config) else [])
            packages).
Proof.
  rewrite <- setup_trace. rewrite <- (setup_returns h).
  unfold trace. now destruct (setup h).
Qed.

Lemma batch_requests_subdir (pkg : string) (cfg : BackendConfig) (l : list (string * string)) :
  Forall (fun a => subdir_of a = Some pkg) (flat_map (batch_requests pkg cfg) l).
Proof.
  apply Forall_flat_map. apply Forall_forall. intros [q t] _.
  unfold batch_requests. destruct (truthy (sql_cmd cfg)); repeat constructor.
Qed.

Lemma hook_requests_subdir (pkg : string) (cfg : BackendConfig) (nodes : list string) :
  Forall (fun a => subdir_of a = Some pkg) (hook_requests pkg cfg nodes).
Proof.
  unfold hook_requests. apply Forall_forall. intros a Ha.
  apply in_map_iff in Ha as ([q n] & <- & _). reflexivity.
Qed.

Lemma Forall_weaken {A : Type} (P Q : A -> Prop) (l : list A) :
  (forall a, P a -> Q a) -> Forall P l -> Forall Q l.
Proof. intros HPQ H. induction H; constructor; auto. Qed.

(** Whatever one backend's collection files under a subdirectory, it files
    under the backend's own name. *)
Lemma collect_backend_subdir (h : host) (pkg : string) (cfg : BackendConfig) :
  Forall (fun a => subdir_of a = None \/ subdir_of a = Some pkg)
    (trace (collect_backend h pkg cfg)).
Proof.
  rewrite (collect_backend_trace h pkg cfg (base_collection_returns pkg cfg)).
  apply Forall_app. split.
  - destruct (String.eqb_spec pkg "microk8s") as [->|Hne].
    + rewrite base_collection_microk8s. unfold trace. cbn [snd].
      constructor; [now right|]. constructor; [now left|]. constructor.
    + rewrite (base_collection_trace pkg cfg Hne). unfold trace. cbn [snd].
      constructor; [now right|]. constructor; [now left|].
      apply (Forall_weaken (fun a => subdir_of a = Some pkg)); [tauto|].
      apply batch_requests_subdir.
  - destruct (collection cfg); cbn [run_hook]; try (constructor; fail).
    + unfold microceph_collection. rewrite run_batch_trace. unfold trace. cbn [snd].
      apply (Forall_weaken (fun a => subdir_of a = Some pkg)); [tauto|].
      apply batch_requests_subdir.
    + destruct (read_text h (servers_path cfg)) as [cluster|e] eqn:Hread.
      * rewrite (microk8s_collection_read h pkg cfg cluster Hread). unfold trace.
        cbn [snd]. constructor; [now left|].
        apply (Forall_weaken (fun a => subdir_of a = Some pkg)); [tauto|].
        apply hook_requests_subdir.
      * rewrite (microk8s_collection_unreadable h pkg cfg e Hread). unfold trace.
        cbn [snd]. constructor; [now left|]. constructor; [now left|].
        apply (Forall_weaken (fun a => subdir_of a = Some pkg)); [tauto|].
        apply hook_requests_subdir.
Qed.

(** X4.  Every directory listing and every command output that [setup] asks
    for is filed under the name of a backend of the registry that is
    installed on the host: nothing is collected for, or filed under, a
    backend that is absent. *)
Theorem setup_files_under_installed_backends (h : host) :
  Forall
    (fun a =>
       match subdir_of a with
       | Some subdir => is_installed h subdir = true /\ In subdir (map fst packages)
       | None => True
       end)
    (trace (setup h)).
Proof.
  rewrite setup_trace.
  apply Forall_flat_map. apply Forall_forall. intros [pkg cfg] Hin.
  destruct (is_installed h pkg) eqn:Hinst; [|constructor].
  apply (Forall_weaken (fun a => subdir_of a = None \/ subdir_of a = Some pkg));
    [|apply collect_backend_subdir].
  intros a [-> | ->]; [exact I|]. split; [exact Hinst|].
  apply in_map_iff. now exists (pkg, cfg).
Qed.

(** ** The credentials-file rule of the microk8s plugin *)

Lemma microk8s_keys_alt (fl : flags) (key : string) (k : mstate -> option mstate)
    (st : mstate) (rest : string) (x : mstate) :
  In key Microk8s.protect_keys ->
  st_rest st = key ++ rest ->
  k (move st (last_char key (st_prev st)) rest) = Some x ->
  rmatch fl (RAlts Microk8s.protect_keys) k st = Some x.
Proof.
  intros Hkey Hrest Hk. cbn [RAlts Microk8s.protect_keys].
  destruct fl as [[] ml]; simpl in Hkey;
    destruct Hkey as [<- | [<- | [<- | [<- | []]]]].
  all: try (apply rmatch_alt_l; now apply (rmatch_lit _ _ _ _ rest)).
  all: apply rmatch_alt_r; [apply rmatch_lit_fails; rewrite Hrest; reflexivity|].
  all: try (apply rmatch_alt_l; now apply (rmatch_lit _ _ _ _ rest)).
  all: apply rmatch_alt_r; [apply rmatch_lit_fails; rewrite Hrest; reflexivity|].
  all: try (apply rmatch_alt_l; now apply (rmatch_lit _ _ _ _ rest)).
  all: apply rmatch_alt_r; [apply rmatch_lit_fails; rewrite Hrest; reflexivity|].
  all: now apply (rmatch_lit _ _ _ _ rest).
Qed.

Lemma microk8s_key_head (key rest : string) :
  In key Microk8s.protect_keys -> stops is_space (key ++ rest) = true.
Proof.
  simpl. intros [<- | [<- | [<- | [<- | []]]]]; reflexivity.
Qed.

Lemma microk8s_key_nonempty (key : string) :
  In key Microk8s.protect_keys -> key <> EmptyString.
Proof.
  simpl. intros [<- | [<- | [<- | [<- | []]]]]; discriminate.
Qed.

Lemma key_line_match (fl : flags) (indent key gap sep value : string) :
  blank indent = true -> In key Microk8s.protect_keys -> blank gap = true ->
  blank sep = true -> stops is_space value = true -> one_line value = true ->
  exists p,
    match_here fl Microk8s.key_regex None false (key_line indent key gap sep value) =
    Some {| st_prev := p; st_rest := EmptyString;
            st_caps := [(3, value); (1, indent ++ key ++ gap ++ ":" ++ sep); (2, key)] |}.
Proof.
  intros Hindent Hkey Hgap Hsep Hstop Hvalue.
  eexists.
  unfold match_here, Microk8s.key_regex, key_line. cbn [RSeqs].
  rewrite rmatch_seq, rmatch_group, rmatch_seq, rmatch_bol. cbn [at_bol st_prev].
  rewrite rmatch_seq.
  apply rmatch_star_greedy
    with (run := indent) (rest := key ++ gap ++ ":" ++ sep ++ value);
    [reflexivity | exact Hindent | now apply microk8s_key_head |]. mstep.
  rewrite rmatch_seq, rmatch_group.
  apply microk8s_keys_alt with (key := key) (rest := gap ++ ":" ++ sep ++ value);
    [exact Hkey | reflexivity |]. mstep.
  rewrite rmatch_seq.
  apply rmatch_star_greedy with (run := gap) (rest := ":" ++ sep ++ value);
    [reflexivity | exact Hgap | reflexivity |]. mstep.
  rewrite rmatch_seq.
  apply rmatch_lit with (rest := sep ++ value); [reflexivity|]. mstep.
  apply rmatch_star_greedy with (run := sep) (rest := value);
    [reflexivity | exact Hsep | exact Hstop |]. mstep.
  rewrite rmatch_group. mstep.
  apply rmatch_star_greedy with (run := value) (rest := EmptyString);
    [symmetry; apply append_nil_r | exact Hvalue | reflexivity |]. mstep.
  cbn [andb].
  rewrite consumed_all, consumed_app.
  replace (indent ++ key ++ gap ++ ":" ++ sep ++ value)
    with ((indent ++ key ++ gap ++ ":" ++ sep) ++ value) by now rewrite !append_assoc.
  rewrite consumed_app. reflexivity.
Qed.

Lemma key_no_match_at_end (fl : flags) (prev : option ascii) :
  match_here fl Microk8s.key_regex prev false EmptyString = None.
Proof.
  destruct fl as [[] []], prev as [c|]; try reflexivity.
  all: unfold match_here, Microk8s.key_regex; cbn [RSeqs];
    rewrite rmatch_seq, rmatch_group, rmatch_seq, rmatch_bol;
    cbn [at_bol st_prev multiline andb];
    destruct (Ascii.eqb c nl); reflexivity.
Qed.

Lemma key_line_sub (fl : flags) (indent key gap sep value : string) :
  blank indent = true -> In key Microk8s.protect_keys -> blank gap = true ->
  blank sep = true -> stops is_space value = true -> one_line value = true ->
  Re.sub fl Microk8s.key_regex key_subst (key_line indent key gap sep value) =
  key_line indent key gap sep "*********".
Proof.
  intros Hindent Hkey Hgap Hsep Hstop Hvalue.
  destruct (key_line_match fl indent key gap sep value
              Hindent Hkey Hgap Hsep Hstop Hvalue) as [p Hmatch].
  assert (Hne : key_line indent key gap sep value <> EmptyString).
  { intro E. apply (f_equal String.length) in E. unfold key_line in E.
    rewrite !length_append in E.
    pose proof (microk8s_key_nonempty key Hkey). destruct key; [congruence|].
    simpl in E. lia. }
  unfold Re.sub.
  rewrite (sub_from_match fl Microk8s.key_regex key_subst None
             (key_line indent key gap sep value)
             (key_line indent key gap sep value) EmptyString _
             (eq_sym (append_nil_r _)) Hne Hmatch eq_refl).
  rewrite sub_from_end by apply key_no_match_at_end.
  cbn [key_subst expand st_caps group Nat.eqb]. unfold key_line.
  now rewrite !append_nil_r, !append_assoc.
Qed.

(** X6.  The file rule of the microk8s plugin, applied to a text made of
    one credentials line (indentation, a protected key, blanks, a colon,
    blanks, a value without newline), keeps the line up to the value, its
    indentation included, and puts the mask in place of the value; applied
    again it changes nothing, under every setting of the flags. *)
Theorem microk8s_rule_idempotent (fl : flags) (indent key gap sep value : string) :
  blank indent = true -> In key Microk8s.protect_keys -> blank gap = true ->
  blank sep = true -> stops is_space value = true -> one_line value = true ->
  let rule := Re.sub fl Microk8s.key_regex key_subst in
  let line := key_line indent key gap sep value in
  rule line = key_line indent key gap sep "*********"
  /\ rule (rule line) = rule line
  /\ Microk8s.postproc fl (Microk8s.postproc fl [client_config line])
     = Microk8s.postproc fl [client_config line].
Proof.
  intros Hindent Hkey Hgap Hsep Hstop Hvalue rule line. subst rule line.
  pose proof (key_line_sub fl indent key gap sep value
                Hindent Hkey Hgap Hsep Hstop Hvalue) as H1.
  pose proof (key_line_sub fl indent key gap sep "*********"
                Hindent Hkey Hgap Hsep eq_refl eq_refl) as H2.
  split; [exact H1|]. split; [now rewrite H1, H2|].
  assert (Hpost : forall text,
             Microk8s.postproc fl [client_config text] =
             [client_config (Re.sub fl Microk8s.key_regex key_subst text)]).
  { intro text. reflexivity. }
  now rewrite !Hpost, H1, H2.
Qed.

Lemma microk8s_rule_idempotent_witness :
  let rule := Re.sub no_flags Microk8s.key_regex key_subst in
  let line := key_line "    " "token" "" " " "dGhpcyBpcyBhIHRva2Vu" in
  rule line = key_line "    " "token" "" " " "*********"
  /\ rule (rule line) = rule line
  /\ Microk8s.postproc no_flags (Microk8s.postproc no_flags [client_config line])
     = Microk8s.postproc no_flags [client_config line].
Proof.
  apply (microk8s_rule_idempotent no_flags "    " "token" "" " " "dGhpcyBpcyBhIHRva2Vu");
    try reflexivity.
  simpl. tauto.
Defined.

(** ** How many requests a batch makes *)

(** X5.  A batch pairs the queries and the table names by position, up to
    the end of the shorter list: what one list has more than the other is
    dropped.  For each pair, in order, it makes the socket request and,
    exactly when the backend has a non-empty CLI wrapper, the CLI request
    right after it.  So there are as many socket requests as pairs, and as
    many CLI requests again with a wrapper and none without (no wrapper, or
    the empty string). *)
Theorem batch_request_count (pkg : string) (cfg : BackendConfig)
    (queries tables : list string) :
  let n := Nat.min (length queries) (length tables) in
  let pairs := combine (firstn n queries) (firstn n tables) in
  length pairs = n
  /\ trace (run_batch_dqlite_queries pkg cfg queries tables) =
     flat_map
       (fun '(query, table) =>
          CmdOutput (curl_cmd cfg ++ " '" ++ json_dumps (query_payload pkg query) ++ "'")
                    (pkg ++ "_dqlite_" ++ table) pkg
          :: (if truthy (sql_cmd cfg)
              then [ CmdOutput (py_str (sql_cmd cfg) ++ " " ++ json_dumps (JStr query))
                               (py_str (sql_cmd cfg) ++ "_" ++ table) pkg ]
              else []))
       pairs
  /\ length (trace (run_batch_dqlite_queries pkg cfg queries tables)) =
     (if truthy (sql_cmd cfg) then 2 else 1) * n.
Proof.
  intros n pairs.
  assert (Hpairs : pairs = combine queries tables).
  { subst pairs n. rewrite <- combine_firstn.
    rewrite <- length_combine. apply firstn_all. }
  assert (Hlen : length pairs = n).
  { rewrite Hpairs. subst n. apply length_combine. }
  split; [exact Hlen|].
  assert (Htrace : trace (run_batch_dqlite_queries pkg cfg queries tables) =
                   flat_map
                     (fun '(query, table) =>
                        CmdOutput (curl_cmd cfg ++ " '" ++
                                   json_dumps (query_payload pkg query) ++ "'")
                                  (pkg ++ "_dqlite_" ++ table) pkg
                        :: (if truthy (sql_cmd cfg)
                            then [ CmdOutput (py_str (sql_cmd cfg) ++ " " ++
                                              json_dumps (JStr query))
                                             (py_str (sql_cmd cfg) ++ "_" ++ table) pkg ]
                            else []))
                     pairs).
  { rewrite run_batch_trace, Hpairs. unfold trace. cbn [snd].
    apply flat_map_ext. intros [query table]. reflexivity. }
  split; [exact Htrace|].
  rewrite Htrace, <- Hlen. clear Htrace Hpairs Hlen.
  induction pairs as [|[query table] l IH]; [cbn [flat_map length]; lia|].
  cbn [flat_map]. rewrite length_app, IH.
  destruct (truthy (sql_cmd cfg)); cbn [length]; lia.
Qed.

(** ** Which backends get the configuration and the services queries *)

Lemma json_string_last (s : string) (d : option ascii) :
  last_char (json_string s) d = Some dquote.
Proof. unfold json_string. now rewrite !last_char_app. Qed.

(** A socket request is never a CLI request: the first ends with a single
    quote, the second with a double quote. *)
Lemma socket_not_cli (pkg : string) (cfg : BackendConfig) (query table : string)
    (pkg' cli query' table' : string) :
  socket_request pkg cfg query table <> cli_request pkg' cli query' table'.
Proof.
  unfold socket_request, cli_request. intro E.
  assert (Hcmd :
            last_char (curl_cmd cfg ++ " '" ++ json_dumps (query_payload pkg query) ++ "'")
                      None =
            last_char (cli ++ " " ++ json_string query') None).
  { exact (f_equal (fun a => match a with
                             | CmdOutput cmd _ _ => last_char cmd None
                             | _ => None
                             end) E). }
  rewrite !last_char_app, json_string_last in Hcmd. discriminate Hcmd.
Qed.

Lemma socket_request_table (pkg : string) (cfg : BackendConfig)
    (query table query' table' : string) :
  socket_request pkg cfg query table = socket_request pkg cfg query' table' ->
  table = table'.
Proof.
  unfold socket_request. intro E.
  assert (Hname : pkg ++ "_dqlite_" ++ table = pkg ++ "_dqlite_" ++ table').
  { exact (f_equal (fun a => match a with
                             | CmdOutput _ name _ => name
                             | _ => EmptyString
                             end) E). }
  now apply append_inj_l, append_inj_l in Hname.
Qed.

Lemma socket_in_batch (pkg : string) (cfg : BackendConfig) (query table : string)
    (l : list (string * string)) :
  In (socket_request pkg cfg query table) (flat_map (batch_requests pkg cfg) l) ->
  In table (map snd l).
Proof.
  intro H. apply in_flat_map in H as ([q t] & Hin & Ha).
  apply in_map_iff. exists (q, t). split; [|exact Hin].
  unfold batch_requests in Ha. cbn [fst snd] in Ha. destruct Ha as [Ha | Ha].
  - symmetry. now apply socket_request_table in Ha.
  - destruct (truthy (sql_cmd cfg)); [|contradiction].
    destruct Ha as [Ha | []]. symmetry in Ha. now apply socket_not_cli in Ha.
Qed.

Lemma batch_has_socket (pkg : string) (cfg : BackendConfig) (query table : string)
    (l : list (string * string)) :
  In (query, table) l ->
  In (socket_request pkg cfg query table) (flat_map (batch_requests pkg cfg) l).
Proof.
  intro H. apply in_flat_map. exists (query, table). split; [exact H|]. now left.
Qed.

Lemma socket_in_base_collection (pkg : string) (cfg : BackendConfig) (query table : string) :
  pkg <> "microk8s" ->
  In (socket_request pkg cfg query table) (trace (base_collection pkg cfg)) <->
  In (socket_request pkg cfg query table)
     (flat_map (batch_requests pkg cfg)
        (combine (fst (base_plan pkg)) (snd (base_plan pkg)))).
Proof.
  intro Hne. rewrite (base_collection_trace pkg cfg Hne). unfold trace. cbn [snd].
  split.
  - intros [H | [H | H]]; [discriminate H | discriminate H | exact H].
  - intro H. now right; right.
Qed.

(** X7.  In the base collection of a backend other than microk8s, the
    configuration table is queried through the socket unless the backend
    is microcloud, and the services table is queried exactly for microceph
    and microovn. *)
Theorem config_and_services_by_backend (pkg : string) (cfg : BackendConfig) :
  pkg <> "microk8s" ->
  (In (socket_request pkg cfg config_query "config") (trace (base_collection pkg cfg))
   <-> pkg <> "microcloud")
  /\ (In (socket_request pkg cfg services_query "services")
         (trace (base_collection pkg cfg))
      <-> pkg = "microceph" \/ pkg = "microovn").
Proof.
  intro Hne. rewrite !(socket_in_base_collection pkg cfg _ _ Hne).
  unfold base_plan, str_in, existsb.
  destruct (String.eqb_spec pkg "lxd") as [El|Nl];
    destruct (String.eqb_spec pkg "microcloud") as [Ec|Nc];
    destruct (String.eqb_spec pkg "microceph") as [Ep|Np];
    destruct (String.eqb_spec pkg "microovn") as [Eo|No];
    try (exfalso; congruence); cbn [orb negb fst snd app].
  all: split; split.
  all: try (intros _; apply batch_has_socket; simpl; tauto).
  all: try (intros _; congruence).
  all: try (intros _; tauto).
  all: try (intro H; apply socket_in_batch in H; simpl in H;
            repeat (destruct H as [H | H]; try discriminate H); contradiction).
  all: try (intros [H | H]; congruence).
  all: try (intro H; exfalso; apply H; assumption).
Qed.

Lemma config_and_services_witness :
  (In (socket_request "microcloud" microcloud_cfg config_query "config")
      (trace (base_collection "microcloud" microcloud_cfg))
   <-> "microcloud" <> "microcloud")
  /\ (In (socket_request "microcloud" microcloud_cfg services_query "services")
         (trace (base_collection "microcloud" microcloud_cfg))
      <-> "microcloud" = "microceph" \/ "microcloud" = "microovn").
Proof.
  apply (config_and_services_by_backend "microcloud" microcloud_cfg). discriminate.
Defined.

(** ** Texts without a protected key *)

Lemma suffix_of_refl (s : string) : suffix_of s s.
Proof. destruct s; now left. Qed.

Lemma suffix_of_tail (c : ascii) (t s : string) : suffix_of (String c t) s -> suffix_of t s.
Proof.
  induction s as [|c' s IH]; cbn [suffix_of].
  - intros [H | []]. discriminate H.
  - intros [H | H].
    + inversion H; subst. right. apply suffix_of_refl.
    + right. now apply IH.
Qed.

Lemma suffix_of_trans (a b c : string) : suffix_of a b -> suffix_of b c -> suffix_of a c.
Proof.
  revert a b. induction c as [|x c IH]; intros a b Hab Hbc; cbn [suffix_of] in Hbc.
  - destruct Hbc as [-> | []]. exact Hab.
  - destruct Hbc as [-> | Hbc]; [exact Hab|].
    cbn [suffix_of]. right. now apply (IH a b).
Qed.

Lemma suffix_of_app (u s : string) : suffix_of s (u ++ s).
Proof.
  induction u as [|c u IH]; cbn [append]; [apply suffix_of_refl|].
  cbn [suffix_of]. now right.
Qed.

Lemma match_lit_suffix (fl : flags) (lit : string) (prev p : option ascii) (s r : string) :
  match_lit fl lit prev s = Some (p, r) -> suffix_of r s.
Proof.
  revert prev s. induction lit as [|a lit IH]; intros prev s H.
  - cbn [match_lit] in H. inversion H. apply suffix_of_refl.
  - destruct s as [|c s]; cbn [match_lit] in H; [discriminate|].
    destruct (chr_eq fl a c); [|discriminate].
    cbn [suffix_of]. right. now apply (IH (Some c)).
Qed.

Lemma star_greedy_suffix {A : Type} (p : ascii -> bool)
    (k : option ascii -> string -> option A) (prev : option ascii) (s : string) (x : A) :
  star_greedy p k prev s = Some x ->
  exists q t, suffix_of t s /\ k q t = Some x.
Proof.
  intro H. apply star_greedy_reads in H as (u & q & rest & -> & _ & Hk).
  exists q, rest. split; [apply suffix_of_app | exact Hk].
Qed.

Lemma star_lazy_suffix {A : Type} (p : ascii -> bool)
    (k : option ascii -> string -> option A) (prev : option ascii) (s : string) (x : A) :
  star_lazy p k prev s = Some x ->
  exists q t, suffix_of t s /\ k q t = Some x.
Proof.
  intro H. apply star_lazy_reads in H as (u & q & rest & -> & _ & Hk).
  exists q, rest. split; [apply suffix_of_app | exact Hk].
Qed.

(** A match hands over to its continuation at a later position of the text. *)
Lemma rmatch_suffix (fl : flags) (r : regex) :
  forall k st x,
    rmatch fl r k st = Some x ->
    exists st', suffix_of (st_rest st') (st_rest st) /\ k st' = Some x.
Proof.
  induction r as [|lit|cs|greedy cs|r1 IH1 r2 IH2|r1 IH1 r2 IH2|n r IH|];
    intros k st x H.
  - exists st. split; [apply suffix_of_refl | exact H].
  - rewrite rmatch_lit_eq in H.
    destruct (match_lit fl lit (st_prev st) (st_rest st)) as [[p s]|] eqn:E;
      [|discriminate].
    exists (move st p s). split; [now apply match_lit_suffix in E | exact H].
  - cbn [rmatch] in H. destruct (st_rest st) as [|c s] eqn:E; [discriminate|].
    destruct (in_cset cs c); [|discriminate].
    exists (move st (Some c) s). split; [|exact H].
    cbn [move st_rest suffix_of]. right. apply suffix_of_refl.
  - cbn [rmatch] in H. destruct greedy.
    + apply star_greedy_suffix in H as (q & t & Hs & Hk). now exists (move st q t).
    + apply star_lazy_suffix in H as (q & t & Hs & Hk). now exists (move st q t).
  - rewrite rmatch_seq in H.
    destruct (IH1 _ _ _ H) as (st1 & Hs1 & H1).
    destruct (IH2 _ _ _ H1) as (st2 & Hs2 & H2).
    exists st2. split; [now apply (suffix_of_trans _ (st_rest st1)) | exact H2].
  - cbn [rmatch] in H. destruct (rmatch fl r1 k st) eqn:E.
    + inversion H; subst. now apply IH1.
    + now apply IH2.
  - rewrite rmatch_group in H. destruct (IH _ _ _ H) as (st1 & Hs1 & H1).
    eexists. split; [|exact H1]. exact Hs1.
  - rewrite rmatch_bol in H. destruct (at_bol fl (st_prev st)); [|discriminate].
    exists st. split; [apply suffix_of_refl | exact H].
Qed.

(** A match of a pattern that needs one of the literals reads one of them
    somewhere in the text. *)
Lemma rmatch_needs (fl : flags) (lits : list string) (r : regex) :
  needs lits r = true ->
  forall k st x,
    rmatch fl r k st = Some x ->
    exists lit t,
      In lit lits /\ suffix_of t (st_rest st) /\ match_lit fl lit None t <> None.
Proof.
  induction r as [|lit|cs|greedy cs|r1 IH1 r2 IH2|r1 IH1 r2 IH2|n r IH|];
    cbn [needs]; intros Hn k st x H; try discriminate.
  - rewrite rmatch_lit_eq in H.
    destruct (match_lit fl lit (st_prev st) (st_rest st)) as [[p s]|] eqn:E;
      [|discriminate].
    exists lit, (st_rest st). split; [now apply str_in_In|].
    split; [apply suffix_of_refl|].
    intro E0. apply (match_lit_prev fl lit None (st_prev st)) in E0. congruence.
  - rewrite rmatch_seq in H. apply orb_prop in Hn as [Hn | Hn].
    + now apply (IH1 Hn _ _ _ H).
    + destruct (rmatch_suffix fl r1 _ _ _ H) as (st1 & Hs1 & H1).
      destruct (IH2 Hn _ _ _ H1) as (lit & t & Hin & Hs & Hm).
      exists lit, t. split; [exact Hin|]. split; [|exact Hm].
      now apply (suffix_of_trans _ (st_rest st1)).
  - apply andb_prop in Hn as [Hn1 Hn2]. cbn [rmatch] in H.
    destruct (rmatch fl r1 k st) eqn:E.
    + now apply (IH1 Hn1 _ _ _ E).
    + now apply (IH2 Hn2 _ _ _ H).
  - rewrite rmatch_group in H. now apply (IH Hn _ _ _ H).
Qed.

Lemma lits_free_suffix (fl : flags) (lits : list string) (t s : string) :
  suffix_of t s -> lits_free fl lits s = true -> lits_free fl lits t = true.
Proof.
  induction s as [|c s IH]; cbn [suffix_of]; intros [-> | Hs] Hfree;
    try exact Hfree; try contradiction.
  apply IH; [exact Hs|]. cbn [lits_free] in Hfree.
  now apply andb_prop in Hfree as [_ Hfree].
Qed.

Lemma lits_free_here (fl : flags) (lits : list string) (lit s : string) :
  lits_free fl lits s = true -> In lit lits -> match_lit fl lit None s = None.
Proof.
  intros Hfree Hin.
  assert (H : forallb (fun lit => match match_lit fl lit None s with
                                  | Some _ => false
                                  | None => true
                                  end) lits = true).
  { destruct s; cbn [lits_free] in Hfree; now apply andb_prop in Hfree as [H _]. }
  pose proof (proj1 (forallb_forall _ _) H lit Hin) as Hl. cbv beta in Hl.
  now destruct (match_lit fl lit None s).
Qed.

Lemma no_match_when_free (fl : flags) (lits : list string) (r : regex)
    (prev : option ascii) (must_advance : bool) (s : string) :
  needs lits r = true -> lits_free fl lits s = true ->
  match_here fl r prev must_advance s = None.
Proof.
  intros Hn Hfree. unfold match_here.
  destruct (rmatch fl r _ _) eqn:E; [|reflexivity]. exfalso.
  destruct (rmatch_needs fl lits r Hn _ _ _ E) as (lit & t & Hin & Hs & Hm).
  cbn [st_rest] in Hs. apply Hm.
  apply (lits_free_here fl lits lit t); [|exact Hin].
  now apply (lits_free_suffix fl lits t s).
Qed.

(** A text in which the pattern's literals occur nowhere is left as it is. *)
Lemma sub_when_free (fl : flags) (lits : list string) (r : regex) (tpl : list titem)
    (s : string) :
  needs lits r = true -> lits_free fl lits s = true ->
  Re.sub fl r tpl s = s.
Proof.
  intros Hn. unfold Re.sub. generalize (@None ascii) as prev.
  induction s as [|c s IH]; intros prev Hfree.
  - cbn [sub_from]. now rewrite (no_match_when_free fl lits r prev false _ Hn Hfree).
  - rewrite sub_from_copy by now apply (no_match_when_free fl lits).
    f_equal. apply IH. cbn [lits_free] in Hfree.
    now apply andb_prop in Hfree as [_ Hfree].
Qed.

Lemma redact_when_free (fl : flags) (lits : list string) (r : regex) (tpl : list titem)
    (a : artifact) :
  needs lits r = true -> lits_free fl lits (art_content a) = true ->
  redact fl r tpl a = a.
Proof.
  intros Hn Hfree. unfold redact. rewrite (sub_when_free fl lits r tpl _ Hn Hfree).
  now destruct a.
Qed.

Lemma map_id_when {A : Type} (f : A -> A) (l : list A) :
  (forall a, In a l -> f a = a) -> map f l = l.
Proof.
  induction l as [|x l IH]; intro H; [reflexivity|].
  cbn [map]. rewrite (H x (or_introl eq_refl)), IH; [reflexivity|].
  intros a Ha. apply H. now right.
Qed.

Lemma archive_free_In (fl : flags) (lits : list string) (ar : archive) (a : artifact) :
  archive_free fl lits ar = true -> In a ar -> lits_free fl lits (art_content a) = true.
Proof.
  intros H Hin. exact (proj1 (forallb_forall _ _) H a Hin).
Qed.

Lemma match_lit_longer (fl : flags) (lit x : string) (prev : option ascii) (s : string) :
  match_lit fl lit prev s = None -> match_lit fl (lit ++ x) prev s = None.
Proof.
  revert prev s. induction lit as [|a lit IH]; intros prev s H.
  - discriminate H.
  - cbn [append]. destruct s as [|c s]; cbn [match_lit] in *; [reflexivity|].
    destruct (chr_eq fl a c); [now apply IH | reflexivity].
Qed.

(** A text free of some literals is free of every text that starts with
    one of them. *)
Lemma lits_free_longer (fl : flags) (lits lits' : list string) (s : string) :
  (forall lit', In lit' lits' -> exists lit x, In lit lits /\ lit' = lit ++ x) ->
  lits_free fl lits s = true -> lits_free fl lits' s = true.
Proof.
  intro Hext. induction s as [|c s IH]; intro Hfree.
  - cbn [lits_free]. rewrite andb_true_r. apply forallb_forall. intros lit' Hin.
    destruct (Hext lit' Hin) as (lit & x & Hlit & ->).
    now rewrite (match_lit_longer fl lit x None _ (lits_free_here fl lits lit _ Hfree Hlit)).
  - cbn [lits_free]. apply andb_true_intro. split.
    + apply forallb_forall. intros lit' Hin.
      destruct (Hext lit' Hin) as (lit & x & Hlit & ->).
      now rewrite (match_lit_longer fl lit x None _
                     (lits_free_here fl lits lit _ Hfree Hlit)).
    + apply IH. cbn [lits_free] in Hfree. now apply andb_prop in Hfree as [_ Hfree].
Qed.

(** X8.  An archive in which the protected keys of a plugin (for docker,
    the six keywords) occur nowhere is returned unchanged by the [postproc]
    of that plugin, under every setting of the flags. *)
Theorem postproc_keeps_texts_without_keys (fl : flags) (ar : archive) :
  (archive_free fl dqlite.protect_keys ar = true -> dqlite.postproc fl ar = ar)
  /\ (archive_free fl Microk8s.protect_keys ar = true -> Microk8s.postproc fl ar = ar)
  /\ (archive_free fl Docker.keywords ar = true -> Docker.postproc fl ar = ar)
  /\ (archive_free fl CephCommon.protect_keys ar = true -> CephCommon.postproc fl ar = ar).
Proof.
  repeat split; intro Hfree.
  - unfold dqlite.postproc, do_file_sub. apply map_id_when. intros a Ha.
    destruct (art_origin a); [|reflexivity]. destruct (_ =? _); [|reflexivity].
    apply (redact_when_free fl dqlite.protect_keys); [reflexivity|].
    now apply (archive_free_In fl _ ar).
  - unfold Microk8s.postproc, do_path_regex_sub, do_cmd_output_sub.
    rewrite map_map. apply map_id_when. intros a Ha.
    pose proof (archive_free_In fl _ ar a Hfree Ha) as Hfa.
    destruct (art_origin a) eqn:Ho.
    + rewrite Ho. destruct (re_match _ _); [|reflexivity].
      now apply (redact_when_free fl Microk8s.protect_keys).
    + destruct (fnmatch _ _); [|now rewrite Ho].
      assert (Ha' : redact fl Microk8s.rsub
                      [TGroup 1; TLit (" " ++ dq ++ "**********" ++ dq)] a = a).
      { apply (redact_when_free fl ["certificate-authority-data:"; "token:"]);
          [reflexivity|].
        apply (lits_free_longer fl Microk8s.protect_keys); [|exact Hfa].
        intros lit' [<- | [<- | []]].
        - exists "certificate-authority-data", ":". simpl. tauto.
        - exists "token", ":". simpl. tauto. }
      rewrite Ha'. now rewrite Ho.
  - unfold Docker.postproc, do_cmd_output_sub. apply map_id_when. intros a Ha.
    destruct (art_origin a); [reflexivity|]. destruct (fnmatch _ _); [|reflexivity].
    apply (redact_when_free fl Docker.keywords); [reflexivity|].
    now apply (archive_free_In fl _ ar).
  - unfold CephCommon.postproc, do_path_regex_sub. apply map_id_when. intros a Ha.
    destruct (art_origin a); [|reflexivity]. destruct (re_match _ _); [|reflexivity].
    apply (redact_when_free fl CephCommon.protect_keys); [reflexivity|].
    now apply (archive_free_In fl _ ar).
Qed.

Lemma postproc_keeps_texts_witness :
  dqlite.postproc no_flags plain_archive = plain_archive
  /\ Microk8s.postproc no_flags plain_archive = plain_archive
  /\ Docker.postproc no_flags plain_archive = plain_archive
  /\ CephCommon.postproc no_flags plain_archive = plain_archive.
Proof.
  destruct (postproc_keeps_texts_without_keys no_flags plain_archive)
    as (H1 & H2 & H3 & H4).
  split; [apply H1; reflexivity|].
  split; [apply H2; reflexivity|].
  split; [apply H3; reflexivity | apply H4; reflexivity].
Defined.

(** ** The docker rule works line by line *)

Lemma match_lit_rest (fl : flags) (lit : string) (p1 p2 : option ascii) (s : string) :
  option_map snd (match_lit fl lit p1 s) = option_map snd (match_lit fl lit p2 s).
Proof.
  revert p1 p2 s. induction lit as [|a lit IH]; intros p1 p2 s.
  - reflexivity.
  - destruct s as [|c s]; cbn [match_lit]; [reflexivity|].
    destruct (chr_eq fl a c); reflexivity.
Qed.

Lemma star_greedy_prev {A : Type} (p : ascii -> bool)
    (k : option ascii -> string -> option A) (p1 p2 : option ascii) (s : string) :
  (forall q1 q2 t, k q1 t = k q2 t) ->
  star_greedy p k p1 s = star_greedy p k p2 s.
Proof.
  intro Hk. destruct s as [|c s]; cbn [star_greedy]; [apply Hk|].
  destruct (p c); [|apply Hk].
  destruct (star_greedy p k (Some c) s); [reflexivity | apply Hk].
Qed.

Lemma star_lazy_prev {A : Type} (p : ascii -> bool)
    (k : option ascii -> string -> option A) (p1 p2 : option ascii) (s : string) :
  (forall q1 q2 t, k q1 t = k q2 t) ->
  star_lazy p k p1 s = star_lazy p k p2 s.
Proof.
  intro Hk. destruct s as [|c s]; cbn [star_lazy]; now rewrite (Hk p1 p2).
Qed.

(** A pattern without anchor does not look at the character before the
    position it is tried at. *)
Lemma rmatch_prev (fl : flags) (r : regex) :
  anchor_free r = true ->
  forall k, (forall st p, k (set_prev p st) = k st) ->
  forall st p, rmatch fl r k (set_prev p st) = rmatch fl r k st.
Proof.
  induction r as [|lit|cs|greedy cs|r1 IH1 r2 IH2|r1 IH1 r2 IH2|n r IH|];
    cbn [anchor_free]; intros Hr k Hk st p; try discriminate.
  - cbn [rmatch]. apply Hk.
  - rewrite !rmatch_lit_eq. cbn [set_prev st_prev st_rest].
    pose proof (match_lit_rest fl lit p (st_prev st) (st_rest st)) as E.
    destruct (match_lit fl lit p (st_rest st)) as [[q1 s1]|],
             (match_lit fl lit (st_prev st) (st_rest st)) as [[q2 s2]|];
      cbn [option_map snd] in E; try discriminate E; [|reflexivity].
    inversion E; subst s2.
    change (move (set_prev p st) q1 s1) with (set_prev q1 (move st q2 s1)).
    apply Hk.
  - cbn [rmatch set_prev st_rest]. destruct (st_rest st) as [|c s]; [reflexivity|].
    reflexivity.
  - cbn [rmatch set_prev st_rest st_prev].
    assert (Hk' : forall q1 q2 t, k (move st q1 t) = k (move st q2 t)).
    { intros q1 q2 t.
      change (move st q1 t) with (set_prev q1 (move st q2 t)). apply Hk. }
    destruct greedy.
    + apply (star_greedy_prev _ (fun q t => k (move st q t))), Hk'.
    + apply (star_lazy_prev _ (fun q t => k (move st q t))), Hk'.
  - apply andb_prop in Hr as [Hr1 Hr2]. rewrite !rmatch_seq.
    apply IH1; [exact Hr1|]. intros st' p'. now apply IH2.
  - apply andb_prop in Hr as [Hr1 Hr2]. cbn [rmatch].
    rewrite (IH1 Hr1 k Hk), (IH2 Hr2 k Hk). reflexivity.
  - rewrite !rmatch_group. cbn [set_prev st_rest].
    apply (IH Hr). intros st' p'. cbn [set_prev st_prev st_rest st_caps].
    apply (Hk {| st_prev := st_prev st'; st_rest := st_rest st';
                 st_caps := (n, consumed (st_rest st) (st_rest st')) :: st_caps st' |} p').
Qed.

Lemma match_here_prev (fl : flags) (r : regex) (p1 p2 : option ascii)
    (must_advance : bool) (s : string) :
  anchor_free r = true ->
  option_map (set_prev None) (match_here fl r p1 must_advance s) =
  option_map (set_prev None) (match_here fl r p2 must_advance s).
Proof.
  intro Hr. unfold match_here. rewrite <- !rmatch_map.
  apply (rmatch_prev fl r Hr _) with (st := {| st_prev := p2; st_rest := s; st_caps := [] |})
                                     (p := p1).
  intros st p. cbn [set_prev st_rest].
  destruct (must_advance && _); reflexivity.
Qed.

Lemma set_prev_eq (a b : mstate) :
  set_prev None a = set_prev None b -> st_rest a = st_rest b /\ st_caps a = st_caps b.
Proof. unfold set_prev. intro E. now inversion E. Qed.

Lemma sub_from_prev (fl : flags) (r : regex) (tpl : list titem)
    (p1 p2 : option ascii) (skip : nat) (s : string) :
  anchor_free r = true ->
  sub_from fl r tpl p1 skip s = sub_from fl r tpl p2 skip s.
Proof.
  intro Hr.
  pose proof (match_here_prev fl r p1 p2 false s Hr) as E1.
  pose proof (match_here_prev fl r p1 p2 true s Hr) as E2.
  destruct skip as [|n], s as [|c s]; cbn [sub_from]; try reflexivity.
  - destruct (match_here fl r p1 false EmptyString) as [a|],
             (match_here fl r p2 false EmptyString) as [b|];
      cbn [option_map] in E1; try discriminate E1; [|reflexivity].
    assert (E : set_prev None a = set_prev None b) by congruence.
    apply set_prev_eq in E as [_ ->]. reflexivity.
  - destruct (match_here fl r p1 false (String c s)) as [a|],
             (match_here fl r p2 false (String c s)) as [b|];
      cbn [option_map] in E1; try discriminate E1; [|reflexivity].
    assert (E : set_prev None a = set_prev None b) by congruence.
    apply set_prev_eq in E as [-> ->]. f_equal.
    destruct (String.length (String c s) - String.length (st_rest b)); [|reflexivity].
    destruct (match_here fl r p1 true (String c s)) as [a2|],
             (match_here fl r p2 true (String c s)) as [b2|];
      cbn [option_map] in E2; try discriminate E2; [|reflexivity].
    assert (E' : set_prev None a2 = set_prev None b2) by congruence.
    apply set_prev_eq in E' as [-> ->]. reflexivity.
Qed.

Lemma env_anchor_free : anchor_free Docker.env_regexp = true.
Proof. reflexivity. Qed.

(** The rule on two texts joined by a newline is the rule on each. *)
Lemma env_rule_newline (fl : flags) (x y : string) :
  Re.sub fl Docker.env_regexp Docker.subst (x ++ String nl y) =
  Re.sub fl Docker.env_regexp Docker.subst x ++
  String nl (Re.sub fl Docker.env_regexp Docker.subst y).
Proof.
  unfold Re.sub.
  rewrite (sub_from_lines fl Docker.env_regexp Docker.subst (env_line_bound fl)
             (env_no_empty_match fl) x y None 0 (Nat.le_0_l _)).
  now rewrite (sub_from_prev fl _ _ (Some nl) None 0 y env_anchor_free).
Qed.

Lemma lines_nonempty (s : string) : lines s <> [].
Proof.
  destruct s as [|c s]; cbn [lines]; [discriminate|].
  destruct (Ascii.eqb c nl); [discriminate|]. destruct (lines s); discriminate.
Qed.

(** A text is one line, or a first line, a newline and the rest. *)
Lemma lines_split (s : string) :
  (one_line s = true /\ lines s = [s])
  \/ exists x y, s = x ++ String nl y /\ one_line x = true /\ lines s = x :: lines y.
Proof.
  induction s as [|c s IH].
  - left. split; reflexivity.
  - cbn [lines]. destruct (Ascii.eqb_spec c nl) as [->|Hc].
    + right. exists EmptyString, s. repeat split.
    + assert (Hdot : in_cset CDot c = true).
      { cbn [in_cset]. apply negb_true_iff. now apply Ascii.eqb_neq. }
      destruct IH as [[H1 H2] | (x & y & -> & Hx & Hl)].
      * left. rewrite H2. split; [|reflexivity].
        unfold one_line in *. cbn [str_forallb]. now rewrite Hdot.
      * right. exists (String c x), y. rewrite Hl. repeat split.
        unfold one_line in *. cbn [str_forallb]. now rewrite Hdot.
Qed.

Lemma join_cons (sep x : string) (l : list string) :
  l <> [] -> join sep (x :: l) = x ++ sep ++ join sep l.
Proof. destruct l; [congruence | reflexivity]. Qed.

Lemma env_rule_lines (fl : flags) (n : nat) :
  forall s, String.length s <= n ->
    Re.sub fl Docker.env_regexp Docker.subst s =
    join newline (map (Re.sub fl Docker.env_regexp Docker.subst) (lines s)).
Proof.
  induction n as [|n IH]; intros s Hlen.
  - destruct s; [|cbn [String.length] in Hlen; lia]. reflexivity.
  - destruct (lines_split s) as [[_ ->] | (x & y & -> & _ & ->)]; [reflexivity|].
    cbn [map]. rewrite join_cons.
    + rewrite env_rule_newline, <- IH; [reflexivity|].
      rewrite length_append in Hlen. cbn [String.length] in Hlen. lia.
    + intro E. apply map_eq_nil in E. now apply lines_nonempty in E.
Qed.

(** ** No rule brings a newline into a line *)

Lemma one_line_substring (n : nat) (s : string) :
  one_line s = true -> one_line (substring 0 n s) = true.
Proof.
  unfold one_line. revert n. induction s as [|c s IH]; intros n H.
  - destruct n; reflexivity.
  - destruct n; cbn [substring]; [reflexivity|].
    cbn [str_forallb] in *. apply andb_prop in H as [Hc Hs]. now rewrite Hc, IH.
Qed.

Lemma one_line_suffix (t s : string) :
  suffix_of t s -> one_line s = true -> one_line t = true.
Proof.
  unfold one_line. induction s as [|c s IH]; cbn [suffix_of]; intros [-> | Hs] H;
    try exact H; try contradiction.
  apply IH; [exact Hs|]. cbn [str_forallb] in H. now apply andb_prop in H as [_ H].
Qed.

(** Matching in a text without newline captures texts without newline. *)
Lemma rmatch_one_line (fl : flags) (r : regex) :
  forall k st x,
    on_one_line st ->
    rmatch fl r k st = Some x ->
    exists st', on_one_line st' /\ suffix_of (st_rest st') (st_rest st) /\ k st' = Some x.
Proof.
  induction r as [|lit|cs|greedy cs|r1 IH1 r2 IH2|r1 IH1 r2 IH2|n r IH|];
    intros k st x Hst H.
  - exists st. split; [exact Hst|]. split; [apply suffix_of_refl | exact H].
  - destruct (rmatch_suffix fl (RLit lit) k st x H) as (st' & Hs & Hk).
    rewrite rmatch_lit_eq in H.
    destruct (match_lit fl lit (st_prev st) (st_rest st)) as [[p s]|] eqn:E;
      [|discriminate].
    exists (move st p s). apply match_lit_suffix in E.
    split; [|split; [exact E | exact H]].
    destruct Hst as [H1 H2]. split; [now apply (one_line_suffix s (st_rest st)) | exact H2].
  - cbn [rmatch] in H. destruct (st_rest st) as [|c s] eqn:E; [discriminate|].
    destruct (in_cset cs c); [|discriminate].
    exists (move st (Some c) s).
    assert (Hs : suffix_of s (String c s)) by (cbn [suffix_of]; right; apply suffix_of_refl).
    destruct Hst as [H1 H2]. rewrite E in H1.
    split; [split; [now apply (one_line_suffix s (String c s)) | exact H2]|].
    split; [exact Hs | exact H].
  - cbn [rmatch] in H.
    assert (Hex : exists q t, suffix_of t (st_rest st) /\ k (move st q t) = Some x).
    { destruct greedy.
      - now apply star_greedy_suffix in H.
      - now apply star_lazy_suffix in H. }
    destruct Hex as (q & t & Hs & Hk). exists (move st q t).
    destruct Hst as [H1 H2].
    split; [split; [now apply (one_line_suffix t (st_rest st)) | exact H2]|].
    split; [exact Hs | exact Hk].
  - rewrite rmatch_seq in H.
    destruct (IH1 _ _ _ Hst H) as (st1 & Hst1 & Hs1 & H1).
    destruct (IH2 _ _ _ Hst1 H1) as (st2 & Hst2 & Hs2 & H2).
    exists st2. split; [exact Hst2|].
    split; [now apply (suffix_of_trans _ (st_rest st1)) | exact H2].
  - cbn [rmatch] in H. destruct (rmatch fl r1 k st) eqn:E.
    + inversion H; subst. now apply IH1.
    + now apply IH2.
  - rewrite rmatch_group in H. destruct (IH _ _ _ Hst H) as (st1 & Hst1 & Hs1 & H1).
    eexists. split; [|split; [|exact H1]]; [|exact Hs1].
    destruct Hst as [Hr Hc], Hst1 as [Hr1 Hc1]. split; [exact Hr1|].
    cbn [st_caps]. constructor; [|exact Hc1].
    cbn [snd]. unfold consumed. now apply one_line_substring.
  - rewrite rmatch_bol in H. destruct (at_bol fl (st_prev st)); [|discriminate].
    exists st. split; [exact Hst|]. split; [apply suffix_of_refl | exact H].
Qed.

Lemma one_line_app (a b : string) :
  one_line (a ++ b) = one_line a && one_line b.
Proof. apply str_forallb_app. Qed.

Lemma group_one_line (n : nat) (caps : list (nat * string)) :
  Forall (fun cap => one_line (snd cap) = true) caps -> one_line (group n caps) = true.
Proof.
  induction 1 as [|[m s] caps Hs _ IH]; cbn [group]; [reflexivity|].
  destruct (n =? m)%nat; [exact Hs | exact IH].
Qed.

Lemma expand_one_line (tpl : list titem) (caps : list (nat * string)) :
  template_one_line tpl = true ->
  Forall (fun cap => one_line (snd cap) = true) caps ->
  one_line (expand tpl caps) = true.
Proof.
  intros Htpl Hcaps. induction tpl as [|[s|n] tpl IH]; cbn [expand template_one_line] in *.
  - reflexivity.
  - apply andb_prop in Htpl as [Hs Htpl]. now rewrite one_line_app, Hs, IH.
  - now rewrite one_line_app, group_one_line, IH.
Qed.

Lemma match_here_one_line (fl : flags) (r : regex) (prev : option ascii)
    (must_advance : bool) (s : string) (st1 : mstate) :
  one_line s = true ->
  match_here fl r prev must_advance s = Some st1 ->
  Forall (fun cap => one_line (snd cap) = true) (st_caps st1).
Proof.
  intros Hs H. unfold match_here in H.
  apply rmatch_one_line in H as (st' & [_ Hc] & _ & Hk).
  - destruct (must_advance && _); [discriminate|]. now inversion Hk; subst.
  - split; [exact Hs | constructor].
Qed.

(** Whatever the pattern, the substitution brings no newline into a text
    that has none, when the template has none. *)
Lemma sub_from_one_line (fl : flags) (r : regex) (tpl : list titem) :
  template_one_line tpl = true ->
  forall s prev skip,
    one_line s = true -> one_line (sub_from fl r tpl prev skip s) = true.
Proof.
  intro Htpl. induction s as [|c s IH]; intros prev skip Hs.
  - destruct skip; cbn [sub_from]; [|reflexivity].
    destruct (match_here fl r prev false EmptyString) eqn:E; [|reflexivity].
    apply expand_one_line; [exact Htpl|]. now apply (match_here_one_line _ _ _ _ _ _ Hs E).
  - assert (Hs' : one_line s = true).
    { unfold one_line in *. cbn [str_forallb] in Hs. now apply andb_prop in Hs as [_ Hs]. }
    assert (Hc : in_cset CDot c = true).
    { unfold one_line in Hs. cbn [str_forallb] in Hs. now apply andb_prop in Hs as [Hc _]. }
    assert (Hcopy : forall p, one_line (String c (sub_from fl r tpl p 0 s)) = true).
    { intro p. unfold one_line. cbn [str_forallb]. rewrite Hc. now apply IH. }
    destruct skip; cbn [sub_from]; [|now apply IH].
    destruct (match_here fl r prev false (String c s)) eqn:E; [|apply Hcopy].
    rewrite one_line_app.
    rewrite (expand_one_line tpl _ Htpl (match_here_one_line _ _ _ _ _ _ Hs E)).
    cbn [andb].
    destruct (String.length (String c s) - String.length (st_rest m)); [|now apply IH].
    destruct (match_here fl r prev true (String c s)) eqn:E2; [|apply Hcopy].
    rewrite one_line_app.
    rewrite (expand_one_line tpl _ Htpl (match_here_one_line _ _ _ _ _ _ Hs E2)).
    now apply IH.
Qed.

Lemma lines_one_line (s : string) : Forall (fun l => one_line l = true) (lines s).
Proof.
  induction s as [|c s IH]; cbn [lines].
  - repeat constructor.
  - destruct (Ascii.eqb_spec c nl) as [->|Hc].
    + constructor; [reflexivity | exact IH].
    + assert (Hdot : in_cset CDot c = true).
      { cbn [in_cset]. apply negb_true_iff. now apply Ascii.eqb_neq. }
      destruct (lines s) as [|l ls].
      * constructor; [|constructor]. unfold one_line. cbn [str_forallb]. now rewrite Hdot.
      * inversion IH; subst. constructor; [|assumption].
        unfold one_line in *. cbn [str_forallb]. now rewrite Hdot.
Qed.

Lemma lines_of_one_line (x : string) : one_line x = true -> lines x = [x].
Proof.
  unfold one_line. induction x as [|c x IH]; intro H; [reflexivity|].
  cbn [str_forallb in_cset] in H. apply andb_prop in H as [Hc Hx].
  cbn [lines]. apply negb_true_iff in Hc. now rewrite Hc, (IH Hx).
Qed.

Lemma lines_of_first_line (x y : string) :
  one_line x = true -> lines (x ++ String nl y) = x :: lines y.
Proof.
  unfold one_line. induction x as [|c x IH]; intro H.
  - cbn [append lines]. now rewrite Ascii.eqb_refl.
  - cbn [str_forallb in_cset] in H. apply andb_prop in H as [Hc Hx].
    cbn [append lines]. apply negb_true_iff in Hc. now rewrite Hc, (IH Hx).
Qed.

(** Splitting undoes joining. *)
Lemma lines_join (ls : list string) :
  ls <> [] -> Forall (fun l => one_line l = true) ls -> lines (join newline ls) = ls.
Proof.
  induction ls as [|x ls IH]; intros Hne H; [congruence|].
  inversion H as [|? ? Hx Hls]; subst.
  destruct ls as [|y ls].
  - cbn [join]. now apply lines_of_one_line.
  - rewrite join_cons by discriminate.
    change (x ++ newline ++ join newline (y :: ls))
      with (x ++ String nl (join newline (y :: ls))).
    rewrite (lines_of_first_line _ _ Hx), IH; [reflexivity | discriminate | exact Hls].
Qed.

(** X9.  The docker rule works line by line: the result for a text is the
    text with each of its lines replaced by the result for that line, and
    the lines of the result are the results for the lines; so the rule
    never joins, splits, adds or drops a line, under every setting of the
    flags. *)
Theorem docker_rule_line_by_line (fl : flags) (text : string) :
  let rule := Re.sub fl Docker.env_regexp Docker.subst in
  rule text = join newline (map rule (lines text))
  /\ lines (rule text) = map rule (lines text).
Proof.
  intro rule. subst rule.
  assert (H : Re.sub fl Docker.env_regexp Docker.subst text =
              join newline (map (Re.sub fl Docker.env_regexp Docker.subst) (lines text)))
    by now apply (env_rule_lines fl (String.length text)).
  split; [exact H|]. rewrite H at 1. apply lines_join.
  - intro E. apply map_eq_nil in E. now apply lines_nonempty in E.
  - apply Forall_map.
    apply (Forall_weaken (fun l => one_line l = true)); [|apply lines_one_line].
    intros l Hl. now apply sub_from_one_line.
Qed.

(** ** The setup of the microk8s plugin *)

Lemma microk8s_dqlite_cmd : Microk8s.dqlite_cmd = dqlite_cmd microk8s_cfg.
Proof. reflexivity. Qed.

Lemma microk8s_servers : Microk8s.servers = servers_path microk8s_cfg.
Proof. reflexivity. Qed.

Lemma named_cmds_app (a b : list call) :
  named_cmds (a ++ b) = (named_cmds a ++ named_cmds b)%list.
Proof. unfold named_cmds. apply flat_map_app. Qed.

Lemma named_cmds_named (f : string -> string) (g : string -> string) (l : list string) :
  named_cmds
    (map (fun x => AddCmdOutput (OneCmd (f x))
                     {| kw_suggest_filename := Some (g x); kw_subdir := None;
                        kw_tags := None; kw_priority := None |}) l) =
  map (fun x => (f x, g x)) l.
Proof. induction l as [|x l IH]; [reflexivity|]. cbn. now f_equal. Qed.

(** X10.  When the topology file can be read, the [setup] of the microk8s
    plugin and the microk8s hook of the dqlite plugin run the same dqlite
    command lines, the three fixed queries and one [.describe] per peer:
    [setup] runs the [.describe] queries first and suggests
    [dqlite_<subcmd>] as the file name; the hook runs the fixed queries
    first. *)
Theorem microk8s_plugins_run_same_dqlite_commands (h : host) (cluster : string) :
  read_text h (servers_path microk8s_cfg) = ReadOk cluster ->
  let queries := map describe_query (findall no_flags address_re cluster) in
  fst (Microk8s.setup h) = Ok tt
  /\ named_cmds (snd (Microk8s.setup h)) =
     map (fun query => (dqlite_cmd microk8s_cfg ++ " " ++ query, "dqlite_" ++ query))
         (queries ++ fixed_queries)
  /\ map cmd_line (cmd_requests (trace (microk8s_collection h "microk8s" microk8s_cfg))) =
     map (fun query => dqlite_cmd microk8s_cfg ++ " " ++ query) (fixed_queries ++ queries).
Proof.
  intros Hread queries. subst queries.
  unfold Microk8s.setup, Microk8s.nodes. rewrite microk8s_servers, Hread.
  cbn [fst snd]. split; [reflexivity|]. split.
  - rewrite !named_cmds_app.
    rewrite (named_cmds_named (fun subcmd => Microk8s.dqlite_cmd ++ " " ++ subcmd)
                              (fun subcmd => "dqlite_" ++ subcmd)).
    cbn [named_cmds flat_map app]. rewrite app_nil_r.
    rewrite microk8s_dqlite_cmd. reflexivity.
  - rewrite (microk8s_collection_read h "microk8s" microk8s_cfg _ Hread).
    unfold trace. cbn [snd cmd_requests filter].
    fold (cmd_requests (hook_requests "microk8s" microk8s_cfg
                          (findall no_flags address_re cluster))).
    rewrite cmd_requests_hook, hook_requests_split.
    rewrite !map_app, !map_map. reflexivity.
Qed.

Lemma microk8s_plugins_witness :
  let queries := map describe_query (findall no_flags address_re two_peers) in
  fst (Microk8s.setup (host_with_topology two_peers)) = Ok tt
  /\ named_cmds (snd (Microk8s.setup (host_with_topology two_peers))) =
     map (fun query => (dqlite_cmd microk8s_cfg ++ " " ++ query, "dqlite_" ++ query))
         (queries ++ fixed_queries)
  /\ map cmd_line
       (cmd_requests (trace (microk8s_collection (host_with_topology two_peers)
                               "microk8s" microk8s_cfg))) =
     map (fun query => dqlite_cmd microk8s_cfg ++ " " ++ query) (fixed_queries ++ queries).
Proof.
  apply (microk8s_plugins_run_same_dqlite_commands (host_with_topology two_peers) two_peers).
  reflexivity.
Defined.

(** ** The setup of the ceph_common plugin *)

(** X11.  With a microceph package, whatever [all_logs] is, [setup] asks for
    eleven microceph subcommands, not twelve: the statements on [disk] and
    on [client_config] are written as two string literals with no comma
    between them, so they make one command line, and neither is run on its
    own. *)
Theorem microceph_statements_run_together (all_logs : bool) :
  let asked := flat_map cmds_of (CephCommon.setup all_logs true) in
  filter (String.prefix "microceph ") asked =
    map (fun cmd => "microceph " ++ cmd) CephCommon.cmds
  /\ length CephCommon.cmds = 11
  /\ last CephCommon.cmds EmptyString =
     "cluster sql 'SELECT * FROM disk'cluster sql 'SELECT * FROM client_config'"
  /\ ~ In "microceph cluster sql 'SELECT * FROM disk'" asked
  /\ ~ In "microceph cluster sql 'SELECT * FROM client_config'" asked.
Proof.
  intro asked. subst asked.
  assert (Hasked : flat_map cmds_of (CephCommon.setup all_logs true) =
                   ("ls -al /var/snap/microceph/common/state/database"
                    :: "snap info microceph"
                    :: map (fun cmd => ("microceph " ++ cmd)%string) CephCommon.cmds
                    ++ ["ceph -v"])%list).
  { destruct all_logs; reflexivity. }
  rewrite Hasked. split; [reflexivity|]. split; [reflexivity|]. split; [reflexivity|].
  split; intro H; vm_compute in H;
    repeat (destruct H as [H | H]; [discriminate H|]); exact H.
Qed.

(** ** The setup of the docker plugin *)

Lemma linebreak_is_space (c : ascii) : is_linebreak c = true -> is_space c = true.
Proof.
  unfold is_linebreak, is_space. intro H.
  apply orb_prop in H as [H | H]; [apply orb_prop in H as [H | H]|].
  - apply ascii_in_spec in H.
    assert (E : ascii_in 9 13 c = true) by (apply ascii_in_spec; lia).
    now rewrite E.
  - apply ascii_in_spec in H.
    assert (E : ascii_in 28 32 c = true) by (apply ascii_in_spec; lia).
    rewrite E. now rewrite orb_true_r.
  - rewrite H. now rewrite !orb_true_r.
Qed.

Lemma not_linebreak_not_cr (c : ascii) : is_linebreak c = false -> Ascii.eqb c cr = false.
Proof.
  intro H. destruct (Ascii.eqb_spec c cr) as [->|]; [|reflexivity].
  discriminate H.
Qed.

Lemma splitlines_from_line (line x rest : string) :
  inline x = true ->
  splitlines_from line (x ++ String nl rest) = (line ++ x) :: splitlines_from EmptyString rest.
Proof.
  unfold inline. revert line. induction x as [|c x IH]; intros line Hx.
  - cbn [append splitlines_from]. now rewrite append_nil_r.
  - cbn [str_forallb] in Hx. apply andb_prop in Hx as [Hc Hx].
    apply negb_true_iff in Hc.
    cbn [append splitlines_from]. rewrite (not_linebreak_not_cr c Hc), Hc.
    rewrite (IH _ Hx). now rewrite append_assoc.
Qed.

Lemma inline_app (a b : string) : inline (a ++ b) = inline a && inline b.
Proof. apply str_forallb_app. Qed.

Lemma word_inline (w : string) : word w = true -> inline w = true.
Proof.
  unfold word, inline. intro H. apply andb_prop in H as [_ H].
  apply (str_forallb_impl (fun c => negb (is_space c))); [|exact H].
  intros c Hc. apply negb_true_iff in Hc. apply negb_true_iff.
  destruct (is_linebreak c) eqn:E; [|reflexivity].
  apply linebreak_is_space in E. congruence.
Qed.

Lemma row_inline (r : network_row) : row_ok r = true -> inline (row_text r) = true.
Proof.
  unfold row_ok, row_text. intro H.
  repeat (apply andb_prop in H as [H ?]).
  rewrite !inline_app.
  repeat (apply andb_true_intro; split); auto using word_inline.
Qed.

Lemma splitlines_rows (rows : list network_row) :
  forallb row_ok rows = true ->
  splitlines_from EmptyString (rows_text rows) = map row_text rows.
Proof.
  induction rows as [|r rows IH]; intro H; [reflexivity|].
  cbn [forallb] in H. apply andb_prop in H as [Hr H].
  cbn [rows_text map].
  change (row_text r ++ newline ++ rows_text rows)
    with (row_text r ++ String nl (rows_text rows)).
  rewrite (splitlines_from_line _ _ _ (row_inline r Hr)). cbn [append]. now rewrite IH.
Qed.

(** The lines of the listing are its header and its rows. *)
Lemma splitlines_network_ls (header : string) (rows : list network_row) :
  inline header = true -> forallb row_ok rows = true ->
  splitlines (network_ls header rows) = header :: map row_text rows.
Proof.
  intros Hh Hrows. unfold splitlines, network_ls.
  change (header ++ newline ++ rows_text rows) with (header ++ String nl (rows_text rows)).
  rewrite (splitlines_from_line _ _ _ Hh). cbn [append]. now rewrite splitlines_rows.
Qed.

Lemma split_from_blank (lead s : string) :
  blank lead = true -> split_from None (lead ++ s) = split_from None s.
Proof.
  unfold blank. induction lead as [|c lead IH]; intro H; [reflexivity|].
  cbn [str_forallb] in H. apply andb_prop in H as [Hc H].
  cbn [append split_from]. rewrite Hc. now apply IH.
Qed.

Lemma split_from_word (w acc rest : string) :
  str_forallb (fun c => negb (is_space c)) w = true ->
  stops (fun c => negb (is_space c)) rest = true ->
  split_from (Some acc) (w ++ rest) = (acc ++ w) :: split_from None rest.
Proof.
  revert acc. induction w as [|c w IH]; intros acc Hw Hrest.
  - cbn [append]. rewrite append_nil_r. destruct rest as [|c r]; [reflexivity|].
    cbn [stops] in Hrest. apply negb_true_iff, negb_false_iff in Hrest.
    cbn [split_from]. now rewrite Hrest.
  - cbn [str_forallb] in Hw. apply andb_prop in Hw as [Hc Hw].
    apply negb_true_iff in Hc.
    cbn [append split_from]. rewrite Hc. rewrite (IH _ Hw Hrest).
    now rewrite append_assoc.
Qed.

(** A field after blanks is the next element of the split. *)
Lemma split_from_field (lead w rest : string) :
  blank lead = true -> word w = true ->
  stops (fun c => negb (is_space c)) rest = true ->
  split_from None (lead ++ w ++ rest) = w :: split_from None rest.
Proof.
  intros Hlead Hw Hrest. rewrite (split_from_blank _ _ Hlead).
  unfold word in Hw. apply andb_prop in Hw as [Hne Hw].
  destruct w as [|c w]; [discriminate Hne|].
  cbn [str_forallb] in Hw. apply andb_prop in Hw as [Hc Hw].
  apply negb_true_iff in Hc.
  cbn [append split_from]. rewrite Hc.
  now rewrite (split_from_word w (str1 c) rest Hw Hrest).
Qed.

Lemma row_second_field (r : network_row) :
  row_ok r = true -> nth_error (split (row_text r)) 1 = Some (row_name r).
Proof.
  unfold row_ok, row_text, split. intro H.
  repeat (apply andb_prop in H as [H ?]).
  assert (Hgap : stops (fun c => negb (is_space c))
                   (row_gap r ++ row_name r ++ row_tail r) = true).
  { destruct (row_gap r) as [|c g]; [discriminate|].
    cbn [append stops]. unfold blank in *. cbn [str_forallb] in *.
    match goal with Hb : is_space c && _ = true |- _ =>
      apply andb_prop in Hb as [Hc _]; now rewrite Hc end. }
  rewrite (split_from_field (row_lead r) (row_id r) _); auto.
  rewrite (split_from_field (row_gap r) (row_name r) _); auto.
Qed.

Lemma second_fields_rows (rows : list network_row) :
  forallb row_ok rows = true ->
  Docker.second_fields (map row_text rows) = Ok (map row_name rows).
Proof.
  induction rows as [|r rows IH]; intro H; [reflexivity|].
  cbn [forallb] in H. apply andb_prop in H as [Hr H].
  cbn [map Docker.second_fields]. now rewrite (row_second_field r Hr), (IH H).
Qed.

(** X12.  When [docker network ls] succeeds and prints a header line and
    one row per network (id, blanks, name, then the other columns),
    [setup] returns and asks [docker network inspect <name>] for every
    network, in the order of the listing, between the fixed commands and
    the requests for the containers, images and volumes. *)
Theorem docker_setup_inspects_listed_networks (o : Docker.options) (header : string)
    (rows : list network_row) (get_containers : bool -> list string)
    (images : list (string * string)) (volumes : list string) :
  inline header = true -> forallb row_ok rows = true ->
  Docker.setup o {| Docker.status := 0; Docker.output := network_ls header rows |}
    get_containers images volumes =
  (Ok tt,
   (Docker.first_calls o
    ++ map (fun r => network_request (row_name r)) rows
    ++ Docker.last_calls o (get_containers (Docker.opt_all o)) images volumes)%list).
Proof.
  intros Hh Hrows. unfold Docker.setup. cbn [Docker.status Docker.output Nat.eqb].
  rewrite (splitlines_network_ls header rows Hh Hrows). cbn [tl].
  rewrite (second_fields_rows rows Hrows). now rewrite map_map.
Qed.

Lemma docker_setup_networks_witness :
  Docker.setup sample_options
    {| Docker.status := 0; Docker.output := network_ls sample_header sample_rows |}
    (fun _ => ["web"]) [("nginx", "sha256:0a1b")] ["data"] =
  (Ok tt,
   (Docker.first_calls sample_options
    ++ map (fun r => network_request (row_name r)) sample_rows
    ++ Docker.last_calls sample_options ["web"] [("nginx", "sha256:0a1b")] ["data"])%list).
Proof.
  apply (docker_setup_inspects_listed_networks sample_options sample_header sample_rows
           (fun _ => ["web"]) [("nginx", "sha256:0a1b")] ["data"]); reflexivity.
Defined.

Lemma second_fields_short (rows : list string) (row : string) :
  In row rows -> length (split row) < 2 ->
  Docker.second_fields rows = Raised "list index out of range".
Proof.
  intros Hin Hshort. induction rows as [|n rows IH]; [contradiction|].
  cbn [Docker.second_fields].
  destruct (nth_error (split n) 1) as [net|] eqn:E; [|reflexivity].
  destruct Hin as [-> | Hin].
  - exfalso. assert (Hlt : 1 < length (split row)).
    { apply nth_error_Some. congruence. }
    lia.
  - now rewrite (IH Hin).
Qed.

(** X13.  When [docker network ls] succeeds and one of the lines after
    the header has fewer than two fields (a blank line, say), [setup]
    raises [IndexError] right after listing the networks: no network, no
    container, no image and no volume is inspected, and the setups of the
    Red Hat and Ubuntu variants add no copy spec of theirs. *)
Theorem docker_setup_short_row_raises (o : Docker.options) (nets : Docker.cmd_result)
    (get_containers : bool -> list string)
    (images : list (string * string)) (volumes : list string) (row : string) :
  Docker.status nets = 0 ->
  In row (tl (splitlines (Docker.output nets))) ->
  length (split row) < 2 ->
  let raised := (Raised "list index out of range", Docker.first_calls o) in
  Docker.setup o nets get_containers images volumes = raised
  /\ RedHatDocker.setup o nets get_containers images volumes = raised
  /\ UbuntuDocker.setup o nets get_containers images volumes = raised.
Proof.
  intros Hst Hin Hshort raised. subst raised.
  assert (H : Docker.setup o nets get_containers images volumes =
              (Raised "list index out of range", Docker.first_calls o)).
  { unfold Docker.setup. rewrite Hst. cbn [Nat.eqb].
    now rewrite (second_fields_short _ row Hin Hshort). }
  unfold RedHatDocker.setup, UbuntuDocker.setup. rewrite H. auto.
Qed.

Lemma docker_setup_short_row_witness :
  let nets := {| Docker.status := 0;
                 Docker.output := sample_header ++ newline ++ newline ++
                                   rows_text sample_rows |} in
  let raised := (Raised "list index out of range", Docker.first_calls sample_options) in
  Docker.setup sample_options nets (fun _ => ["web"]) [] [] = raised
  /\ RedHatDocker.setup sample_options nets (fun _ => ["web"]) [] [] = raised
  /\ UbuntuDocker.setup sample_options nets (fun _ => ["web"]) [] [] = raised.
Proof.
  apply (docker_setup_short_row_raises sample_options _ (fun _ => ["web"]) [] []
           EmptyString).
  - reflexivity.
  - vm_compute. tauto.
  - vm_compute. lia.
Defined.

(** ** Anchored rules without [re.MULTILINE] *)

(** X14.  When the flags do not hold [re.MULTILINE], the file rules of the
    dqlite, microk8s and ceph_common plugins, which are anchored with [^],
    act at the very beginning of the text only: a text that the pattern
    does not match at its first character is returned unchanged, whatever
    its later lines hold. *)
Theorem anchored_rules_act_at_start_only (fl : flags) (text : string) :
  multiline fl = false ->
  (match_here fl dqlite.regexp None false text = None ->
   Re.sub fl dqlite.regexp dqlite.subst text = text)
  /\ (match_here fl Microk8s.key_regex None false text = None ->
      Re.sub fl Microk8s.key_regex key_subst text = text)
  /\ (match_here fl CephCommon.regex None false text = None ->
      Re.sub fl CephCommon.regex CephCommon.subst text = text).
Proof.
  intro Hml. repeat split; intro Hstart; apply sub_only_at_start; try exact Hstart;
    intros c ma s; now destruct (anchored_rules_inside fl c ma s Hml) as (H1 & H2 & H3).
Qed.

Lemma anchored_rules_witness :
  Re.sub anchored_only dqlite.regexp dqlite.subst kubeconfig_sample = kubeconfig_sample
  /\ Re.sub anchored_only Microk8s.key_regex key_subst kubeconfig_sample = kubeconfig_sample
  /\ dqlite.postproc anchored_only [client_config kubeconfig_sample]
     = [client_config kubeconfig_sample]
  /\ Microk8s.postproc anchored_only [client_config kubeconfig_sample]
     = [client_config kubeconfig_sample].
Proof.
  destruct (anchored_rules_act_at_start_only anchored_only kubeconfig_sample eq_refl)
    as (H1 & H2 & _).
  assert (E1 : Re.sub anchored_only dqlite.regexp dqlite.subst kubeconfig_sample
               = kubeconfig_sample) by (apply H1; reflexivity).
  assert (E2 : Re.sub anchored_only Microk8s.key_regex key_subst kubeconfig_sample
               = kubeconfig_sample) by (apply H2; reflexivity).
  split; [exact E1|]. split; [exact E2|]. split.
  - change (dqlite.postproc anchored_only [client_config kubeconfig_sample])
      with [client_config (Re.sub anchored_only dqlite.regexp dqlite.subst kubeconfig_sample)].
    now rewrite E1.
  - change (Microk8s.postproc anchored_only [client_config kubeconfig_sample])
      with [client_config (Re.sub anchored_only Microk8s.key_regex key_subst
                             kubeconfig_sample)].
    now rewrite E2.
Defined.

(** ** The command-output rule of the microk8s plugin *)

Lemma rsub_keys_alt (fl : flags) (key : string) (k : mstate -> option mstate)
    (st : mstate) (rest : string) (x : mstate) :
  In key rsub_keys ->
  st_rest st = key ++ rest ->
  k (move st (last_char key (st_prev st)) rest) = Some x ->
  rmatch fl (RAlts rsub_keys) k st = Some x.
Proof.
  intros Hkey Hrest Hk. cbn [RAlts rsub_keys].
  destruct fl as [[] ml]; simpl in Hkey; destruct Hkey as [<- | [<- | []]].
  all: try (apply rmatch_alt_l; now apply (rmatch_lit _ _ _ _ rest)).
  all: apply rmatch_alt_r; [apply rmatch_lit_fails; rewrite Hrest; reflexivity|].
  all: now apply (rmatch_lit _ _ _ _ rest).
Qed.

Lemma rsub_line_match (fl : flags) (key : string) (c : ascii) (value : string) :
  In key rsub_keys -> is_space c = true -> one_line value = true ->
  exists p,
    match_here fl Microk8s.rsub None false (key ++ String c value) =
    Some {| st_prev := p; st_rest := EmptyString; st_caps := [(1, key)] |}.
Proof.
  intros Hkey Hc Hvalue. eexists.
  unfold match_here, Microk8s.rsub. cbn [RSeqs].
  rewrite rmatch_seq, rmatch_group.
  apply rsub_keys_alt with (key := key) (rest := String c value);
    [exact Hkey | reflexivity |]. mstep.
  rewrite rmatch_seq.
  rewrite (rmatch_set fl CSpace _ _ c value) by (try reflexivity; exact Hc). mstep.
  apply rmatch_star_greedy with (run := value) (rest := EmptyString);
    [symmetry; apply append_nil_r | exact Hvalue | reflexivity |]. mstep.
  cbn [andb]. now rewrite consumed_app.
Qed.

Lemma rsub_no_match_at_end (fl : flags) (prev : option ascii) :
  match_here fl Microk8s.rsub prev false EmptyString = None.
Proof. reflexivity. Qed.

Lemma rsub_line_sub (fl : flags) (key : string) (c : ascii) (value : string) :
  In key rsub_keys -> is_space c = true -> one_line value = true ->
  Re.sub fl Microk8s.rsub rsub_subst (key ++ String c value) = key ++ rsub_mask.
Proof.
  intros Hkey Hc Hvalue.
  destruct (rsub_line_match fl key c value Hkey Hc Hvalue) as [p Hmatch].
  assert (Hne : key ++ String c value <> EmptyString).
  { destruct key; discriminate. }
  unfold Re.sub.
  rewrite (sub_from_match fl Microk8s.rsub rsub_subst None
             (key ++ String c value) (key ++ String c value) EmptyString _
             (eq_sym (append_nil_r _)) Hne Hmatch eq_refl).
  rewrite sub_from_end by apply rsub_no_match_at_end.
  cbn [rsub_subst expand st_caps group Nat.eqb]. unfold rsub_mask.
  now rewrite !append_nil_r.
Qed.

(** X15.  The command-output rule of the microk8s plugin replaces the one
    whitespace character after the key and everything up to the end of
    that line by the mask.  The character may be a newline: when the key
    ends its line, the newline and the whole next line are replaced.
    Applied again the rule changes nothing. *)
Theorem microk8s_output_rule_takes_next_line (fl : flags) (key : string)
    (c : ascii) (value : string) :
  In key rsub_keys -> is_space c = true -> one_line value = true ->
  let rule := Re.sub fl Microk8s.rsub rsub_subst in
  rule (key ++ String c value) = key ++ rsub_mask
  /\ rule (rule (key ++ String c value)) = rule (key ++ String c value)
  /\ Microk8s.postproc fl [cmd_output "microk8s config" (key ++ String c value)]
     = [cmd_output "microk8s config" (key ++ rsub_mask)].
Proof.
  intros Hkey Hc Hvalue rule. subst rule.
  pose proof (rsub_line_sub fl key c value Hkey Hc Hvalue) as H1.
  pose proof (rsub_line_sub fl key " " (dq ++ "**********" ++ dq) Hkey eq_refl eq_refl) as H2.
  split; [exact H1|]. split; [rewrite H1; exact H2|].
  change (Microk8s.postproc fl [cmd_output "microk8s config" (key ++ String c value)])
    with [cmd_output "microk8s config"
            (Re.sub fl Microk8s.rsub rsub_subst (key ++ String c value))].
  now rewrite H1.
Qed.

Lemma microk8s_output_rule_witness :
  let rule := Re.sub no_flags Microk8s.rsub rsub_subst in
  rule ("token:" ++ String nl "server: https://10.0.0.1:16443") = "token:" ++ rsub_mask
  /\ rule (rule ("token:" ++ String nl "server: https://10.0.0.1:16443"))
     = rule ("token:" ++ String nl "server: https://10.0.0.1:16443")
  /\ Microk8s.postproc no_flags
       [cmd_output "microk8s config"
          ("token:" ++ String nl "server: https://10.0.0.1:16443")]
     = [cmd_output "microk8s config" ("token:" ++ rsub_mask)].
Proof.
  apply (microk8s_output_rule_takes_next_line no_flags "token:" nl
           "server: https://10.0.0.1:16443"); try reflexivity.
  simpl. tauto.
Defined.

(** ** C6: environment values in the output of inspect commands *)


(** Other letter cases are keywords only when matching ignores case. *)
Example keyword_mixed_case :
  keyword {| ignorecase := true; multiline := true |} "Pass" = true
  /\ keyword {| ignorecase := true; multiline := false |} "Secret" = true
  /\ keyword no_flags "Pass" = false
  /\ keyword no_flags "Secret" = false.
Proof. repeat split. Qed.









(** The sample after redaction: only the value of [mypassword] is masked. *)
Example inspect_sample_redacted :
  Docker.postproc no_flags [cmd_output "docker inspect web" inspect_sample] =
  [ cmd_output "docker inspect web"
      ("[" ++ newline ++
       "    " ++ dq ++ "Env" ++ dq ++ ": [" ++ newline ++
       "        " ++ dq ++ "PATH=/usr/bin" ++ dq ++ "," ++ newline ++
       "        " ++ dq ++ "mypassword=********" ++ dq ++ "," ++ newline ++
       "        " ++ dq ++ "container=oci" ++ dq ++ newline ++ "    ]") ].
Proof. reflexivity. Qed.


(** With IGNORECASE the mixed-case key is masked too. *)
Example env_mixed_case_with_ignorecase :
  Docker.postproc {| ignorecase := true; multiline := true |}
    [cmd_output "docker inspect web" (env_token "Password" "hunter2")]
  = [cmd_output "docker inspect web" (env_token "Password" "********")].
Proof. reflexivity. Qed.
